(** * ursparseness: the ursparse transfer format, its decoder and its encoder

    A shallow embedding of [ursparseness.c].  The file follows the C source
    function by function: the two field parsers [parse_uint] and
    [parse_newline], the payload writer [do_meat], the hole maker [do_hole],
    the resumable state machine [parse_ursparse], the decode driver
    [do_ursparse] and the encoder [do_sparse] with its helpers.

    Conventions.
    - A buffer [(buff, sz)] is a [list ascii]; [sz] is its length, and
      [buff += k] is [drop k].  No pointer is [NULL] here, so the guards
      [if (!buff)], [if (!out_sz)], [if (!out_n)] and [if (!data)] of the
      source never fire and are not modelled; [if (!sz)] is the empty list.
    - C integers are [Z].  Where the source converts between integer types the
      conversion is written out: [to_int] (32-bit [int]), [to_off] (64-bit
      signed [off_t] / [ssize_t]) and [to_size] (64-bit unsigned [size_t]).
    - File descriptors are explicit values threaded through the calls: the
      decoder's output is a [sink], its input an [in_file], the encoder's input
      a [source] and its output an [out_stream].
    - Loops whose termination depends on the environment take a [fuel]
      argument and return [None] when it runs out. *)

From Stdlib Require Import ZArith List Ascii String Bool Lia DecimalString DecimalPos.
From stdpp Require Import base option list gmap.

Local Open Scope Z_scope.

(** ** C integer types *)

Module CInt.

Definition wrap_signed (bits : Z) (z : Z) : Z :=
  (z + 2 ^ (bits - 1)) mod 2 ^ bits - 2 ^ (bits - 1).

(** [int]: return values of every function of the program. *)
Definition to_int (z : Z) : Z := wrap_signed 32 z.

(** [off_t] and [ssize_t]. *)
Definition to_off (z : Z) : Z := wrap_signed 64 z.

(** [size_t]. *)
Definition to_size (z : Z) : Z := z mod 2 ^ 64.

Definition INT_MAX : Z := 2 ^ 31 - 1.
Definition OFF_MAX : Z := 2 ^ 63 - 1.

End CInt.
Export CInt.

(** ** Characters *)

Definition char_code (c : ascii) : Z := Z.of_N (N_of_ascii c).

Definition SP : ascii := " "%char.
Definition NL : ascii := "010"%char.

Definition is_space (c : ascii) : bool := char_code c =? 32.
Definition is_newline (c : ascii) : bool := char_code c =? 10.

(** [buff[i] == ' ' || buff[i] == '\n'] *)
Definition is_blank (c : ascii) : bool := is_space c || is_newline c.

(** [buff[i] >= '0' && buff[i] <= '9'] *)
Definition is_digit (c : ascii) : bool := (48 <=? char_code c) && (char_code c <=? 57).

(** The bytes of a string literal. *)
Definition bytes (s : string) : list ascii := list_ascii_of_string s.

(** ** struct ursparse, enum ursparse_state, struct ursparse_state_data *)

Record ursparse := { offset : Z; size : Z }.

(** The state is always one of the six enumerators, so the [default] case of
    line 305 does not arise. *)
Inductive ursparse_state :=
| PARSE_ERROR
| PARSE_START
| PARSE_OFFSET
| PARSE_SIZE
| PARSE_NEWLINE
| PARSE_MEAT.

Record ursparse_state_data := {
  ursparse_of : ursparse;
  state : ursparse_state
}.

(** The decoder state after [memset] to zero (lines 296 and 325). *)
Definition zeroed : ursparse_state_data :=
  {| ursparse_of := {| offset := 0; size := 0 |}; state := PARSE_START |}.

Definition set_state (st : ursparse_state) (d : ursparse_state_data) : ursparse_state_data :=
  {| ursparse_of := ursparse_of d; state := st |}.

Definition set_offset (n : Z) (d : ursparse_state_data) : ursparse_state_data :=
  {| ursparse_of := {| offset := n; size := size (ursparse_of d) |}; state := state d |}.

Definition set_size (n : Z) (d : ursparse_state_data) : ursparse_state_data :=
  {| ursparse_of := {| offset := offset (ursparse_of d); size := n |}; state := state d |}.

(** ** parse_uint (lines 45-81) *)

(** The loops of both field parsers that step over leading characters
    (lines 56-57 and 105-106): advance [i] while [p] holds. *)
Fixpoint skip_while (p : ascii -> bool) (rest : list ascii) (i : Z) : Z * list ascii :=
  match rest with
  | c :: rest' => if p c then skip_while p rest' (i + 1) else (i, rest)
  | [] => (i, [])
  end.

(** How the digit loop (lines 60-76) is left. *)
Inductive scan :=
| ScanDone (i : Z) (n : Z)   (* line 71: a space or newline at index [i] *)
| ScanBad (n : Z)            (* line 75: any other character *)
| ScanEob (i : Z) (n : Z).   (* line 79: end of buffer *)

(** [*out_n *= 10; *out_n += buff[i] - '0';] on an [off_t], each operation
    wrapping around in 64 bits. *)
Definition push_digit (n : Z) (c : ascii) : Z :=
  to_off (to_off (n * 10) + (char_code c - 48)).

Fixpoint uint_loop (rest : list ascii) (i n : Z) : scan :=
  match rest with
  | [] => ScanEob i n
  | c :: rest' =>
      if is_digit c then uint_loop rest' (i + 1) (push_digit n c)
      else if is_blank c then ScanDone i n
      else ScanBad n
  end.

(** Lines 52-76: the optional skip of leading blanks, then the digit loop. *)
Definition uint_scan (buff : list ascii) (out_n : Z) : scan :=
  let '(i, rest) := if out_n =? 0 then skip_while is_blank buff 0 else (0, buff) in
  uint_loop rest i out_n.

(** Returns [(r, *out_sz, *out_n)]. *)
Definition parse_uint (buff : list ascii) (out_sz out_n : Z) : Z * Z * Z :=
  match buff with
  | [] => (-2, out_sz, out_n)
  | _ =>
      match uint_scan buff out_n with
      | ScanDone i n => (0, i, n)
      | ScanBad n => (-1, out_sz, n)
      | ScanEob i n => (to_int i, i, n)
      end
  end.

(** ** parse_newline (lines 96-121) *)

(** Returns [(r, *out_sz)].  The second loop (lines 108-116) returns in its
    first iteration. *)
Definition parse_newline (buff : list ascii) (out_sz : Z) : Z * Z :=
  match buff with
  | [] => (-2, out_sz)
  | _ =>
      match skip_while is_space buff 0 with
      | (i, c :: _) => if is_newline c then (0, i + 1) else (-1, out_sz)
      | (i, []) => (to_int i, i)
      end
  end.

(** ** The output file of the decoder (descriptor 1) *)

(** What the next calls of [write] do instead of accepting the whole buffer. *)
Inductive write_fault :=
| WriteError               (* returns -1 *)
| WriteShort (n : nat).    (* accepts at most [n] bytes *)

(** System calls that took effect on the descriptor. *)
Inductive sink_op :=
| OpSeek (pos : Z)
| OpWrite (pos : Z) (data : list ascii).

Record sink := {
  out_seekable : bool;            (* false for a pipe or a terminal *)
  out_pos : Z;                    (* file offset of the descriptor *)
  out_size : Z;                   (* file size *)
  out_data : gmap Z ascii;        (* bytes written, by absolute offset; the rest are holes *)
  out_faults : list write_fault;  (* behaviour of the coming [write] calls *)
  out_trace : list sink_op        (* effects so far, oldest first *)
}.

Fixpoint store_bytes (pos : Z) (data : list ascii) (m : gmap Z ascii) : gmap Z ascii :=
  match data with
  | [] => m
  | c :: data' => store_bytes (pos + 1) data' (<[pos := c]> m)
  end.

Definition sink_put (data : list ascii) (faults : list write_fault) (s : sink) : sink :=
  {| out_seekable := out_seekable s;
     out_pos := out_pos s + Z.of_nat (length data);
     out_size := Z.max (out_size s) (out_pos s + Z.of_nat (length data));
     out_data := store_bytes (out_pos s) data (out_data s);
     out_faults := faults;
     out_trace := out_trace s ++ [OpWrite (out_pos s) data] |}.

Definition sink_set_faults (faults : list write_fault) (s : sink) : sink :=
  {| out_seekable := out_seekable s; out_pos := out_pos s; out_size := out_size s;
     out_data := out_data s; out_faults := faults; out_trace := out_trace s |}.

(** [write(1, buff, sz)] with [sz > 0]: the return value and the file after. *)
Definition sys_write (s : sink) (buff : list ascii) : Z * sink :=
  match out_faults s with
  | [] => (Z.of_nat (length buff), sink_put buff [] s)
  | WriteError :: faults => (-1, sink_set_faults faults s)
  | WriteShort n :: faults =>
      (Z.of_nat (length (take n buff)), sink_put (take n buff) faults s)
  end.

(** [lseek(1, offset, SEEK_SET)]: fails on a descriptor that cannot seek and on
    a negative offset. *)
Definition sys_lseek_set (s : sink) (off : Z) : Z * sink :=
  if out_seekable s && (0 <=? off) then
    (off,
     {| out_seekable := out_seekable s; out_pos := off; out_size := out_size s;
        out_data := out_data s; out_faults := out_faults s;
        out_trace := out_trace s ++ [OpSeek off] |})
  else (-1, s).

(** A fresh, empty regular file that accepts every write. *)
Definition empty_file : sink :=
  {| out_seekable := true; out_pos := 0; out_size := 0; out_data := ∅;
     out_faults := []; out_trace := [] |}.

(** ** do_meat (lines 126-150) *)

(** The [while (sz > 0)] loop; [buff] is what is left to write. *)
Fixpoint do_meat_loop (fuel : nat) (s : sink) (buff : list ascii) (written_bytes : Z)
  : option (Z * Z * sink) :=
  match buff with
  | [] => Some (to_int written_bytes, written_bytes, s)
  | _ =>
      match fuel with
      | O => None
      | S fuel' =>
          let '(r, s') := sys_write s buff in
          if r =? -1 then Some (-4, written_bytes, s')
          else do_meat_loop fuel' s' (drop (Z.to_nat r) buff) (written_bytes + r)
      end
  end.

(** Returns [(r, *out_sz, sink)]. *)
Definition do_meat (fuel : nat) (s : sink) (buff : list ascii) (out_sz : Z)
  : option (Z * Z * sink) :=
  match buff with
  | [] => Some (-2, out_sz, s)
  | _ => do_meat_loop fuel s buff 0
  end.

(** ** do_hole (lines 155-164) *)

Definition do_hole (s : sink) (off : Z) : Z * sink :=
  let '(r, s') := sys_lseek_set s off in
  if r =? -1 then (-1, s') else (0, s').

(** ** parse_ursparse (lines 192-308) *)

(** The result of one call: [(r, *out_sz, *data, sink)]. *)
Definition parse_result : Type := Z * Z * ursparse_state_data * sink.

(** [case PARSE_MEAT] (lines 275-300).  [sz > size ? size : sz] compares a
    [size_t] with an [off_t], hence in [size_t]. *)
Definition phase_meat (fuel : nat) (buff : list ascii) (extra_sz out_sz : Z)
    (d : ursparse_state_data) (s : sink) : option parse_result :=
  let sz := Z.of_nat (length buff) in
  let usize := to_size (size (ursparse_of d)) in
  let n := if usize <? sz then usize else sz in
  '(r, out_sz, s) ← do_meat fuel s (take (Z.to_nat n) buff) out_sz;
  if r <? 0 then Some (r, out_sz, set_state PARSE_ERROR d, s)
  else if usize <? out_sz then Some (-7, out_sz, set_state PARSE_ERROR d, s)
  else
    let d := set_size (to_off (usize - out_sz)) d in
    let out_sz := out_sz + extra_sz in
    if size (ursparse_of d) =? 0 then Some (0, out_sz, zeroed, s)
    else Some (to_int out_sz, out_sz, d, s).

(** [case PARSE_NEWLINE] (lines 247-273), falling through to the payload. *)
Definition phase_newline (fuel : nat) (buff : list ascii) (extra_sz out_sz : Z)
    (d : ursparse_state_data) (s : sink) : option parse_result :=
  let '(r, out_sz) := parse_newline buff out_sz in
  if r <? 0 then Some (r, out_sz, set_state PARSE_ERROR d, s)
  else
    let buff := drop (Z.to_nat out_sz) buff in
    let extra_sz := extra_sz + out_sz in
    if 0 <? r then Some (to_int out_sz, out_sz, d, s)
    else
      let '(r, s) := do_hole s (offset (ursparse_of d)) in
      if r <? 0 then Some (-8, out_sz, set_state PARSE_ERROR d, s)
      else phase_meat fuel buff extra_sz out_sz (set_state PARSE_MEAT d) s.

(** [case PARSE_SIZE] (lines 227-245), falling through. *)
Definition phase_size (fuel : nat) (buff : list ascii) (extra_sz out_sz : Z)
    (d : ursparse_state_data) (s : sink) : option parse_result :=
  let '(r, out_sz, n) := parse_uint buff out_sz (size (ursparse_of d)) in
  let d := set_size n d in
  if r <? 0 then Some (r, out_sz, set_state PARSE_ERROR d, s)
  else
    let buff := drop (Z.to_nat out_sz) buff in
    let extra_sz := extra_sz + out_sz in
    if 0 <? r then Some (to_int out_sz, out_sz, d, s)
    else phase_newline fuel buff extra_sz out_sz (set_state PARSE_NEWLINE d) s.

(** [case PARSE_OFFSET] (lines 208-225), falling through. *)
Definition phase_offset (fuel : nat) (buff : list ascii) (extra_sz out_sz : Z)
    (d : ursparse_state_data) (s : sink) : option parse_result :=
  let '(r, out_sz, n) := parse_uint buff out_sz (offset (ursparse_of d)) in
  let d := set_offset n d in
  if r <? 0 then Some (r, out_sz, set_state PARSE_ERROR d, s)
  else
    let buff := drop (Z.to_nat out_sz) buff in
    let extra_sz := extra_sz + out_sz in
    if 0 <? r then Some (to_int out_sz, out_sz, d, s)
    else phase_size fuel buff extra_sz out_sz (set_state PARSE_SIZE d) s.

Definition parse_ursparse (fuel : nat) (buff : list ascii) (out_sz : Z)
    (d : ursparse_state_data) (s : sink) : option parse_result :=
  match buff with
  | [] => Some (-2, out_sz, d, s)
  | _ =>
      match state d with
      | PARSE_START => phase_offset fuel buff 0 out_sz (set_state PARSE_OFFSET d) s
      | PARSE_OFFSET => phase_offset fuel buff 0 out_sz d s
      | PARSE_SIZE => phase_size fuel buff 0 out_sz d s
      | PARSE_NEWLINE => phase_newline fuel buff 0 out_sz d s
      | PARSE_MEAT => phase_meat fuel buff 0 out_sz d s
      | PARSE_ERROR => Some (-5, out_sz, d, s)
      end
  end.

(** ** The input file of the decoder and do_ursparse (lines 310-354) *)

(** What the next calls of [read] do instead of filling the whole block. *)
Inductive read_fault :=
| ReadError              (* returns -1 *)
| ReadShort (n : nat).   (* delivers at most [n] bytes *)

Record in_file := {
  in_seekable : bool;           (* false for a pipe or a terminal *)
  in_bytes : list ascii;        (* the content of the file *)
  in_pos : nat;                 (* file offset of the descriptor *)
  in_faults : list read_fault   (* behaviour of the coming [read] calls *)
}.

(** [lseek(fd_in, 0, SEEK_SET)] *)
Definition in_rewind (f : in_file) : Z * in_file :=
  if in_seekable f then
    (0, {| in_seekable := true; in_bytes := in_bytes f; in_pos := 0;
           in_faults := in_faults f |})
  else (-1, f).

Definition in_take (n : nat) (faults : list read_fault) (f : in_file)
  : Z * list ascii * in_file :=
  let block := take n (drop (in_pos f) (in_bytes f)) in
  (Z.of_nat (length block), block,
   {| in_seekable := in_seekable f; in_bytes := in_bytes f;
      in_pos := (in_pos f + length block)%nat; in_faults := faults |}).

(** [read(fd_in, read_buff, blk_sz)]: the return value, the bytes placed in
    the buffer and the file after. *)
Definition sys_read (f : in_file) (blk_sz : Z) : Z * list ascii * in_file :=
  match in_faults f with
  | [] => in_take (Z.to_nat blk_sz) [] f
  | ReadError :: faults =>
      (-1, [], {| in_seekable := in_seekable f; in_bytes := in_bytes f;
                  in_pos := in_pos f; in_faults := faults |})
  | ReadShort n :: faults => in_take (Nat.min n (Z.to_nat blk_sz)) faults f
  end.

(** A regular file holding [content], read in full blocks. *)
Definition file_of (content : list ascii) : in_file :=
  {| in_seekable := true; in_bytes := content; in_pos := 0%nat; in_faults := [] |}.

(** How a loop body is left: on to the next iteration, or out of the function. *)
Inductive ctl :=
| Next
| Return (code : Z).

(** The [for (cursor = 0; cursor < nbytes; )] loop over one block
    (lines 338-349); [n] bounds its iterations. *)
Fixpoint feed_block (fuel n : nat) (block : list ascii) (cursor : Z)
    (d : ursparse_state_data) (s : sink) : option (ctl * ursparse_state_data * sink) :=
  if cursor <? Z.of_nat (length block) then
    match n with
    | O => None
    | S n' =>
        '(r, out_sz, d, s) ← parse_ursparse fuel (drop (Z.to_nat cursor) block) 0 d s;
        if r <? 0 then Some (Return 4, d, s)
        else feed_block fuel n' block (cursor + out_sz) d s
    end
  else Some (Next, d, s).

(** The [while (1)] loop (lines 327-350); [n] bounds its iterations.  The
    decoder state at the exit is returned next to the exit code. *)
Fixpoint read_loop (fuel n : nat) (f : in_file) (blk_sz : Z)
    (d : ursparse_state_data) (s : sink)
  : option (Z * in_file * ursparse_state_data * sink) :=
  match n with
  | O => None
  | S n' =>
      let '(nbytes, block, f) := sys_read f blk_sz in
      if nbytes =? -1 then Some (3, f, d, s)
      else if nbytes =? 0 then Some (0, f, d, s)
      else
        '(c, d, s) ← feed_block fuel fuel block 0 d s;
        match c with
        | Return code => Some (code, f, d, s)
        | Next => read_loop fuel n' f blk_sz d s
        end
  end.

(** [malloc_ok] tells whether [malloc(blk_sz)] succeeds.  The [fd_out]
    argument of the source is not used by it: the payload goes to
    descriptor 1, the [sink]. *)
Definition do_ursparse (fuel : nat) (malloc_ok : bool) (fd_in : in_file) (fd_out : sink)
    (blk_sz : Z) : option (Z * in_file * sink) :=
  let '(r, fd_in) := in_rewind fd_in in
  if r =? -1 then Some (1, fd_in, fd_out)
  else if negb malloc_ok then Some (2, fd_in, fd_out)
  else
    '(code, fd_in, _, fd_out) ← read_loop fuel fuel fd_in blk_sz zeroed fd_out;
    Some (code, fd_in, fd_out).

(** ** The encoder: do_sparse_copy_data, do_sparse_data, do_sparse (lines 356-426) *)

Inductive errno :=
| ENXIO
| EOTHER.   (* any other error number *)

(** The sparse input file as the encoder sees it: the answers of
    [lseek(fd_in, off, SEEK_DATA)] and [lseek(fd_in, off, SEEK_HOLE)], each a
    return value with the error number left on failure (the source reads it
    only after a return of -1), and the content. *)
Record source := {
  src_seekable : bool;
  src_bytes : list ascii;
  src_seek_data : Z -> Z * errno;
  src_seek_hole : Z -> Z * errno
}.

(** What the next calls of [copy_file_range] do instead of copying all that
    was asked for. *)
Inductive copy_fault :=
| CopyError              (* returns -1 *)
| CopyShort (n : nat).   (* copies at most [n] bytes *)

(** The output descriptor of the encoder: a byte stream. *)
Record out_stream := {
  os_bytes : list ascii;            (* everything written so far *)
  os_writable : bool;               (* whether [dprintf] succeeds *)
  os_faults : list copy_fault       (* behaviour of the coming [copy_file_range] calls *)
}.

Definition os_append (data : list ascii) (faults : list copy_fault) (o : out_stream)
  : out_stream :=
  {| os_bytes := os_bytes o ++ data; os_writable := os_writable o; os_faults := faults |}.

(** [%ld] *)
Definition print_ld (z : Z) : list ascii :=
  bytes (NilZero.string_of_int (Z.to_int z)).

(** The text printed by ["%ld %ld\n"]. *)
Definition header_line (start sz : Z) : list ascii :=
  print_ld start ++ SP :: print_ld (to_off sz) ++ [NL].

(** [dprintf(fd_out, "%ld %ld\n", start, sz)]: the number of characters
    printed, or a negative value. *)
Definition sys_dprintf (o : out_stream) (start sz : Z) : Z * out_stream :=
  if os_writable o then
    (Z.of_nat (length (header_line start sz)),
     os_append (header_line start sz) (os_faults o) o)
  else (-1, o).

(** [copy_file_range(fd_in, &start, fd_out, 0, sz, 0)]: copies bytes of the
    input from offset [start], up to [sz] of them and not past the end. *)
Definition sys_copy_file_range (src : source) (o : out_stream) (start sz : Z)
  : Z * out_stream :=
  let avail := take (Z.to_nat sz) (drop (Z.to_nat start) (src_bytes src)) in
  match os_faults o with
  | [] => (Z.of_nat (length avail), os_append avail [] o)
  | CopyError :: faults => (-1, os_append [] faults o)
  | CopyShort n :: faults =>
      (Z.of_nat (length (take n avail)), os_append (take n avail) faults o)
  end.

Definition do_sparse_copy_data (src : source) (o : out_stream) (start sz : Z)
  : Z * out_stream :=
  let '(r, o) := sys_copy_file_range src o start sz in
  if r =? -1 then (-1, o) else (to_int r, o).

Definition do_sparse_data (src : source) (o : out_stream) (start sz : Z)
  : Z * out_stream :=
  let '(n, o) := sys_dprintf o start sz in
  if n <? 4 then (-1, o)
  else
    let '(r, o) := do_sparse_copy_data src o start sz in
    if r =? -1 then (-1, o) else (0, o).

(** How the [while (1)] loop of [do_sparse] is left. *)
Inductive scan_exit :=
| Break (start end_ : Z)   (* lines 394 and 405 *)
| Exit (code : Z).         (* lines 397, 408 and 413 *)

(** The loop of lines 389-416; [end - start] is passed as a [size_t]. *)
Fixpoint do_sparse_loop (fuel : nat) (src : source) (o : out_stream) (start end_ : Z)
  : option (scan_exit * out_stream) :=
  match fuel with
  | O => None
  | S fuel' =>
      let '(start, e) := src_seek_data src start in
      if start =? -1 then
        match e with
        | ENXIO => Some (Break start end_, o)
        | _ => Some (Exit 1, o)
        end
      else
        let '(end_, e) := src_seek_hole src start in
        if end_ =? -1 then
          match e with
          | ENXIO => Some (Break start end_, o)
          | _ => Some (Exit 1, o)
          end
        else
          let '(r, o) := do_sparse_data src o start (to_size (end_ - start)) in
          if negb (r =? 0) then Some (Exit 2, o)
          else do_sparse_loop fuel' src o end_ end_
  end.

(** The arguments [blk_sz] and [hole_byte] of the source are passed along
    and never read; they are left out here and in [do_sparse_data]. *)
Definition do_sparse (fuel : nat) (src : source) (o : out_stream)
  : option (Z * out_stream) :=
  if negb (src_seekable src) then Some (1, o)
  else
    '(x, o) ← do_sparse_loop fuel src o 0 0;
    match x with
    | Exit code => Some (code, o)
    | Break start end_ =>
        if negb (start =? -1) && negb (end_ =? -1) then
          let '(r, o) := do_sparse_data src o start (to_size (end_ - start)) in
          if negb (r =? 0) then Some (3, o) else Some (0, o)
        else Some (0, o)
    end.

(** ** do_map (lines 428-466) *)

(** The same walk as [do_sparse], printing ["%ld %ld\n"] of [start] and
    [end - start] (an [off_t]) on standard output, here the text printed so
    far; the result of [printf] is not looked at. *)
Fixpoint do_map_loop (fuel : nat) (src : source) (out : list ascii) (start end_ : Z)
  : option (scan_exit * list ascii) :=
  match fuel with
  | O => None
  | S fuel' =>
      let '(start, e) := src_seek_data src start in
      if start =? -1 then
        match e with
        | ENXIO => Some (Break start end_, out)
        | _ => Some (Exit 1, out)
        end
      else
        let '(end_, e) := src_seek_hole src start in
        if end_ =? -1 then
          match e with
          | ENXIO => Some (Break start end_, out)
          | _ => Some (Exit 1, out)
          end
        else do_map_loop fuel' src (out ++ header_line start (end_ - start)) end_ end_
  end.

Definition do_map (fuel : nat) (src : source) (out : list ascii)
  : option (Z * list ascii) :=
  if negb (src_seekable src) then Some (1, out)
  else
    '(x, out) ← do_map_loop fuel src out 0 0;
    match x with
    | Exit code => Some (code, out)
    | Break start end_ =>
        if negb (start =? -1) && negb (end_ =? -1) then
          Some (0, out ++ header_line start (end_ - start))
        else Some (0, out)
    end.

(** *** An input file with the extent map of a Linux file system

    [extents] lists the data extents [(a, b)], meaning bytes [a <= i < b], in
    increasing order; everything else up to the end of the file is a hole.
    [SEEK_HOLE] treats the end of the file as a hole; both calls fail with
    [ENXIO] at or past the end of the file. *)
Fixpoint next_data (extents : list (Z * Z)) (off : Z) : option Z :=
  match extents with
  | [] => None
  | (a, b) :: extents' => if off <? b then Some (Z.max off a) else next_data extents' off
  end.

Fixpoint next_hole (extents : list (Z * Z)) (off : Z) : Z :=
  match extents with
  | [] => off
  | (a, b) :: extents' =>
      if off <? a then off else if off <? b then b else next_hole extents' off
  end.

Definition linux_file (content : list ascii) (extents : list (Z * Z)) : source :=
  let fsize := Z.of_nat (length content) in
  {| src_seekable := true;
     src_bytes := content;
     src_seek_data := fun off =>
       if (off <? 0) || (fsize <=? off) then (-1, ENXIO)
       else match next_data extents off with
            | Some p => (p, ENXIO)
            | None => (-1, ENXIO)
            end;
     src_seek_hole := fun off =>
       if (off <? 0) || (fsize <=? off) then (-1, ENXIO)
       else (next_hole extents off, ENXIO) |}.

Definition empty_stream : out_stream :=
  {| os_bytes := []; os_writable := true; os_faults := [] |}.

(** ** byte_from_char, byte_from_hex (lines 496-512) *)

(** [char] may be signed; a code above 127 fails every test either way. *)
Definition byte_from_char (a : ascii) : Z :=
  let a := char_code a in
  if (48 <=? a) && (a <=? 57) then a - 48
  else if (97 <=? a) && (a <=? 102) then a - 97
  else if (65 <=? a) && (a <=? 70) then a - 70
  else -1.

(** Returns [(r, *byte)]; [*byte] is an [unsigned char]. *)
Definition byte_from_hex (a b : ascii) (byte : Z) : Z * Z :=
  let xa := byte_from_char a in
  let xb := byte_from_char b in
  if (xa =? -1) || (xb =? -1) then (-1, byte)
  else (0, Z.lor (Z.shiftl (Z.land xa 15) 4) (Z.land xb 15) mod 256).

(** ** main (lines 514-580) *)

Inductive actions :=
| NONE
| USAGE
| MAP
| URSPARSE
| SPARSE
| SPARSE_XX.

Definition NUL : ascii := "000"%char.

(** A command-line argument is the list of its characters before the
    terminating NUL.  [argv[i][k]] is a character of the argument, the NUL
    at [k = length], and nothing ([None]) past it, where the read is outside
    the string. *)
Definition arg_at (arg : list ascii) (k : nat) : option ascii :=
  match arg !! k with
  | Some c => Some c
  | None => if (k =? length arg)%nat then Some NUL else None
  end.

(** [!strcmp(lit, s)] *)
Definition str_eq (lit : string) (s : list ascii) : bool :=
  if List.list_eq_dec ascii_dec (bytes lit) s then true else false.

(** [isspace] in the C locale. *)
Definition isspace (c : ascii) : bool :=
  (char_code c =? 32) || ((9 <=? char_code c) && (char_code c <=? 13)).

Fixpoint atoi_digits (s : list ascii) (n : Z) : Z :=
  match s with
  | c :: s' => if is_digit c then atoi_digits s' (n * 10 + (char_code c - 48)) else n
  | [] => n
  end.

(** [atoi], that is [strtol] in base 10 narrowed to [int]: white space, an
    optional sign, then digits up to the first other character; 0 when no
    digit is there. *)
Definition atoi (s : list ascii) : Z :=
  let s := snd (skip_while isspace s 0) in
  let '(neg, s) :=
    match s with
    | c :: s' =>
        if char_code c =? 45 then (true, s')
        else if char_code c =? 43 then (false, s')
        else (false, s)
    | [] => (false, s)
    end in
  let v := atoi_digits s 0 in
  to_int (Z.max (- 2 ^ 63) (Z.min (2 ^ 63 - 1) (if neg then - v else v))).

(** The local variables of [main]. *)
Record options := { action : actions; hole_byte : Z; block_size : Z }.

(** How one iteration of the loop over the arguments ends. *)
Inductive arg_exit :=
| NextArg                  (* no option recognised *)
| BreakLoop (o : options)  (* [break] *)
| ReturnCode (code : Z).   (* lines 540-541, after [usage] *)

(** [argv[i][1] == c && argv[i][k] == 0] *)
Definition short_option (arg : list ascii) (c : ascii) (k : nat) : option bool :=
  c1 ← arg_at arg 1;
  if (c1 =? c)%char then
    ck ← arg_at arg k; Some (ck =? NUL)%char
  else Some false.

(** The body of the loop (lines 522-550). *)
Definition scan_arg (arg : list ascii) (o : options) : option arg_exit :=
  let pick a :=
    Some (BreakLoop {| action := a; hole_byte := hole_byte o;
                       block_size := block_size o |}) in
  let resize n :=
    Some (BreakLoop {| action := action o; hole_byte := hole_byte o;
                       block_size := n |}) in
  c0 ← arg_at arg 0;
  if (c0 =? "-")%char then
    c1 ← arg_at arg 1;
    if (c1 =? "-")%char then
      if str_eq "help" (drop 2 arg) then pick USAGE
      else if str_eq "map" (drop 2 arg) then pick MAP
      else if str_eq "ursparse" (drop 2 arg) then pick URSPARSE
      else if str_eq "sparse" (drop 2 arg) then pick SPARSE
      else if str_eq "blocksize=" (drop 2 arg) then resize (atoi (drop 11 arg))
      else Some NextArg
    else
      h ← short_option arg "h" 2;
      if h : bool then pick USAGE else
      m ← short_option arg "m" 2;
      if m : bool then pick MAP else
      u ← short_option arg "u" 2;
      if u : bool then pick URSPARSE else
      s ← short_option arg "s" 2;
      if s : bool then pick SPARSE else
      sxx ← short_option arg "s" 4;
      if sxx : bool then
        a ← arg_at arg 2;
        b ← arg_at arg 3;
        let '(r, byte) := byte_from_hex a b (hole_byte o) in
        if negb (r =? 0) then Some (ReturnCode 2)
        else Some (BreakLoop {| action := SPARSE_XX; hole_byte := byte;
                                block_size := block_size o |})
      else if (c1 =? "b")%char then resize (atoi (drop 1 arg))
      else Some NextArg
  else Some NextArg.

(** The loop of lines 521-551 over [argv[1]] and what follows: the options
    at its exit, or the code [main] returns from inside it. *)
Fixpoint scan_args (args : list (list ascii)) (o : options) : option (options + Z) :=
  match args with
  | [] => Some (inl o)
  | arg :: args' =>
      x ← scan_arg arg o;
      match x with
      | NextArg => scan_args args' o
      | BreakLoop o' => Some (inl o')
      | ReturnCode code => Some (inr code)
      end
  end.

(** The function [main] hands over to, on descriptors 0 and 1. *)
Inductive worker :=
| DoUsage                                        (* [usage(argv[0])], which returns 0 *)
| DoMap
| DoUrsparse (blk_sz : Z)
| DoSparse (blk_sz : Z) (hole : option Z).       (* [hole_byte], or a null pointer *)

Inductive outcome :=
| Exits (code : Z)
| Runs (w : worker).       (* [return w(...)] *)

(** [None] when an argument is read outside its string. *)
Definition main (argv : list (list ascii)) : option outcome :=
  r ← scan_args (tail argv) {| action := URSPARSE; hole_byte := 0; block_size := 4096 |};
  match r with
  | inr code => Some (Exits code)
  | inl o =>
      if block_size o <? 2 then Some (Exits 3)
      else
        match action o with
        | USAGE => Some (Runs DoUsage)
        | MAP => Some (Runs DoMap)
        | URSPARSE => Some (Runs (DoUrsparse (to_size (block_size o))))
        | SPARSE => Some (Runs (DoSparse (to_size (block_size o)) None))
        | SPARSE_XX => Some (Runs (DoSparse (to_size (block_size o)) (Some (hole_byte o))))
        | NONE => Some (Exits 1)
        end
  end.

(** ** Vocabulary of the statements *)

(** A caller invoking the decoder once per buffer of [calls], each with its
    own initial [*out_sz], on the same decoder state and output file: the
    return codes in order, and the state and the file at the end. *)
Fixpoint parse_calls (fuel : nat) (calls : list (list ascii * Z))
    (d : ursparse_state_data) (s : sink)
  : option (list Z * ursparse_state_data * sink) :=
  match calls with
  | [] => Some ([], d, s)
  | (buff, out_sz) :: calls' =>
      '(r, _, d, s) ← parse_ursparse fuel buff out_sz d s;
      '(rs, d, s) ← parse_calls fuel calls' d s;
      Some (r :: rs, d, s)
  end.

(** The value the digit loop accumulates from [n] over the digits [ds]. *)
Definition uint_value (n : Z) (ds : list ascii) : Z := fold_left push_digit ds n.

Definition all_blank (l : list ascii) : Prop := forallb is_blank l = true.
Definition all_space (l : list ascii) : Prop := forallb is_space l = true.
Definition all_digit (l : list ascii) : Prop := forallb is_digit l = true.

(** A byte that no header field accepts. *)
Definition bad_byte (c : ascii) : Prop := is_digit c = false /\ is_blank c = false.

(** What stops a [skip_while]: the end of the buffer or a byte failing [p]. *)
Definition stops (p : ascii -> bool) (rest : list ascii) : Prop :=
  match rest with
  | [] => True
  | c :: _ => p c = false
  end.

(** The decoder state is zeroed only by the reset of line 296, which
    returns 0; every other exit leaves a state other than [PARSE_START]. *)
Definition reset_or_busy (r : Z) (d' : ursparse_state_data) : Prop :=
  r = 0 /\ d' = zeroed \/ state d' <> PARSE_START.

(** What a run of [do_ursparse] returns and what it leaves in the output. *)
Definition exit_code (res : option (Z * in_file * sink)) : option Z :=
  '(code, _, _) ← res; Some code.

Definition output_of (res : option (Z * in_file * sink)) : option sink :=
  '(_, _, s) ← res; Some s.

Definition all_zero (l : list ascii) : Prop :=
  forallb (fun c => char_code c =? 48) l = true.

(** A record header as the decoder reads it from its start state: blanks
    [ws1], the offset digits [ds1], a blank [b] and more blanks [ws2], the
    length digits [ds2], spaces [sp] and the newline. *)
Definition header (ws1 ds1 : list ascii) (b : ascii) (ws2 ds2 sp : list ascii)
  : list ascii :=
  ws1 ++ ds1 ++ b :: ws2 ++ ds2 ++ sp ++ [NL].

Definition header_fields (ws1 ds1 : list ascii) (b : ascii) (ws2 ds2 sp : list ascii)
  : Prop :=
  all_blank ws1 /\ all_digit ds1 /\ is_blank b = true
  /\ all_blank ws2 /\ all_digit ds2 /\ ds2 <> [] /\ all_space sp.

Definition well_formed_header (ws1 ds1 : list ascii) (b : ascii) (ws2 ds2 sp : list ascii)
  : Prop :=
  header_fields ws1 ds1 b ws2 ds2 sp /\ ds1 <> [].

(** A field parser called with the accumulator [n] meets the blanks [ws] and
    then the digits [ds]: leading blanks are skipped on a zero accumulator
    only, and after them a digit has to come before the terminator. *)
Definition starts_field (n : Z) (ws ds : list ascii) : Prop :=
  n = 0 /\ ds <> [] \/ n <> 0 /\ ws = [].

(** The decoder state with the given fields. *)
Definition in_segment (off sz : Z) (st : ursparse_state) : ursparse_state_data :=
  {| ursparse_of := {| offset := off; size := sz |}; state := st |}.

(** A regular file read to its end. *)
Definition file_at_end (content : list ascii) : in_file :=
  {| in_seekable := true; in_bytes := content; in_pos := length content;
     in_faults := [] |}.

(** The states in which the decoder reads a header field. *)
Definition header_state (st : ursparse_state) : Prop :=
  st = PARSE_START \/ st = PARSE_OFFSET \/ st = PARSE_SIZE \/ st = PARSE_NEWLINE.

(** A call that asks for more input while still inside the header. *)
Definition wants_header (res : option parse_result) : Prop :=
  exists r o d' s', res = Some (r, o, d', s') /\ 0 < r /\ header_state (state d').

(** The byte that follows the bytes [pre] of a buffer is a header byte for
    the decoder in state [d]: the decoder reads a header field, and either
    [pre] is empty or a call on [pre] alone (with [*out_sz] cleared, as
    [do_ursparse] calls it) asks for more input inside the header. *)
Definition awaits_header_byte (fuel : nat) (pre : list ascii)
    (d : ursparse_state_data) (s : sink) : Prop :=
  header_state (state d)
  /\ (pre = [] \/ wants_header (parse_ursparse fuel pre 0 d s)).

(** *** Sample data *)

(** A decoder that failed while a segment was in progress. *)
Definition locked : ursparse_state_data :=
  {| ursparse_of := {| offset := 10; size := 5 |}; state := PARSE_ERROR |}.

(** The stream of one record: offset 10, length 5, payload [ABCDE]. *)
Definition record_10_5 : list ascii := bytes "10 5" ++ NL :: bytes "ABCDE".

(** The destination after that record: fifteen bytes, of which the first ten
    were never written. *)
Definition file_10_5 : sink :=
  {| out_seekable := true; out_pos := 15; out_size := 15;
     out_data := store_bytes 10 (bytes "ABCDE") ∅;
     out_faults := [];
     out_trace := [OpSeek 10; OpWrite 10 (bytes "ABCDE")] |}.

(** A regular file whose first [read] stops after [k] bytes. *)
Definition split_at (k : nat) (content : list ascii) : in_file :=
  {| in_seekable := true; in_bytes := content; in_pos := 0%nat;
     in_faults := [ReadShort k] |}.

(** Standard input connected to a pipe. *)
Definition pipe_of (content : list ascii) : in_file :=
  {| in_seekable := false; in_bytes := content; in_pos := 0%nat; in_faults := [] |}.

(** A regular file holding [content] whose descriptor stands at offset [k]. *)
Definition file_from (k : nat) (content : list ascii) : in_file :=
  {| in_seekable := true; in_bytes := content; in_pos := k; in_faults := [] |}.

(** A stream of 4097 bytes: a record of 4086 bytes at offset 0, then the
    record ["5 0\n"] of length zero.  Read in blocks of 4096 bytes, the first
    block ends right after the length digit of the second header. *)
Definition zero_length_stream : list ascii :=
  bytes "0 4086" ++ NL :: repeat "p"%char 4086 ++ bytes "5 0" ++ [NL].

(** A stream of 4103 bytes: a record of 4086 bytes at offset 0, the record
    ["1 1\nA"], and then a header whose first byte is [x].  Read in blocks of
    4096 bytes, the first block ends right after the length digit of the
    second header. *)
Definition bad_header_stream : list ascii :=
  bytes "0 4086" ++ NL :: repeat "p"%char 4086
  ++ bytes "1 1" ++ NL :: bytes "Ax 1" ++ NL :: bytes "B".

(** An output on which the first [copy_file_range] stops after two bytes. *)
Definition short_copy_stream : out_stream :=
  {| os_bytes := []; os_writable := true; os_faults := [CopyShort 2] |}.

(** *** Vocabulary of the further properties *)

(** A fault script without write errors: every [write] accepts some bytes,
    possibly none. *)
Definition no_write_error (faults : list write_fault) : Prop :=
  Forall (fun f => f <> WriteError) faults.

(** A record of the transfer format: the destination offset and the
    payload. *)
Definition record : Type := Z * list ascii.

(** The bytes of a record as [do_sparse_data] writes them: the header line
    ["%ld %ld\n"] of the offset and the payload length, then the payload. *)
Definition encode_record (r : record) : list ascii :=
  header_line (fst r) (Z.of_nat (length (snd r))) ++ snd r.

Definition encode_records (rs : list record) : list ascii :=
  concat (map encode_record rs).

(** What decoding a record does to the output: a seek to the offset and one
    write of the payload. *)
Definition write_record (s : sink) (r : record) : sink :=
  sink_put (snd r) [] (snd (sys_lseek_set s (fst r))).

(** The records the decoder takes in one call each: an offset that an
    [off_t] holds, a payload that is not empty and no longer than [INT_MAX]. *)
Definition decodable (r : record) : Prop :=
  0 <= fst r < 2 ^ 63 /\ snd r <> [] /\ Z.of_nat (length (snd r)) <= INT_MAX.

(** Data extents [(a, b)] of a file of [fsize] bytes, from offset [lo] on:
    in increasing order, none empty, a hole between any two. *)
Fixpoint extents_from (lo fsize : Z) (extents : list (Z * Z)) : Prop :=
  match extents with
  | [] => True
  | (a, b) :: extents' =>
      lo <= a /\ a < b /\ b <= fsize /\ extents_from (b + 1) fsize extents'
  end.

(** The state of the walk of [do_sparse] and [do_map]: the extents [done] lie before [start], the extents
    [todo] from [start] on. *)
Definition walking (fsize start : Z) (done todo : list (Z * Z)) : Prop :=
  0 <= start
  /\ Forall (fun '(a, b) => a <= start /\ b <= start) done
  /\ extents_from start fsize todo.

(** The record of each extent: its start and its bytes. *)
Definition records_of (content : list ascii) (extents : list (Z * Z)) : list record :=
  map (fun '(a, b) => (a, take (Z.to_nat (b - a)) (drop (Z.to_nat a) content))) extents.

(** The line [do_map] prints for each extent. *)
Definition map_lines (extents : list (Z * Z)) : list ascii :=
  concat (map (fun '(a, b) => header_line a (b - a)) extents).

(** No extent is longer than [INT_MAX] bytes. *)
Definition short_extents (extents : list (Z * Z)) : Prop :=
  Forall (fun '(a, b) => b - a <= INT_MAX) extents.

(** Whether offset [i] lies in one of the extents. *)
Definition covered (extents : list (Z * Z)) (i : Z) : bool :=
  existsb (fun '(a, b) => (a <=? i) && (i <? b)) extents.

(** The end of the last extent; [d] when there is none. *)
Fixpoint data_end (extents : list (Z * Z)) (d : Z) : Z :=
  match extents with
  | [] => d
  | (_, b) :: extents' => data_end extents' b
  end.

(** A file of ten bytes with data at offsets 0-1 and 6-7, and its extents. *)
Definition holey_content : list ascii := bytes "ab----cd--".
Definition holey_extents : list (Z * Z) := [(0, 2); (6, 8)].

(** Standard output connected to a pipe. *)
Definition pipe_output : sink :=
  {| out_seekable := false; out_pos := 0; out_size := 0; out_data := ∅;
     out_faults := []; out_trace := [] |}.

(** An output on which the first [copy_file_range] fails. *)
Definition failing_copy_stream : out_stream :=
  {| os_bytes := []; os_writable := true; os_faults := [CopyError] |}.

(** One step of reading a decimal numeral, without the wrap-around of
    [push_digit]. *)
Definition plain_digit (n : Z) (c : ascii) : Z := n * 10 + (char_code c - 48).

(** A file on which the first [write] stops after two bytes and the second
    fails. *)
Definition flaky_file : sink :=
  {| out_seekable := true; out_pos := 10; out_size := 0; out_data := ∅;
     out_faults := [WriteShort 2; WriteError]; out_trace := [] |}.

(** A file on which the first four [write] calls accept 0, 2, 0 and 1 bytes. *)
Definition slow_file : sink :=
  {| out_seekable := true; out_pos := 10; out_size := 0; out_data := ∅;
     out_faults := [WriteShort 0; WriteShort 2; WriteShort 0; WriteShort 1];
     out_trace := [] |}.

(** The characters [byte_from_hex] takes for a hexadecimal digit: [0]-[9],
    [a]-[f], [A]-[D] and [F]. *)
Definition hex_accepted (c : ascii) : bool :=
  is_digit c
  || ((97 <=? char_code c) && (char_code c <=? 102))
  || ((65 <=? char_code c) && (char_code c <=? 68))
  || (char_code c =? 70).

(** The block size a worker is called with, if it takes one. *)
Definition worker_block_size (w : worker) : option Z :=
  match w with
  | DoUrsparse blk_sz | DoSparse blk_sz _ => Some blk_sz
  | _ => None
  end.

(** An argument that does not start with [-]. *)
Definition plain_arg (arg : list ascii) : Prop := head arg <> Some "-"%char.

(** * Properties *)

(** Settle a boolean comparison of integers by arithmetic. *)
Ltac cmp_false e :=
  replace e with false
    by (symmetry; first [apply Z.ltb_ge | apply Z.eqb_neq | apply Z.leb_gt]; lia).

Ltac cmp_true e :=
  replace e with true
    by (symmetry; first [apply Z.ltb_lt | apply Z.eqb_eq | apply Z.leb_le]; lia).

(** ** Integer conversions *)

Lemma to_int_small z : - 2 ^ 31 <= z < 2 ^ 31 -> to_int z = z.
Proof.
  intros Hz. unfold to_int, wrap_signed.
  change (2 ^ (32 - 1)) with (2 ^ 31). change (2 ^ 32) with (2 * 2 ^ 31).
  rewrite Z.mod_small; lia.
Qed.

Lemma to_off_small z : - 2 ^ 63 <= z < 2 ^ 63 -> to_off z = z.
Proof.
  intros Hz. unfold to_off, wrap_signed.
  change (2 ^ (64 - 1)) with (2 ^ 63). change (2 ^ 64) with (2 * 2 ^ 63).
  rewrite Z.mod_small; lia.
Qed.

Lemma to_size_small z : 0 <= z < 2 ^ 64 -> to_size z = z.
Proof. intros Hz. unfold to_size. apply Z.mod_small; lia. Qed.

(** ** The scanning loops *)

Lemma digit_not_blank c : is_digit c = true -> is_blank c = false.
Proof.
  unfold is_digit, is_blank, is_space, is_newline. intros H.
  apply andb_true_iff in H as [H1 H2]. apply Z.leb_le in H1.
  apply orb_false_iff. split; apply Z.eqb_neq; lia.
Qed.

Lemma space_is_blank c : is_space c = true -> is_blank c = true.
Proof. unfold is_blank. intros ->. reflexivity. Qed.

Lemma newline_is_blank c : is_newline c = true -> is_blank c = true.
Proof. unfold is_blank. intros ->. apply orb_true_r. Qed.

Lemma skip_while_app p ws rest i :
  forallb p ws = true -> stops p rest ->
  skip_while p (ws ++ rest) i = (i + Z.of_nat (length ws), rest).
Proof.
  revert i. induction ws as [|w ws IH]; intros i Hws Hrest; simpl in *.
  - rewrite Z.add_0_r.
    destruct rest as [|c rest]; simpl in *; [reflexivity | now rewrite Hrest].
  - apply andb_true_iff in Hws as [-> Hws]. rewrite IH by assumption.
    f_equal. lia.
Qed.

Lemma skip_while_inv p l i j rest :
  skip_while p l i = (j, rest) ->
  exists ws, l = ws ++ rest /\ forallb p ws = true /\ stops p rest
             /\ j = i + Z.of_nat (length ws).
Proof.
  revert i. induction l as [|c l IH]; intros i H; simpl in H.
  - inversion H; subst. exists []. simpl. repeat split; lia.
  - destruct (p c) eqn:Hc.
    + destruct (IH _ H) as (ws & -> & Hws & Hst & ->).
      exists (c :: ws). simpl. rewrite Hc, Hws. repeat split; [assumption | lia].
    + inversion H; subst. exists []. simpl. repeat split; [assumption | lia].
Qed.

Lemma uint_loop_digits ds rest i n :
  all_digit ds ->
  uint_loop (ds ++ rest) i n = uint_loop rest (i + Z.of_nat (length ds)) (uint_value n ds).
Proof.
  unfold all_digit, uint_value.
  revert i n. induction ds as [|d ds IH]; intros i n Hds; simpl in *.
  - f_equal. lia.
  - apply andb_true_iff in Hds as [-> Hds]. rewrite IH by assumption.
    f_equal. lia.
Qed.

Lemma uint_loop_inv l i n :
  exists ds rest, l = ds ++ rest /\ all_digit ds /\ stops is_digit rest
    /\ uint_loop l i n = uint_loop rest (i + Z.of_nat (length ds)) (uint_value n ds).
Proof.
  revert i n. induction l as [|c l IH]; intros i n.
  - exists [], []. repeat split. simpl. f_equal. lia.
  - destruct (is_digit c) eqn:Hc.
    + destruct (IH (i + 1) (push_digit n c)) as (ds & rest & -> & Hds & Hst & Heq).
      exists (c :: ds), rest. repeat split; try assumption.
      * unfold all_digit in *. simpl. now rewrite Hc.
      * simpl. rewrite Hc, Heq. unfold uint_value. simpl. f_equal. lia.
    + exists [], (c :: l). repeat split; try assumption.
      unfold uint_value. simpl (fold_left _ _ _). f_equal. simpl. lia.
Qed.

Lemma blank_not_digit c : is_blank c = true -> is_digit c = false.
Proof.
  intros Hb. destruct (is_digit c) eqn:Hd; [|reflexivity].
  apply digit_not_blank in Hd. congruence.
Qed.

(** The scan of a field laid out as blanks, digits, and the rest: the blanks
    are skipped only by a call that starts with a zero accumulator, and the
    skip must stop where the digits start. *)
Lemma uint_scan_field ws ds rest n :
  all_blank ws -> all_digit ds ->
  (n = 0 /\ stops is_blank (ds ++ rest) \/ n <> 0 /\ ws = []) ->
  uint_scan (ws ++ ds ++ rest) n
  = uint_loop rest (Z.of_nat (length ws + length ds)) (uint_value n ds).
Proof.
  intros Hws Hds Hn. unfold uint_scan.
  destruct Hn as [[-> Hst] | [Hn ->]].
  - rewrite Z.eqb_refl, skip_while_app by assumption.
    rewrite uint_loop_digits by assumption. f_equal. lia.
  - apply Z.eqb_neq in Hn. rewrite Hn. simpl.
    rewrite uint_loop_digits by assumption. f_equal.
Qed.

(** A field that ends at the blank [t] inside the buffer. *)
Lemma parse_uint_field ws ds t rest out_sz n :
  all_blank ws -> all_digit ds -> is_blank t = true ->
  starts_field n ws ds ->
  parse_uint (ws ++ ds ++ t :: rest) out_sz n
  = (0, Z.of_nat (length ws + length ds), uint_value n ds).
Proof.
  intros Hws Hds Ht Hn. unfold parse_uint.
  destruct (ws ++ ds ++ t :: rest) eqn:Hbuf.
  { destruct ws, ds; discriminate. }
  rewrite <- Hbuf. rewrite uint_scan_field; try assumption.
  - simpl. rewrite (blank_not_digit t Ht), Ht. reflexivity.
  - destruct Hn as [[-> Hne] | [Hn ->]]; [left | right; split; trivial].
    split; [reflexivity|].
    destruct ds as [|d ds]; [contradiction|]. simpl.
    unfold all_digit in Hds. simpl in Hds.
    apply andb_true_iff in Hds as [Hd _]. now apply digit_not_blank.
Qed.

Lemma drop_field {A} (ws ds rest : list A) :
  drop (length ws + length ds) (ws ++ ds ++ rest) = rest.
Proof. rewrite app_assoc, drop_app_length'; [reflexivity|]. now rewrite length_app. Qed.

(** ** C5: what [parse_uint] reports when it reaches the terminator *)

(** C5, as stated, fails: on the two bytes ["5\n"] the field ends at the
    newline, and the call reports one byte consumed, not two. *)
Lemma parse_uint_terminator_not_counted :
  parse_uint [ "5"%char; NL ] 0 0 = (0, 1, 5)
  /\ parse_uint [ "5"%char; NL ] 0 0 <> (0, 2, 5).
Proof. split; [reflexivity | discriminate]. Qed.

(** C5, amended: when [parse_uint] reaches a terminating space or newline [t]
    after the digits [ds] of the field (after the leading blanks [ws] that
    only a call on a zero accumulator skips), it returns the done result 0
    with the accumulated value, and a bytes-consumed count equal to the
    number of bytes before the terminator: the terminator itself is not
    consumed and heads the remainder left for the next field parser. *)
Theorem parse_uint_done_before_terminator ws ds t rest out_sz n :
  all_blank ws -> all_digit ds -> is_blank t = true ->
  (n = 0 /\ ds <> [] \/ n <> 0 /\ ws = []) ->
  parse_uint (ws ++ ds ++ t :: rest) out_sz n
    = (0, Z.of_nat (length ws + length ds), uint_value n ds)
  /\ drop (length ws + length ds) (ws ++ ds ++ t :: rest) = t :: rest.
Proof.
  intros Hws Hds Ht Hn. split.
  - now apply parse_uint_field.
  - apply drop_field.
Qed.

Lemma parse_uint_done_before_terminator_witness :
  parse_uint (bytes "  42" ++ NL :: bytes "rest") 7 0 = (0, 4, 42)
  /\ drop 4 (bytes "  42" ++ NL :: bytes "rest") = NL :: bytes "rest".
Proof.
  apply (parse_uint_done_before_terminator (bytes "  ") (bytes "42") NL (bytes "rest") 7 0);
    try reflexivity.
  left. split; [reflexivity | discriminate].
Defined.

(** ** C6: the error state *)

(** Where a call that enters the payload phase leaves the decoder. *)
Lemma phase_meat_state fuel buff extra_sz out_sz d s r o d' s' :
  phase_meat fuel buff extra_sz out_sz d s = Some (r, o, d', s') ->
  r = 0 /\ d' = zeroed \/ r < 0 /\ state d' = PARSE_ERROR \/ state d' = state d.
Proof.
  unfold phase_meat. intros H.
  destruct (do_meat _ _ _ _) as [[[r1 o1] s1]|]; simpl in H; [|discriminate].
  destruct (r1 <? 0) eqn:Hr1.
  { apply Z.ltb_lt in Hr1. inversion H; subst; auto. }
  destruct (_ <? o1).
  { inversion H; subst. right; left. split; [lia | reflexivity]. }
  cbn [set_size ursparse_of size] in H.
  destruct (_ =? 0); inversion H; subst; auto.
Qed.

Lemma phase_meat_reset fuel buff extra_sz out_sz d s r o d' s' :
  state d <> PARSE_START ->
  phase_meat fuel buff extra_sz out_sz d s = Some (r, o, d', s') ->
  reset_or_busy r d'.
Proof.
  intros Hd H. apply phase_meat_state in H as [H | [[_ H] | H]].
  - now left.
  - right. congruence.
  - right. congruence.
Qed.

Lemma phase_newline_reset fuel buff extra_sz out_sz d s r o d' s' :
  state d <> PARSE_START ->
  phase_newline fuel buff extra_sz out_sz d s = Some (r, o, d', s') ->
  reset_or_busy r d'.
Proof.
  unfold phase_newline. intros Hd H.
  destruct (parse_newline buff out_sz) as [r1 o1].
  destruct (r1 <? 0); [inversion H; subst; right; discriminate|].
  destruct (0 <? r1); [inversion H; subst; now right|].
  destruct (do_hole s _) as [r2 s2].
  destruct (r2 <? 0); [inversion H; subst; right; discriminate|].
  apply phase_meat_reset in H; [assumption | discriminate].
Qed.

Lemma phase_size_reset fuel buff extra_sz out_sz d s r o d' s' :
  state d <> PARSE_START ->
  phase_size fuel buff extra_sz out_sz d s = Some (r, o, d', s') ->
  reset_or_busy r d'.
Proof.
  unfold phase_size. intros Hd H.
  destruct (parse_uint buff out_sz _) as [[r1 o1] n1].
  destruct (r1 <? 0); [inversion H; subst; right; discriminate|].
  destruct (0 <? r1); [inversion H; subst; now right|].
  apply phase_newline_reset in H; [assumption | discriminate].
Qed.

Lemma phase_offset_reset fuel buff extra_sz out_sz d s r o d' s' :
  state d <> PARSE_START ->
  phase_offset fuel buff extra_sz out_sz d s = Some (r, o, d', s') ->
  reset_or_busy r d'.
Proof.
  unfold phase_offset. intros Hd H.
  destruct (parse_uint buff out_sz _) as [[r1 o1] n1].
  destruct (r1 <? 0); [inversion H; subst; right; discriminate|].
  destruct (0 <? r1); [inversion H; subst; now right|].
  apply phase_size_reset in H; [assumption | discriminate].
Qed.

(** A call either leaves the decoder state as it was (the empty buffer and
    the error state), or resets it while returning 0, or leaves it busy. *)
Lemma parse_ursparse_reset fuel buff out_sz d s r o d' s' :
  parse_ursparse fuel buff out_sz d s = Some (r, o, d', s') ->
  r < 0 /\ d' = d \/ reset_or_busy r d'.
Proof.
  unfold parse_ursparse. intros H.
  destruct buff as [|c buff]; [inversion H; subst; left; split; [lia | reflexivity]|].
  destruct (state d) eqn:Hst.
  - inversion H; subst. left. split; [lia | reflexivity].
  - right. apply phase_offset_reset in H; [assumption | discriminate].
  - right. apply phase_offset_reset in H; [assumption | congruence].
  - right. apply phase_size_reset in H; [assumption | congruence].
  - right. apply phase_newline_reset in H; [assumption | congruence].
  - right. apply phase_meat_reset in H; [assumption | congruence].
Qed.

Lemma parse_ursparse_error fuel buff out_sz d s :
  state d = PARSE_ERROR ->
  parse_ursparse fuel buff out_sz d s
  = Some (match buff with [] => -2 | _ => -5 end, out_sz, d, s).
Proof. intros Hd. unfold parse_ursparse. rewrite Hd. now destruct buff. Qed.

(** C6: once the decoder state is [PARSE_ERROR], every call of
    [parse_ursparse] returns a negative code at once (-5, or -2 on an empty
    buffer) and leaves the bytes-consumed output, the decoder state and the
    output file exactly as they were, so the same holds for any sequence of
    further calls; and a call (from any state) changes the decoder state to
    [PARSE_START] only by the reset that goes with return code 0, the
    completion of a segment. *)
Theorem error_state_is_permanent fuel d s :
  state d = PARSE_ERROR ->
  (forall buff out_sz,
      parse_ursparse fuel buff out_sz d s
      = Some (match buff with [] => -2 | _ => -5 end, out_sz, d, s))
  /\ (forall calls,
      exists rs, parse_calls fuel calls d s = Some (rs, d, s)
                 /\ Forall (fun r => r < 0) rs /\ length rs = length calls)
  /\ (forall buff out_sz d0 s0 r o d' s',
      parse_ursparse fuel buff out_sz d0 s0 = Some (r, o, d', s') ->
      state d' = PARSE_START -> d' = d0 \/ r = 0 /\ d' = zeroed).
Proof.
  intros Hd. split; [|split].
  - intros buff out_sz. now apply parse_ursparse_error.
  - induction calls as [|[buff out_sz] calls IH]; simpl.
    + exists []. repeat split. constructor.
    + rewrite (parse_ursparse_error fuel buff out_sz d s Hd).
      destruct IH as (rs & IH & Hrs & Hlen). simpl. rewrite IH. simpl.
      eexists. repeat split; [|simpl; congruence].
      constructor; [destruct buff; lia | assumption].
  - intros buff out_sz d0 s0 r o d' s' H Hst.
    apply parse_ursparse_reset in H as [[_ H] | [H | H]]; auto. contradiction.
Qed.

Lemma error_state_is_permanent_witness :
  state locked = PARSE_ERROR
  /\ exists rs,
      parse_calls 1 [ (bytes "10 5", 0); ([], 3); (bytes "ABCDE", 0) ] locked empty_file
      = Some (rs, locked, empty_file)
      /\ Forall (fun r => r < 0) rs /\ length rs = 3%nat.
Proof.
  split; [reflexivity|].
  exact (proj1 (proj2 (error_state_is_permanent 1 locked empty_file eq_refl))
           [ (bytes "10 5", 0); ([], 3); (bytes "ABCDE", 0) ]).
Defined.

(** ** C8: the worked example *)

(** C8: the input ["10 5\nABCDE"] given to the decoder as one buffer is
    decoded with success: [parse_ursparse] returns 0 having consumed all ten
    bytes and reset its state, the only effects on the output are a seek to
    offset 10 and one write of the five bytes [ABCDE], and the destination
    ends 15 bytes long, with no byte at offsets 0 to 9 and [ABCDE] at offsets
    10 to 14.  [do_ursparse] on a file with that content and the default
    block size does the same and returns 0. *)
Theorem decode_record_10_5 fuel :
  parse_ursparse (S fuel) record_10_5 0 zeroed empty_file = Some (0, 10, zeroed, file_10_5)
  /\ do_ursparse (S (S fuel)) true (file_of record_10_5) empty_file 4096
     = Some (0, {| in_seekable := true; in_bytes := record_10_5; in_pos := 10;
                   in_faults := [] |}, file_10_5)
  /\ out_trace file_10_5 = [OpSeek 10; OpWrite 10 (bytes "ABCDE")]
  /\ out_size file_10_5 = 15
  /\ Forall (fun i => out_data file_10_5 !! i = None) (seqZ 0 10)
  /\ (fun i => out_data file_10_5 !! i) <$> seqZ 10 5 = Some <$> bytes "ABCDE".
Proof.
  split; [destruct fuel; vm_compute; reflexivity|].
  split; [vm_compute; reflexivity|].
  split; [reflexivity|].
  split; [reflexivity|].
  split; [vm_compute; repeat constructor | vm_compute; reflexivity].
Qed.

(** ** C1: chunk boundaries *)

(** C1 fails on the code.  The stream ["10 5\nABCDE"] decodes when read in
    one block, and when the first read stops after 1, 2 or 7 bytes; the run
    fails with exit code 4 when the first read stops after 3, 4 or 5 bytes,
    that is inside the header after the offset field, or right after the
    header.  Read in blocks of 2 bytes it decodes; in blocks of 1, 3, 4 or 5
    bytes the run fails. *)
Theorem split_after_offset_field_fails fuel :
  let run f := do_ursparse (8 + fuel) true f empty_file 4096 in
  let run_blocks blk_sz := do_ursparse (8 + fuel) true (file_of record_10_5) empty_file blk_sz in
  output_of (run (file_of record_10_5)) = Some file_10_5
  /\ exit_code (run (file_of record_10_5)) = Some 0
  /\ exit_code (run (split_at 1 record_10_5)) = Some 0
  /\ exit_code (run (split_at 2 record_10_5)) = Some 0
  /\ exit_code (run (split_at 3 record_10_5)) = Some 4
  /\ exit_code (run (split_at 4 record_10_5)) = Some 4
  /\ exit_code (run (split_at 5 record_10_5)) = Some 4
  /\ exit_code (run (split_at 7 record_10_5)) = Some 0
  /\ out_trace <$> output_of (run (split_at 5 record_10_5)) = Some [OpSeek 10]
  /\ exit_code (run_blocks 2) = Some 0
  /\ (exit_code <$> (run_blocks <$> [1; 3; 4; 5])) = [Some 4; Some 4; Some 4; Some 4].
Proof. vm_compute. repeat split. Qed.

(** Where each failure comes from.  Right after the header the payload phase
    is entered with an empty buffer, and [do_meat] answers -2: *)
Example header_then_end_of_buffer fuel :
  parse_ursparse fuel (bytes "10 5" ++ [NL]) 0 zeroed empty_file
  = Some (-2, 1, in_segment 10 5 PARSE_ERROR, snd (sys_lseek_set empty_file 10)).
Proof. destruct fuel; reflexivity. Qed.

(** A call that runs out of input in the size field has consumed the four
    bytes of ["10 5"] and reports the two of the size field only: *)
Example need_more_in_size_field fuel :
  parse_ursparse fuel (bytes "10 5") 0 zeroed empty_file
  = Some (2, 2, in_segment 10 5 PARSE_SIZE, empty_file).
Proof. reflexivity. Qed.

(** An offset of 0 split from its terminator: the resumed call takes the
    terminator for leading blanks and the length for the offset. *)
Example zero_offset_resumed fuel :
  parse_ursparse (S fuel) (bytes "0 5" ++ NL :: bytes "ABCDE") 0 zeroed empty_file
  = Some (0, 9, zeroed,
          sink_put (bytes "ABCDE") [] (snd (sys_lseek_set empty_file 0)))
  /\ parse_ursparse fuel (bytes "0") 0 zeroed empty_file
     = Some (1, 1, in_segment 0 0 PARSE_OFFSET, empty_file)
  /\ parse_ursparse fuel (bytes " 5" ++ NL :: bytes "ABCDE") 0
       (in_segment 0 0 PARSE_OFFSET) empty_file
     = Some (-1, 2, in_segment 5 0 PARSE_ERROR, empty_file).
Proof. destruct fuel; repeat split; vm_compute; reflexivity. Qed.

(** ** C3 and C4: the encoder *)

(** The loop of [do_sparse] is left by [break] only with [start] or [end]
    equal to -1, so the emission after the loop (lines 418-423) never runs. *)
Lemma do_sparse_loop_break fuel src o start end_ a b o' :
  do_sparse_loop fuel src o start end_ = Some (Break a b, o') -> a = -1 \/ b = -1.
Proof.
  revert o start end_. induction fuel as [|fuel IH]; intros o start end_ H; simpl in H.
  - discriminate.
  - destruct (src_seek_data src start) as [start' e1].
    destruct (start' =? -1) eqn:Hs.
    { apply Z.eqb_eq in Hs. destruct e1; inversion H; subst; auto. }
    destruct (src_seek_hole src start') as [end' e2].
    destruct (end' =? -1) eqn:He.
    { apply Z.eqb_eq in He. destruct e2; inversion H; subst; auto. }
    destruct (do_sparse_data _ _ _ _) as [r o1].
    destruct (negb (r =? 0)); [discriminate|]. eauto.
Qed.

(** With the extent map of Linux, where [SEEK_HOLE] answers the end of the
    file for data that runs to it, the last extent is written inside the
    loop. *)
Example final_extent_linux fuel :
  do_sparse (3 + fuel) (linux_file (bytes "abcdefghij") [(0, 3); (6, 10)]) empty_stream
  = Some (0, {| os_bytes := bytes "0 3" ++ NL :: bytes "abc6 4" ++ NL :: bytes "ghij";
                os_writable := true; os_faults := [] |}).
Proof. reflexivity. Qed.

Lemma print_ld_nonempty z : print_ld z <> [].
Proof.
  unfold print_ld, bytes, NilZero.string_of_int.
  destruct (Z.to_int z) as [d|d]; destruct d; discriminate.
Qed.

Lemma header_line_length start sz : (4 <= length (header_line start sz))%nat.
Proof.
  unfold header_line. rewrite length_app. cbn [length]. rewrite length_app. cbn [length].
  pose proof (print_ld_nonempty start). pose proof (print_ld_nonempty (to_off sz)).
  destruct (print_ld start), (print_ld (to_off sz)); simpl; (contradiction || lia).
Qed.

(** Without faults [do_sparse_data] appends the header line of the extent and
    then the bytes of the input from [start], [sz] of them unless the file
    ends before. *)
Lemma do_sparse_data_full src o start sz :
  os_writable o = true -> os_faults o = [] -> 0 <= sz <= INT_MAX ->
  do_sparse_data src o start sz
  = (0, os_append (header_line start sz
                   ++ take (Z.to_nat sz) (drop (Z.to_nat start) (src_bytes src))) [] o).
Proof.
  intros Hw Hf Hsz. unfold INT_MAX in Hsz.
  unfold do_sparse_data, sys_dprintf. rewrite Hw.
  pose proof (header_line_length start sz) as Hlen.
  cmp_false (Z.of_nat (length (header_line start sz)) <? 4).
  unfold do_sparse_copy_data, sys_copy_file_range. cbn [os_append os_faults].
  rewrite Hf.
  set (avail := take (Z.to_nat sz) (drop (Z.to_nat start) (src_bytes src))).
  assert (Havail : Z.of_nat (length avail) <= sz).
  { unfold avail. rewrite length_take. lia. }
  cmp_false (Z.of_nat (length avail) =? -1).
  rewrite to_int_small by lia.
  cmp_false (Z.of_nat (length avail) =? -1).
  unfold os_append. cbn [os_bytes os_writable]. now rewrite <- app_assoc.
Qed.

(** A [copy_file_range] that stops after [n] bytes is not told apart from a
    complete one: the result is 0 all the same. *)
Lemma do_sparse_data_short src o start sz n faults :
  os_writable o = true -> os_faults o = CopyShort n :: faults -> 0 <= sz <= INT_MAX ->
  do_sparse_data src o start sz
  = (0, os_append (header_line start sz
                   ++ take n (take (Z.to_nat sz) (drop (Z.to_nat start) (src_bytes src))))
          faults o).
Proof.
  intros Hw Hf Hsz. unfold INT_MAX in Hsz.
  unfold do_sparse_data, sys_dprintf. rewrite Hw.
  pose proof (header_line_length start sz) as Hlen.
  cmp_false (Z.of_nat (length (header_line start sz)) <? 4).
  unfold do_sparse_copy_data, sys_copy_file_range. cbn [os_append os_faults].
  rewrite Hf.
  set (got := take n (take (Z.to_nat sz) (drop (Z.to_nat start) (src_bytes src)))).
  assert (Hgot : Z.of_nat (length got) <= sz).
  { unfold got. rewrite !length_take. lia. }
  cmp_false (Z.of_nat (length got) =? -1).
  rewrite to_int_small by lia.
  cmp_false (Z.of_nat (length got) =? -1).
  unfold os_append. cbn [os_bytes os_writable]. now rewrite <- app_assoc.
Qed.

(** C4 fails on the code: a [copy_file_range] that stops after two of the
    six bytes of the extent is taken for a success; the run returns 0 and the
    output holds the header of a six-byte record followed by two bytes. *)
Theorem short_copy_accepted fuel :
  do_sparse (2 + fuel) (linux_file (bytes "abcdef") [(0, 6)]) short_copy_stream
  = Some (0, {| os_bytes := bytes "0 6" ++ NL :: bytes "ab";
                os_writable := true; os_faults := [] |}).
Proof. reflexivity. Qed.


(** ** Decoding a whole header *)

Lemma all_zero_digit zs : all_zero zs -> all_digit zs.
Proof.
  unfold all_zero, all_digit. induction zs as [|z zs IH]; simpl; [trivial|].
  intros H. apply andb_true_iff in H as [Hz H]. rewrite IH by assumption.
  apply Z.eqb_eq in Hz. unfold is_digit. rewrite Hz. reflexivity.
Qed.

Lemma uint_value_zeros zs : all_zero zs -> uint_value 0 zs = 0.
Proof.
  unfold all_zero, uint_value. induction zs as [|z zs IH]; simpl; [trivial|].
  intros H. apply andb_true_iff in H as [Hz H]. apply Z.eqb_eq in Hz.
  unfold push_digit at 2. rewrite Hz. simpl. now apply IH.
Qed.

Lemma parse_newline_field sp rest out_sz :
  all_space sp ->
  parse_newline (sp ++ NL :: rest) out_sz = (0, Z.of_nat (length sp) + 1).
Proof.
  intros Hsp. unfold parse_newline.
  destruct (sp ++ NL :: rest) eqn:Hbuf; [destruct sp; discriminate|].
  rewrite <- Hbuf, skip_while_app; [reflexivity | assumption | reflexivity].
Qed.

(** The payload phase entered with nothing left to write: [do_meat] is called
    with [sz = 0] and answers -2. *)
Lemma phase_meat_zero fuel buff extra_sz out_sz d s :
  size (ursparse_of d) = 0 ->
  phase_meat fuel buff extra_sz out_sz d s = Some (-2, out_sz, set_state PARSE_ERROR d, s).
Proof.
  intros Hz. unfold phase_meat. rewrite Hz. change (to_size 0) with 0.
  replace (if 0 <? Z.of_nat (length buff) then 0 else Z.of_nat (length buff)) with 0.
  - reflexivity.
  - destruct (0 <? Z.of_nat (length buff)) eqn:H; [reflexivity|].
    apply Z.ltb_ge in H. lia.
Qed.

Lemma spaces_then_newline sp rest :
  all_space sp -> exists t rest', sp ++ NL :: rest = t :: rest' /\ is_blank t = true.
Proof.
  intros Hsp. destruct sp as [|x sp]; simpl.
  - exists NL, rest. split; reflexivity.
  - exists x, (sp ++ NL :: rest). split; [reflexivity|].
    unfold all_space in Hsp. simpl in Hsp. apply andb_true_iff in Hsp as [Hx _].
    now apply space_is_blank.
Qed.

(** The size phase on a buffer that holds the length field to its end and
    the newline, from a cleared length: after the two field parsers the call
    seeks the output and enters the payload phase on the bytes that follow. *)
Lemma phase_size_header fuel ws2 ds2 sp rest extra_sz out_sz off st s :
  all_blank ws2 -> all_digit ds2 -> ds2 <> [] -> all_space sp ->
  phase_size fuel (ws2 ++ ds2 ++ sp ++ NL :: rest) extra_sz out_sz (in_segment off 0 st) s
  = let sz := uint_value 0 ds2 in
    let o := Z.of_nat (length sp) + 1 in
    if out_seekable s && (0 <=? off) then
      phase_meat fuel rest (extra_sz + Z.of_nat (length ws2 + length ds2) + o) o
        (in_segment off sz PARSE_MEAT) (snd (sys_lseek_set s off))
    else Some (-8, o, in_segment off sz PARSE_ERROR, s).
Proof.
  intros Hws2 Hds2 Hne2 Hsp.
  destruct (spaces_then_newline sp rest Hsp) as (t & rest' & Hrest & Ht).
  unfold phase_size. cbn [in_segment ursparse_of offset size].
  rewrite Hrest, parse_uint_field; [|assumption..|left; split; [reflexivity | assumption]].
  cbn [Z.ltb Z.compare]. rewrite Nat2Z.id, drop_field, <- Hrest.
  unfold phase_newline. rewrite parse_newline_field by assumption.
  cbn [Z.ltb Z.compare].
  replace (Z.to_nat (Z.of_nat (length sp) + 1)) with (length sp + length [NL])%nat
    by (simpl; lia).
  change (sp ++ NL :: rest) with (sp ++ [NL] ++ rest).
  rewrite (drop_field sp [NL] rest).
  unfold do_hole, sys_lseek_set.
  cbn [set_state set_size set_offset in_segment ursparse_of offset size state].
  destruct (out_seekable s && (0 <=? off)) eqn:Hseek.
  - apply andb_true_iff in Hseek as [_ Hoff]. apply Z.leb_le in Hoff.
    cmp_false (off =? -1). reflexivity.
  - reflexivity.
Qed.

(** A call that finds a whole header in its buffer, from a cleared length
    and the offset accumulated so far: after the three field parsers it
    seeks the output and enters the payload phase on the bytes that follow
    the header. *)
Lemma phase_offset_header fuel n ws1 ds1 b ws2 ds2 sp rest out_sz st s :
  header_fields ws1 ds1 b ws2 ds2 sp -> starts_field n ws1 ds1 ->
  phase_offset fuel (header ws1 ds1 b ws2 ds2 sp ++ rest) 0 out_sz (in_segment n 0 st) s
  = let off := uint_value n ds1 in
    let sz := uint_value 0 ds2 in
    let o := Z.of_nat (length sp) + 1 in
    if out_seekable s && (0 <=? off) then
      phase_meat fuel rest (Z.of_nat (length (header ws1 ds1 b ws2 ds2 sp))) o
        (in_segment off sz PARSE_MEAT) (snd (sys_lseek_set s off))
    else Some (-8, o, in_segment off sz PARSE_ERROR, s).
Proof.
  intros (Hws1 & Hds1 & Hb & Hws2 & Hds2 & Hne2 & Hsp) Hstart.
  assert (Hbuf : header ws1 ds1 b ws2 ds2 sp ++ rest
                 = ws1 ++ ds1 ++ b :: ws2 ++ ds2 ++ sp ++ NL :: rest).
  { unfold header. rewrite <- (app_assoc ws1). f_equal.
    rewrite <- (app_assoc ds1). f_equal. simpl. f_equal.
    rewrite <- (app_assoc ws2). f_equal. rewrite <- (app_assoc ds2). f_equal.
    rewrite <- (app_assoc sp). reflexivity. }
  assert (Hlen : Z.of_nat (length (header ws1 ds1 b ws2 ds2 sp))
                 = 0 + Z.of_nat (length ws1 + length ds1)
                   + Z.of_nat (length (b :: ws2) + length ds2)
                   + (Z.of_nat (length sp) + 1)).
  { unfold header. rewrite !length_app. simpl. rewrite !length_app. simpl. lia. }
  rewrite Hbuf, Hlen. clear Hbuf Hlen.
  unfold phase_offset. cbn [in_segment ursparse_of offset size].
  rewrite parse_uint_field by assumption.
  cbn [Z.ltb Z.compare]. rewrite Nat2Z.id, drop_field.
  change (set_state PARSE_SIZE (set_offset (uint_value n ds1) (in_segment n 0 st)))
    with (in_segment (uint_value n ds1) 0 PARSE_SIZE).
  rewrite (app_comm_cons ws2), phase_size_header;
    [reflexivity | unfold all_blank in *; simpl; now rewrite Hb | assumption..].
Qed.

(** The payload phase entered at the end of the buffer: [do_meat] is called
    with [sz = 0] whatever the declared length. *)
Lemma phase_meat_empty fuel extra_sz out_sz d s :
  phase_meat fuel [] extra_sz out_sz d s = Some (-2, out_sz, set_state PARSE_ERROR d, s).
Proof. unfold phase_meat. now rewrite take_nil. Qed.

(** Hence a header that ends its buffer is fatal for every record, not only
    for the sample of C1: the call seeks and then fails with -2 (or -8 when
    the seek fails), and the decoder is locked. *)
Lemma header_at_end_of_buffer fuel ws1 ds1 b ws2 ds2 sp out_sz s :
  well_formed_header ws1 ds1 b ws2 ds2 sp ->
  parse_ursparse fuel (header ws1 ds1 b ws2 ds2 sp) out_sz zeroed s
  = Some (if out_seekable s && (0 <=? uint_value 0 ds1) then -2 else -8,
          Z.of_nat (length sp) + 1,
          in_segment (uint_value 0 ds1) (uint_value 0 ds2) PARSE_ERROR,
          snd (sys_lseek_set s (uint_value 0 ds1))).
Proof.
  intros [Hfields Hne]. unfold parse_ursparse.
  destruct (header ws1 ds1 b ws2 ds2 sp) eqn:Hbuf.
  { unfold header in Hbuf. destruct ws1, ds1; discriminate. }
  rewrite <- Hbuf. clear Hbuf.
  change (set_state PARSE_OFFSET zeroed) with (in_segment 0 0 PARSE_OFFSET).
  cbn [state zeroed].
  rewrite <- (app_nil_r (header ws1 ds1 b ws2 ds2 sp)) at 1.
  rewrite phase_offset_header; [|exact Hfields | left; now split]. cbn zeta.
  unfold sys_lseek_set.
  destruct (out_seekable s && (0 <=? uint_value 0 ds1)); [|reflexivity].
  now rewrite phase_meat_empty.
Qed.

(** ** The loops of [do_ursparse], step by step *)

Lemma feed_block_done fuel n block cursor d s :
  Z.of_nat (length block) <= cursor ->
  feed_block fuel n block cursor d s = Some (Next, d, s).
Proof.
  intros H. apply Z.ltb_ge in H. destruct n; simpl; now rewrite H.
Qed.

Lemma sys_read_whole content blk_sz :
  Z.of_nat (length content) <= blk_sz ->
  sys_read (file_of content) blk_sz
  = (Z.of_nat (length content), content, file_at_end content).
Proof.
  intros H. unfold sys_read, in_take, file_of, file_at_end.
  cbn [in_faults in_pos in_bytes in_seekable].
  rewrite drop_0, take_ge by lia. reflexivity.
Qed.

Lemma sys_read_at_end content blk_sz :
  sys_read (file_at_end content) blk_sz = (0, [], file_at_end content).
Proof.
  unfold sys_read, in_take, file_at_end.
  cbn [in_faults in_pos in_bytes in_seekable].
  rewrite drop_all, take_nil. simpl. now rewrite Nat.add_0_r.
Qed.

Lemma read_loop_step fuel n f blk_sz d s :
  read_loop fuel (S n) f blk_sz d s
  = let '(nbytes, block, f) := sys_read f blk_sz in
    if nbytes =? -1 then Some (3, f, d, s)
    else if nbytes =? 0 then Some (0, f, d, s)
    else
      '(c, d, s) ← feed_block fuel fuel block 0 d s;
      match c with
      | Return code => Some (code, f, d, s)
      | Next => read_loop fuel n f blk_sz d s
      end.
Proof. reflexivity. Qed.

Lemma feed_block_step fuel n block cursor d s :
  cursor < Z.of_nat (length block) ->
  feed_block fuel (S n) block cursor d s
  = '(r, out_sz, d, s) ← parse_ursparse fuel (drop (Z.to_nat cursor) block) 0 d s;
    if r <? 0 then Some (Return 4, d, s)
    else feed_block fuel n block (cursor + out_sz) d s.
Proof. intros H. apply Z.ltb_lt in H. simpl. now rewrite H. Qed.

(** ** C9: records of length zero *)

(** The newline phase resumed with a declared length of zero. *)
Lemma phase_newline_zero fuel sp rest extra_sz out_sz d s :
  all_space sp -> size (ursparse_of d) = 0 ->
  phase_newline fuel (sp ++ NL :: rest) extra_sz out_sz d s
  = Some (if out_seekable s && (0 <=? offset (ursparse_of d)) then -2 else -8,
          Z.of_nat (length sp) + 1,
          set_state PARSE_ERROR d,
          snd (sys_lseek_set s (offset (ursparse_of d)))).
Proof.
  intros Hsp Hz. unfold phase_newline.
  rewrite parse_newline_field by assumption. cbn [Z.ltb Z.compare].
  unfold do_hole, sys_lseek_set.
  destruct (out_seekable s && (0 <=? offset (ursparse_of d))) eqn:Hseek.
  - apply andb_true_iff in Hseek as [_ Hoff]. apply Z.leb_le in Hoff.
    cmp_false (offset (ursparse_of d) =? -1). cbn [Z.ltb Z.compare snd].
    now rewrite phase_meat_zero.
  - reflexivity.
Qed.

(** Within one call, a record whose header declares length 0 (the length
    digits [zs] accumulate to 0, as any run of ['0'] does) makes the decoder
    fail instead of completing an empty segment.  A call of [parse_ursparse]
    that reads
    such a header to its end, followed by anything or nothing, ends in
    [PARSE_ERROR] with a negative return code: when the seek to the declared
    offset succeeds it is the -2 with which [do_meat] rejects its zero size,
    and the seek is the only effect on the output; when the seek fails it is
    -8 and the output is untouched.  No write is issued.  This holds for a
    call that starts the record or resumes its offset field (accumulator
    [n]), for a call that resumes before the length digits, and for a call
    that resumes in the newline phase.  [do_ursparse] on a file that starts
    with the record, read in one block, returns 4. *)
Theorem zero_length_record_rejected fuel n st ws1 ds1 b ws2 zs sp rest out_sz s :
  header_fields ws1 ds1 b ws2 zs sp -> starts_field n ws1 ds1 ->
  st = PARSE_START \/ st = PARSE_OFFSET ->
  uint_value 0 zs = 0 ->
  let off := uint_value n ds1 in
  let code := if out_seekable s && (0 <=? off) then -2 else -8 in
  let stream := header ws1 ds1 b ws2 zs sp ++ rest in
  let failed := Some (code, Z.of_nat (length sp) + 1, in_segment off 0 PARSE_ERROR,
                      snd (sys_lseek_set s off)) in
  parse_ursparse fuel stream out_sz (in_segment n 0 st) s = failed
  /\ parse_ursparse fuel (b :: ws2 ++ zs ++ sp ++ NL :: rest) out_sz
       (in_segment off 0 PARSE_SIZE) s = failed
  /\ parse_ursparse fuel (sp ++ NL :: rest) out_sz (in_segment off 0 PARSE_NEWLINE) s
     = failed
  /\ forall blk_sz,
      n = 0 -> Z.of_nat (length stream) <= blk_sz ->
      do_ursparse (S fuel) true (file_of stream) s blk_sz
      = Some (4, file_at_end stream, snd (sys_lseek_set s off)).
Proof.
  intros Hfields Hstart Hst Hz off code stream failed.
  pose proof Hfields as (Hws1 & Hds1 & Hb & Hws2 & Hds2 & Hne2 & Hsp).
  assert (Hne : stream <> []).
  { unfold stream, header. destruct ws1, ds1; discriminate. }
  assert (Hcall : forall fuel' out_sz' st',
    st' = PARSE_START \/ st' = PARSE_OFFSET ->
    parse_ursparse fuel' stream out_sz' (in_segment n 0 st') s = failed).
  { intros fuel' out_sz' st' Hst'. unfold parse_ursparse.
    destruct stream eqn:Hbuf; [contradiction|]. rewrite <- Hbuf. clear Hbuf.
    assert (Hphase : phase_offset fuel' stream 0 out_sz' (in_segment n 0 PARSE_OFFSET) s
                     = failed).
    { unfold stream. rewrite phase_offset_header by assumption.
      rewrite Hz. cbn zeta. fold off. unfold failed, code, sys_lseek_set.
      destruct (out_seekable s && (0 <=? off)); [|reflexivity].
      now rewrite phase_meat_zero. }
    destruct Hst' as [-> | ->]; exact Hphase. }
  split; [now apply Hcall|]. split; [|split].
  - unfold parse_ursparse. cbn [state in_segment].
    rewrite (app_comm_cons ws2), phase_size_header;
      [|unfold all_blank in *; simpl; now rewrite Hb|assumption..].
    rewrite Hz. cbn zeta. unfold failed, code, sys_lseek_set.
    destruct (out_seekable s && (0 <=? off)); [|reflexivity].
    now rewrite phase_meat_zero.
  - unfold parse_ursparse.
    destruct (sp ++ NL :: rest) eqn:Hbuf; [destruct sp; discriminate|].
    rewrite <- Hbuf. cbn [state in_segment].
    now apply phase_newline_zero.
  - intros blk_sz Hn Hblk.
    assert (Hpos : 0 < Z.of_nat (length stream)).
    { destruct stream; [contradiction | simpl; lia]. }
    assert (Hcode : code < 0).
    { unfold code. destruct (out_seekable s && (0 <=? off)); lia. }
    unfold do_ursparse. cbn [in_rewind file_of in_seekable in_bytes in_faults Z.eqb negb].
    change {| in_seekable := true; in_bytes := stream; in_pos := 0; in_faults := [] |}
      with (file_of stream).
    rewrite read_loop_step, sys_read_whole by assumption.
    cmp_false (Z.of_nat (length stream) =? -1).
    cmp_false (Z.of_nat (length stream) =? 0).
    rewrite feed_block_step by assumption.
    cbn [Z.to_nat]. rewrite drop_0.
    specialize (Hcall (S fuel) 0 PARSE_START (or_introl eq_refl)).
    rewrite Hn in Hcall. change (in_segment 0 0 PARSE_START) with zeroed in Hcall.
    rewrite Hcall. unfold failed. cbn [mbind option_bind].
    cmp_true (code <? 0). reflexivity.
Qed.

Lemma zero_length_record_rejected_witness :
  parse_ursparse 0 (header [] (bytes "5") SP [] (bytes "0") [] ++ []) 0
    (in_segment 0 0 PARSE_START) empty_file
  = Some (-2, 1, in_segment 5 0 PARSE_ERROR, snd (sys_lseek_set empty_file 5)).
Proof.
  refine (proj1 (zero_length_record_rejected 0 0 PARSE_START [] (bytes "5") SP []
                   (bytes "0") [] [] 0 empty_file _ _ _ _)).
  - unfold header_fields. repeat split; (reflexivity || discriminate).
  - left. split; [reflexivity | discriminate].
  - left. reflexivity.
  - reflexivity.
Defined.

(** The same on the stream ["5 0\nXYZ"], with bytes after the header. *)
Example zero_length_record_5_0 fuel :
  parse_ursparse fuel (bytes "5 0" ++ NL :: bytes "XYZ") 0 zeroed empty_file
  = Some (-2, 1, in_segment 5 0 PARSE_ERROR, snd (sys_lseek_set empty_file 5)).
Proof. destruct fuel; reflexivity. Qed.

(** The statement stops where the length digits end a buffer: the call that
    follows cannot tell the zero accumulator from a field not yet started,
    takes the newline for a leading blank and asks for more input. *)
Example zero_length_split_before_newline fuel :
  parse_ursparse fuel (bytes "5 0") 0 zeroed empty_file
  = Some (2, 2, in_segment 5 0 PARSE_SIZE, empty_file)
  /\ parse_ursparse fuel [NL] 0 (in_segment 5 0 PARSE_SIZE) empty_file
     = Some (1, 1, in_segment 5 0 PARSE_SIZE, empty_file).
Proof. split; reflexivity. Qed.

(** C9 fails on the code: a record of length zero is not refused when a
    block ends right after its length digits.  The stream of 4097 bytes
    [zero_length_stream] ends with the record ["5 0\n"]; read in blocks of
    4096 bytes, as [main] always reads, the first block ends after the ["0"],
    the decoder takes the zero length for a field not yet started, steps over
    the newline of the second block as a leading blank, and at the end of the
    input [do_ursparse] returns 0: no error, and nothing done for the record
    (the output was last touched by the write of the first record).  Read in
    one block of 8192 bytes the run does fail, with exit code 4 after the
    seek to offset 5. *)
Theorem zero_length_record_passes_at_block_end :
  exit_code (do_ursparse 8 true (file_of zero_length_stream) empty_file 4096) = Some 0
  /\ out_trace <$> output_of (do_ursparse 8 true (file_of zero_length_stream)
                                empty_file 4096)
     = Some [OpSeek 0; OpWrite 0 (repeat "p"%char 4086)]
  /\ exit_code (do_ursparse 8 true (file_of zero_length_stream) empty_file 8192) = Some 4
  /\ out_trace <$> output_of (do_ursparse 8 true (file_of zero_length_stream)
                                empty_file 8192)
     = Some [OpSeek 0; OpWrite 0 (repeat "p"%char 4086); OpSeek 5].
Proof. repeat split; vm_compute; reflexivity. Qed.

(** ** C2: the end of the input inside a record *)

Lemma to_off_range z : - 2 ^ 63 <= to_off z < 2 ^ 63.
Proof.
  unfold to_off, wrap_signed.
  change (2 ^ (64 - 1)) with (2 ^ 63). change (2 ^ 64) with (2 * 2 ^ 63).
  pose proof (Z.mod_pos_bound (z + 2 ^ 63) (2 * 2 ^ 63)). lia.
Qed.

Lemma uint_value_range n ds : ds <> [] -> - 2 ^ 63 <= uint_value n ds < 2 ^ 63.
Proof.
  intros Hne. destruct (exists_last Hne) as (ds' & d & ->).
  unfold uint_value. rewrite fold_left_app. simpl. apply to_off_range.
Qed.

Lemma do_meat_loop_end fuel s written_bytes :
  do_meat_loop fuel s [] written_bytes = Some (to_int written_bytes, written_bytes, s).
Proof. destruct fuel; reflexivity. Qed.

(** On a file that accepts every write, [do_meat] writes the whole buffer with
    one call. *)
Lemma do_meat_all fuel s buff out_sz :
  out_faults s = [] -> buff <> [] ->
  do_meat (S fuel) s buff out_sz
  = Some (to_int (Z.of_nat (length buff)), Z.of_nat (length buff), sink_put buff [] s).
Proof.
  intros Hf Hne. destruct buff as [|c buff]; [contradiction|].
  unfold do_meat, do_meat_loop; fold do_meat_loop.
  unfold sys_write. rewrite Hf.
  cmp_false (Z.of_nat (length (c :: buff)) =? -1).
  rewrite Nat2Z.id, drop_all. apply do_meat_loop_end.
Qed.

(** The payload phase on a buffer that holds less than what is left of the
    segment: everything is written and the segment stays open. *)
Lemma phase_meat_partial fuel buff extra_sz out_sz d s :
  out_faults s = [] -> buff <> [] ->
  Z.of_nat (length buff) < size (ursparse_of d) <= OFF_MAX ->
  Z.of_nat (length buff) <= INT_MAX ->
  phase_meat (S fuel) buff extra_sz out_sz d s
  = Some (to_int (Z.of_nat (length buff) + extra_sz),
          Z.of_nat (length buff) + extra_sz,
          set_size (size (ursparse_of d) - Z.of_nat (length buff)) d,
          sink_put buff [] s).
Proof.
  intros Hf Hne Hsz Hint. unfold OFF_MAX, INT_MAX in *. unfold phase_meat.
  rewrite to_size_small by lia.
  cmp_false (size (ursparse_of d) <? Z.of_nat (length buff)).
  rewrite Nat2Z.id, take_ge by lia.
  rewrite do_meat_all by assumption. cbn [mbind option_bind].
  rewrite to_int_small by lia.
  cmp_false (Z.of_nat (length buff) <? 0).
  cmp_false (size (ursparse_of d) <? Z.of_nat (length buff)).
  rewrite to_off_small by lia.
  cbn [set_size ursparse_of size].
  cmp_false (size (ursparse_of d) - Z.of_nat (length buff) =? 0).
  reflexivity.
Qed.

(** A call on a fresh decoder whose buffer holds a whole header and then
    fewer payload bytes than the header declares. *)
Lemma parse_ursparse_partial fuel ws1 ds1 b ws2 ds2 sp payload out_sz s :
  well_formed_header ws1 ds1 b ws2 ds2 sp ->
  out_seekable s = true -> out_faults s = [] -> 0 <= uint_value 0 ds1 ->
  0 < Z.of_nat (length payload) < uint_value 0 ds2 ->
  Z.of_nat (length (header ws1 ds1 b ws2 ds2 sp ++ payload)) <= INT_MAX ->
  parse_ursparse (S fuel) (header ws1 ds1 b ws2 ds2 sp ++ payload) out_sz zeroed s
  = Some (Z.of_nat (length (header ws1 ds1 b ws2 ds2 sp ++ payload)),
          Z.of_nat (length (header ws1 ds1 b ws2 ds2 sp ++ payload)),
          in_segment (uint_value 0 ds1)
            (uint_value 0 ds2 - Z.of_nat (length payload)) PARSE_MEAT,
          sink_put payload [] (snd (sys_lseek_set s (uint_value 0 ds1)))).
Proof.
  intros Hwf Hseek Hf Hoff Hlen Hint. unfold parse_ursparse.
  destruct (header ws1 ds1 b ws2 ds2 sp ++ payload) eqn:Hbuf.
  { unfold header in Hbuf. destruct ws1, ds1; discriminate. }
  rewrite <- Hbuf in *. clear Hbuf.
  change (set_state PARSE_OFFSET zeroed) with (in_segment 0 0 PARSE_OFFSET).
  cbn [state zeroed].
  rewrite phase_offset_header; [|apply Hwf | left; split; [reflexivity | apply Hwf]].
  cbn zeta. rewrite Hseek. cmp_true (0 <=? uint_value 0 ds1).
  cbn [andb].
  assert (Hds2 : ds2 <> []) by apply (proj1 Hwf).
  pose proof (uint_value_range 0 ds2 Hds2) as Hrange.
  rewrite length_app in Hint. unfold INT_MAX, OFF_MAX in *.
  rewrite phase_meat_partial.
  - rewrite length_app, Nat2Z.inj_add.
    rewrite to_int_small by lia.
    cbn [in_segment set_size ursparse_of offset size state].
    replace (Z.of_nat (length payload) + Z.of_nat (length (header ws1 ds1 b ws2 ds2 sp)))
      with (Z.of_nat (length (header ws1 ds1 b ws2 ds2 sp)) + Z.of_nat (length payload))
      by lia.
    reflexivity.
  - unfold sys_lseek_set. rewrite Hseek.
    cmp_true (0 <=? uint_value 0 ds1).
    assumption.
  - destruct payload; [simpl in Hlen; lia | discriminate].
  - cbn [in_segment ursparse_of size]. unfold OFF_MAX. lia.
  - unfold INT_MAX. lia.
Qed.

(** C2 fails on the code: the input ["10 5\nAB"] ends three bytes short of
    the declared length, and the run returns 0 with the two bytes written. *)
Lemma truncated_record_exit_0 :
  exit_code (do_ursparse 5 true (file_of (bytes "10 5" ++ NL :: bytes "AB")) empty_file 4096)
  = Some 0
  /\ out_trace <$> output_of
       (do_ursparse 5 true (file_of (bytes "10 5" ++ NL :: bytes "AB")) empty_file 4096)
     = Some [OpSeek 10; OpWrite 10 (bytes "AB")].
Proof. split; vm_compute; reflexivity. Qed.

(** C2, amended: the end of the input inside a record is not an error.  For
    a header declaring length [len] followed by a payload of fewer bytes
    (and at least one), read in one block into a seekable file that accepts
    every write, the loop of [do_ursparse] stops at the zero-length read with
    exit code 0; the decoder is still in [PARSE_MEAT] with the missing count
    outstanding, and the bytes received are written at the declared offset. *)
Theorem truncated_payload_exit_0 fuel ws1 ds1 b ws2 ds2 sp payload blk_sz s :
  well_formed_header ws1 ds1 b ws2 ds2 sp ->
  let off := uint_value 0 ds1 in
  let len := uint_value 0 ds2 in
  let stream := header ws1 ds1 b ws2 ds2 sp ++ payload in
  let s' := sink_put payload [] (snd (sys_lseek_set s off)) in
  out_seekable s = true -> out_faults s = [] -> 0 <= off ->
  0 < Z.of_nat (length payload) < len ->
  Z.of_nat (length stream) <= blk_sz <= INT_MAX ->
  read_loop (S (S fuel)) (S (S fuel)) (file_of stream) blk_sz zeroed s
  = Some (0, file_at_end stream,
          in_segment off (len - Z.of_nat (length payload)) PARSE_MEAT, s')
  /\ do_ursparse (S (S fuel)) true (file_of stream) s blk_sz
     = Some (0, file_at_end stream, s').
Proof.
  intros Hwf off len stream s' Hseek Hf Hoff Hlen Hblk.
  assert (Hne : stream <> []).
  { unfold stream, header. destruct ws1, ds1; discriminate. }
  assert (Hpos : 0 < Z.of_nat (length stream)).
  { destruct stream; [contradiction | simpl; lia]. }
  assert (Hloop :
    read_loop (S (S fuel)) (S (S fuel)) (file_of stream) blk_sz zeroed s
    = Some (0, file_at_end stream,
            in_segment off (len - Z.of_nat (length payload)) PARSE_MEAT, s')).
  { rewrite read_loop_step, sys_read_whole by lia.
    cmp_false (Z.of_nat (length stream) =? -1).
    cmp_false (Z.of_nat (length stream) =? 0).
    rewrite feed_block_step by lia.
    cbn [Z.to_nat]. rewrite drop_0.
    assert (Hint : Z.of_nat (length stream) <= INT_MAX) by lia.
    pose proof (parse_ursparse_partial (S fuel) ws1 ds1 b ws2 ds2 sp payload 0 s
                  Hwf Hseek Hf Hoff Hlen Hint) as Hp.
    fold stream in Hp. rewrite Hp. cbn [mbind option_bind].
    cmp_false (Z.of_nat (length stream) <? 0).
    rewrite feed_block_done by lia. cbn [mbind option_bind].
    rewrite read_loop_step, sys_read_at_end. reflexivity. }
  split; [exact Hloop|].
  unfold do_ursparse. cbn [in_rewind file_of in_seekable in_bytes in_faults].
  cbn [Z.eqb negb].
  change {| in_seekable := true; in_bytes := stream; in_pos := 0; in_faults := [] |}
    with (file_of stream).
  rewrite Hloop. reflexivity.
Qed.

Lemma truncated_payload_exit_0_witness :
  read_loop 2 2 (file_of (header [] (bytes "10") SP [] (bytes "5") [] ++ bytes "AB"))
    4096 zeroed empty_file
  = Some (0, file_at_end (header [] (bytes "10") SP [] (bytes "5") [] ++ bytes "AB"),
          in_segment 10 (5 - 2) PARSE_MEAT,
          sink_put (bytes "AB") [] (snd (sys_lseek_set empty_file 10)))
  /\ do_ursparse 2 true
       (file_of (header [] (bytes "10") SP [] (bytes "5") [] ++ bytes "AB")) empty_file 4096
     = Some (0, file_at_end (header [] (bytes "10") SP [] (bytes "5") [] ++ bytes "AB"),
             sink_put (bytes "AB") [] (snd (sys_lseek_set empty_file 10))).
Proof.
  apply (truncated_payload_exit_0 0 [] (bytes "10") SP [] (bytes "5") [] (bytes "AB")
           4096 empty_file).
  - unfold well_formed_header. repeat split; (reflexivity || discriminate).
  - reflexivity.
  - reflexivity.
  - vm_compute. discriminate.
  - vm_compute. split; reflexivity.
  - vm_compute. split; discriminate.
Defined.

(** ** C7: a byte that no header field accepts *)

Lemma bad_not_space c : bad_byte c -> is_space c = false.
Proof.
  intros [_ H]. unfold is_blank in H. now apply orb_false_iff in H as [H _].
Qed.

Lemma bad_not_newline c : bad_byte c -> is_newline c = false.
Proof.
  intros [_ H]. unfold is_blank in H. now apply orb_false_iff in H as [_ H].
Qed.

(** A digit loop that found its terminator finds it whatever follows. *)
Lemma uint_loop_app_done pre x i n k n' :
  uint_loop pre i n = ScanDone k n' ->
  uint_loop (pre ++ x) i n = ScanDone k n' /\ i <= k < i + Z.of_nat (length pre).
Proof.
  revert i n. induction pre as [|a pre IH]; intros i n H; simpl in H.
  - discriminate.
  - simpl. destruct (is_digit a).
    + apply IH in H as [-> Hk]. split; [reflexivity | lia].
    + destruct (is_blank a); inversion H; subst. split; [reflexivity | lia].
Qed.

(** A digit loop that ran to the end of the buffer fails on a bad byte
    appended to it. *)
Lemma uint_loop_app_bad pre c rest i n k n' :
  bad_byte c ->
  uint_loop pre i n = ScanEob k n' ->
  uint_loop (pre ++ c :: rest) i n = ScanBad n'.
Proof.
  intros [Hd Hb]. revert i n. induction pre as [|a pre IH]; intros i n H; simpl in H.
  - inversion H; subst. simpl. now rewrite Hd, Hb.
  - simpl. destruct (is_digit a); [now apply IH|].
    destruct (is_blank a); discriminate.
Qed.

Lemma uint_scan_app_done pre x n k n' :
  uint_scan pre n = ScanDone k n' ->
  uint_scan (pre ++ x) n = ScanDone k n' /\ 0 <= k < Z.of_nat (length pre).
Proof.
  unfold uint_scan. destruct (n =? 0).
  - destruct (skip_while is_blank pre 0) as [j rem] eqn:Hskip.
    apply skip_while_inv in Hskip as (ws & -> & Hws & Hst & ->).
    intros H. destruct rem as [|a rem]; [discriminate|].
    rewrite <- app_assoc, skip_while_app; [|assumption..].
    apply (uint_loop_app_done _ x) in H as [-> Hk].
    split; [reflexivity|]. rewrite length_app. lia.
  - intros H. apply (uint_loop_app_done _ x) in H as [-> Hk].
    split; [reflexivity | lia].
Qed.

Lemma uint_scan_app_bad pre c rest n k n' :
  bad_byte c ->
  uint_scan pre n = ScanEob k n' ->
  uint_scan (pre ++ c :: rest) n = ScanBad n'.
Proof.
  intros Hc. unfold uint_scan. destruct (n =? 0).
  - destruct (skip_while is_blank pre 0) as [j rem] eqn:Hskip.
    apply skip_while_inv in Hskip as (ws & -> & Hws & Hst & ->).
    intros H. rewrite <- app_assoc, skip_while_app; [|assumption|].
    + now apply uint_loop_app_bad with (k := k).
    + destruct rem; [apply Hc | exact Hst].
  - intros H. now apply uint_loop_app_bad with (k := k).
Qed.

Lemma uint_scan_nil n : uint_scan [] n = ScanEob 0 n.
Proof. unfold uint_scan. now destruct (n =? 0). Qed.

Lemma parse_uint_app_done pre x out_sz out_sz' n k n' :
  uint_scan pre n = ScanDone k n' ->
  parse_uint pre out_sz n = (0, k, n')
  /\ parse_uint (pre ++ x) out_sz' n = (0, k, n')
  /\ drop (Z.to_nat k) (pre ++ x) = drop (Z.to_nat k) pre ++ x.
Proof.
  intros H. destruct (uint_scan_app_done pre x n k n' H) as [Hx Hk].
  unfold parse_uint. rewrite H, Hx.
  destruct pre as [|a pre]; [simpl in Hk; lia|].
  repeat split. apply drop_app_le. lia.
Qed.

Lemma parse_uint_app_bad pre c rest out_sz n k n' :
  bad_byte c ->
  uint_scan pre n = ScanEob k n' ->
  parse_uint (pre ++ c :: rest) out_sz n = (-1, out_sz, n').
Proof.
  intros Hc H. unfold parse_uint. rewrite (uint_scan_app_bad pre c rest n k n' Hc H).
  now destruct pre.
Qed.

Lemma wants_header_some r o d s :
  wants_header (Some (r, o, d, s)) -> 0 < r /\ header_state (state d).
Proof. intros (r' & o' & d' & s' & H & Hr & Hd). now inversion H; subst. Qed.

Lemma header_state_not_meat st : header_state st -> st <> PARSE_MEAT.
Proof. intros [-> | [-> | [-> | ->]]]; discriminate. Qed.

Lemma phase_meat_wants fuel buff extra_sz out_sz d s :
  state d = PARSE_MEAT ->
  ~ wants_header (phase_meat fuel buff extra_sz out_sz d s).
Proof.
  intros Hd (r & o & d' & s' & H & Hr & Hst).
  apply phase_meat_state in H as [[H _] | [[H _] | H]]; try lia.
  apply header_state_not_meat in Hst. congruence.
Qed.

(** In each header phase: if the bytes [pre] alone leave the decoder asking
    for more header bytes (or [pre] is empty), then a bad byte after [pre]
    makes the call fail with -1 before the output is touched. *)
Lemma phase_newline_bad fuel pre c rest extra_sz extra_sz' out_sz out_sz' d s :
  bad_byte c ->
  pre = [] \/ wants_header (phase_newline fuel pre extra_sz out_sz d s) ->
  phase_newline fuel (pre ++ c :: rest) extra_sz' out_sz' d s
  = Some (-1, out_sz', set_state PARSE_ERROR d, s).
Proof.
  intros Hc Hpre.
  destruct (skip_while is_space pre 0) as [j rem] eqn:Hskip.
  pose proof Hskip as Hinv.
  apply skip_while_inv in Hinv as (ws & Hsplit & Hws & Hst & ->).
  destruct rem as [|a rem].
  - rewrite app_nil_r in Hsplit. subst ws.
    unfold phase_newline, parse_newline.
    rewrite skip_while_app; [|assumption | now apply bad_not_space].
    rewrite (bad_not_newline c Hc).
    destruct (pre ++ c :: rest) eqn:Hbuf; [destruct pre; discriminate|].
    reflexivity.
  - exfalso. destruct Hpre as [-> | Hpre]; [destruct ws; discriminate|].
    unfold phase_newline, parse_newline in Hpre. rewrite Hskip in Hpre.
    destruct pre as [|p pre]; [destruct ws; discriminate|].
    destruct (is_newline a).
    + cbn [Z.ltb Z.compare] in Hpre.
      destruct (do_hole s _) as [r2 s2].
      destruct (r2 <? 0).
      * apply wants_header_some in Hpre as [Hr _]. lia.
      * now apply phase_meat_wants in Hpre.
    + apply wants_header_some in Hpre as [Hr _]. lia.
Qed.

Lemma phase_size_bad fuel pre c rest extra_sz extra_sz' out_sz out_sz' d s :
  bad_byte c ->
  pre = [] \/ wants_header (phase_size fuel pre extra_sz out_sz d s) ->
  exists o d',
    phase_size fuel (pre ++ c :: rest) extra_sz' out_sz' d s = Some (-1, o, d', s)
    /\ state d' = PARSE_ERROR.
Proof.
  intros Hc Hpre.
  destruct (uint_scan pre (size (ursparse_of d))) as [k n'|n'|k n'] eqn:Hscan.
  - destruct Hpre as [-> | Hpre]; [now rewrite uint_scan_nil in Hscan|].
    destruct (parse_uint_app_done pre (c :: rest) out_sz out_sz' _ _ _ Hscan)
      as (Hp & Hx & Hdrop).
    unfold phase_size in *. rewrite Hp in Hpre. rewrite Hx, Hdrop.
    cbn [Z.ltb Z.compare] in *.
    erewrite phase_newline_bad; [|assumption | right; exact Hpre].
    eauto.
  - exfalso. destruct Hpre as [-> | Hpre]; [now rewrite uint_scan_nil in Hscan|].
    unfold phase_size, parse_uint in Hpre. rewrite Hscan in Hpre.
    destruct pre; apply wants_header_some in Hpre as [Hr _]; lia.
  - unfold phase_size. rewrite (parse_uint_app_bad pre c rest _ _ _ _ Hc Hscan).
    cbn [Z.ltb Z.compare]. eauto.
Qed.

Lemma phase_offset_bad fuel pre c rest extra_sz extra_sz' out_sz out_sz' d s :
  bad_byte c ->
  pre = [] \/ wants_header (phase_offset fuel pre extra_sz out_sz d s) ->
  exists o d',
    phase_offset fuel (pre ++ c :: rest) extra_sz' out_sz' d s = Some (-1, o, d', s)
    /\ state d' = PARSE_ERROR.
Proof.
  intros Hc Hpre.
  destruct (uint_scan pre (offset (ursparse_of d))) as [k n'|n'|k n'] eqn:Hscan.
  - destruct Hpre as [-> | Hpre]; [now rewrite uint_scan_nil in Hscan|].
    destruct (parse_uint_app_done pre (c :: rest) out_sz out_sz' _ _ _ Hscan)
      as (Hp & Hx & Hdrop).
    unfold phase_offset in *. rewrite Hp in Hpre. rewrite Hx, Hdrop.
    cbn [Z.ltb Z.compare] in *.
    eapply phase_size_bad; [assumption | right; exact Hpre].
  - exfalso. destruct Hpre as [-> | Hpre]; [now rewrite uint_scan_nil in Hscan|].
    unfold phase_offset, parse_uint in Hpre. rewrite Hscan in Hpre.
    destruct pre; apply wants_header_some in Hpre as [Hr _]; lia.
  - unfold phase_offset. rewrite (parse_uint_app_bad pre c rest _ _ _ _ Hc Hscan).
    cbn [Z.ltb Z.compare]. eauto.
Qed.

(** Where the decoder itself is in a header field, a malformed byte is
    refused: a byte [c] outside digits, space and newline that the decoder
    meets there (the offset, the size or the newline field: the decoder
    is in a header state, and the bytes [pre] before [c] in the buffer, if
    any, leave it asking for more header bytes) makes [parse_ursparse] return
    the malformed-header code -1 in that very call and lock into
    [PARSE_ERROR]; the output file is exactly as before the call, so no seek
    and no payload write was made for the record. *)
Theorem malformed_header_byte_rejected fuel pre c rest out_sz d s :
  bad_byte c ->
  awaits_header_byte fuel pre d s ->
  exists o d',
    parse_ursparse fuel (pre ++ c :: rest) out_sz d s = Some (-1, o, d', s)
    /\ state d' = PARSE_ERROR.
Proof.
  intros Hc [Hd Hpre]. unfold parse_ursparse in *.
  destruct (pre ++ c :: rest) eqn:Hbuf; [destruct pre; discriminate|].
  rewrite <- Hbuf. clear Hbuf.
  assert (Hpre' : pre = [] \/ pre <> [] /\ wants_header (parse_ursparse fuel pre 0 d s)).
  { destruct Hpre as [-> | H]; [now left|].
    destruct pre; [now left | right; split; [discriminate | exact H]]. }
  clear Hpre.
  destruct Hd as [Hd | [Hd | [Hd | Hd]]]; rewrite Hd in *.
  - eapply phase_offset_bad; [assumption|].
    destruct Hpre' as [-> | [Hne H]]; [now left | right].
    unfold parse_ursparse in H. rewrite Hd in H. destruct pre; [contradiction | exact H].
  - eapply phase_offset_bad; [assumption|].
    destruct Hpre' as [-> | [Hne H]]; [now left | right].
    unfold parse_ursparse in H. rewrite Hd in H. destruct pre; [contradiction | exact H].
  - eapply phase_size_bad; [assumption|].
    destruct Hpre' as [-> | [Hne H]]; [now left | right].
    unfold parse_ursparse in H. rewrite Hd in H. destruct pre; [contradiction | exact H].
  - exists out_sz, (set_state PARSE_ERROR d). split; [|reflexivity].
    eapply phase_newline_bad; [assumption|].
    destruct Hpre' as [-> | [Hne H]]; [now left | right].
    unfold parse_ursparse in H. rewrite Hd in H. destruct pre; [contradiction | exact H].
Qed.

Lemma malformed_header_byte_rejected_witness :
  exists o d',
    parse_ursparse 0 (bytes "10 5" ++ "x"%char :: bytes "ABC") 0 zeroed empty_file
    = Some (-1, o, d', empty_file)
    /\ state d' = PARSE_ERROR.
Proof.
  apply (malformed_header_byte_rejected 0 (bytes "10 5") "x"%char (bytes "ABC") 0
           zeroed empty_file).
  - split; reflexivity.
  - split; [left; reflexivity|]. right.
    exists 2, 2, (in_segment 10 5 PARSE_SIZE), empty_file.
    split; [reflexivity|]. split; [lia|]. right; right; left; reflexivity.
Defined.

(** C7 fails on the code: a header byte outside digits, space and newline is
    not always refused.  In the stream of 4103 bytes [bad_header_stream] the
    third header starts with the byte [x].  Read in blocks of 4096 bytes, as
    [main] always reads, the first block ends inside the second header, right
    after its length digit; the call that meets the end of the block reports
    the bytes of the length field only, so that digit is read twice and the
    length becomes 11 instead of 1.  The decoder then takes the six bytes
    ["Ax 1\nB"] for payload: the bad header byte is written to the output at
    offset 2, and at the end of the input [do_ursparse] returns 0.  Read in
    one block of 8192 bytes the run fails at the [x] with exit code 4, the
    byte [A] of the second record written and nothing after it. *)
Theorem malformed_header_byte_stored_as_payload :
  exit_code (do_ursparse 8 true (file_of bad_header_stream) empty_file 4096) = Some 0
  /\ out_trace <$> output_of (do_ursparse 8 true (file_of bad_header_stream)
                                empty_file 4096)
     = Some [OpSeek 0; OpWrite 0 (repeat "p"%char 4086);
             OpSeek 1; OpWrite 1 (bytes "Ax 1" ++ NL :: bytes "B")]
  /\ exit_code (do_ursparse 8 true (file_of bad_header_stream) empty_file 8192) = Some 4
  /\ out_trace <$> output_of (do_ursparse 8 true (file_of bad_header_stream)
                                empty_file 8192)
     = Some [OpSeek 0; OpWrite 0 (repeat "p"%char 4086); OpSeek 1; OpWrite 1 (bytes "A")].
Proof. repeat split; vm_compute; reflexivity. Qed.

(** A bad byte in each of the three fields of a header read in one call. *)
Example malformed_offset_field fuel :
  parse_ursparse fuel (bytes "1x 5" ++ NL :: bytes "ABCDE") 0 zeroed empty_file
  = Some (-1, 0, in_segment 1 0 PARSE_ERROR, empty_file).
Proof. reflexivity. Qed.

Example malformed_size_field fuel :
  parse_ursparse fuel (bytes "10 5x" ++ NL :: bytes "ABCDE") 0 zeroed empty_file
  = Some (-1, 2, in_segment 10 5 PARSE_ERROR, empty_file).
Proof. reflexivity. Qed.

Example malformed_newline_field fuel :
  parse_ursparse fuel (bytes "10 5 x" ++ NL :: bytes "ABCDE") 0 zeroed empty_file
  = Some (-1, 2, in_segment 10 5 PARSE_ERROR, empty_file).
Proof. reflexivity. Qed.

(** ** More fuel never changes a result *)

Section FuelMonotone.

Variables fuel fuel' : nat.
Hypothesis Hfuel : (fuel <= fuel')%nat.

Lemma do_meat_loop_mono s buff written_bytes res :
  do_meat_loop fuel s buff written_bytes = Some res ->
  do_meat_loop fuel' s buff written_bytes = Some res.
Proof using Hfuel.
  revert Hfuel. clear. revert fuel' s buff written_bytes.
  induction fuel as [|f IH]; intros f' s buff w Hle H.
  - destruct buff; [|discriminate]. now rewrite do_meat_loop_end.
  - destruct f' as [|f']; [lia|].
    destruct buff as [|c buff]; [exact H|].
    simpl in *. destruct (sys_write s (c :: buff)) as [r s1].
    destruct (r =? -1); [exact H|]. apply IH; [lia | exact H].
Qed.

Lemma do_meat_mono s buff out_sz res :
  do_meat fuel s buff out_sz = Some res -> do_meat fuel' s buff out_sz = Some res.
Proof using Hfuel.
  unfold do_meat. destruct buff; [trivial|]. apply do_meat_loop_mono.
Qed.

Lemma phase_meat_mono buff extra_sz out_sz d s res :
  phase_meat fuel buff extra_sz out_sz d s = Some res ->
  phase_meat fuel' buff extra_sz out_sz d s = Some res.
Proof using Hfuel.
  unfold phase_meat. intros H.
  destruct (do_meat fuel _ _ _) as [m|] eqn:Hm; [|discriminate].
  now rewrite (do_meat_mono _ _ _ _ Hm).
Qed.

Lemma phase_newline_mono buff extra_sz out_sz d s res :
  phase_newline fuel buff extra_sz out_sz d s = Some res ->
  phase_newline fuel' buff extra_sz out_sz d s = Some res.
Proof using Hfuel.
  unfold phase_newline. destruct (parse_newline buff out_sz) as [r o].
  destruct (r <? 0); [trivial|]. destruct (0 <? r); [trivial|].
  destruct (do_hole s _) as [r2 s2]. destruct (r2 <? 0); [trivial|].
  apply phase_meat_mono.
Qed.

Lemma phase_size_mono buff extra_sz out_sz d s res :
  phase_size fuel buff extra_sz out_sz d s = Some res ->
  phase_size fuel' buff extra_sz out_sz d s = Some res.
Proof using Hfuel.
  unfold phase_size. destruct (parse_uint buff out_sz _) as [[r o] n].
  destruct (r <? 0); [trivial|]. destruct (0 <? r); [trivial|].
  apply phase_newline_mono.
Qed.

Lemma phase_offset_mono buff extra_sz out_sz d s res :
  phase_offset fuel buff extra_sz out_sz d s = Some res ->
  phase_offset fuel' buff extra_sz out_sz d s = Some res.
Proof using Hfuel.
  unfold phase_offset. destruct (parse_uint buff out_sz _) as [[r o] n].
  destruct (r <? 0); [trivial|]. destruct (0 <? r); [trivial|].
  apply phase_size_mono.
Qed.

Lemma parse_ursparse_mono buff out_sz d s res :
  parse_ursparse fuel buff out_sz d s = Some res ->
  parse_ursparse fuel' buff out_sz d s = Some res.
Proof using Hfuel.
  unfold parse_ursparse. destruct buff; [trivial|].
  destruct (state d);
    auto using phase_offset_mono, phase_size_mono, phase_newline_mono, phase_meat_mono.
Qed.

Lemma feed_block_mono n n' block cursor d s res :
  (n <= n')%nat ->
  feed_block fuel n block cursor d s = Some res ->
  feed_block fuel' n' block cursor d s = Some res.
Proof using Hfuel.
  revert n' cursor d s. induction n as [|n IH]; intros n' cursor d s Hle H.
  - simpl in H. destruct (cursor <? Z.of_nat (length block)) eqn:Hc; [discriminate|].
    rewrite feed_block_done; [exact H | now apply Z.ltb_ge].
  - destruct n' as [|n']; [lia|]. simpl in *.
    destruct (cursor <? Z.of_nat (length block)); [|exact H].
    destruct (parse_ursparse fuel _ 0 d s) as [[[[r o] d1] s1]|] eqn:Hp; [|discriminate].
    rewrite (parse_ursparse_mono _ _ _ _ _ Hp). simpl in *.
    destruct (r <? 0); [exact H|]. apply IH; [lia | exact H].
Qed.

Lemma read_loop_mono n n' f blk_sz d s res :
  (n <= n')%nat ->
  read_loop fuel n f blk_sz d s = Some res ->
  read_loop fuel' n' f blk_sz d s = Some res.
Proof using Hfuel.
  revert n' f d s. induction n as [|n IH]; intros n' f d s Hle H; [discriminate|].
  destruct n' as [|n']; [lia|]. simpl in *.
  destruct (sys_read f blk_sz) as [[nbytes block] f1].
  destruct (nbytes =? -1); [exact H|]. destruct (nbytes =? 0); [exact H|].
  destruct (feed_block fuel fuel block 0 d s) as [[[c d1] s1]|] eqn:Hb; [|discriminate].
  rewrite (feed_block_mono _ _ _ _ _ _ _ Hfuel Hb). simpl in *.
  destruct c; [|exact H]. apply IH; [lia | exact H].
Qed.

(** A run of the decoder that ends with [fuel] ends the same way with more. *)
Lemma do_ursparse_mono malloc_ok fd_in fd_out blk_sz res :
  do_ursparse fuel malloc_ok fd_in fd_out blk_sz = Some res ->
  do_ursparse fuel' malloc_ok fd_in fd_out blk_sz = Some res.
Proof using Hfuel.
  unfold do_ursparse. destruct (in_rewind fd_in) as [r f].
  destruct (r =? -1); [trivial|]. destruct (negb malloc_ok); [trivial|].
  intros H.
  destruct (read_loop fuel fuel f blk_sz zeroed fd_out) as [l|] eqn:Hl; [|discriminate].
  now rewrite (read_loop_mono _ _ _ _ _ _ _ Hfuel Hl).
Qed.

Lemma do_sparse_loop_mono src o start end_ res :
  do_sparse_loop fuel src o start end_ = Some res ->
  do_sparse_loop fuel' src o start end_ = Some res.
Proof using Hfuel.
  revert Hfuel. clear. revert fuel' o start end_.
  induction fuel as [|f IH]; intros f' o start end_ Hle H; [discriminate|].
  destruct f' as [|f']; [lia|]. simpl in *.
  destruct (src_seek_data src start) as [start' e1].
  destruct (start' =? -1); [exact H|].
  destruct (src_seek_hole src start') as [end' e2].
  destruct (end' =? -1); [exact H|].
  destruct (do_sparse_data _ _ _ _) as [r o1].
  destruct (negb (r =? 0)); [exact H|]. apply IH; [lia | exact H].
Qed.

(** And so for the encoder. *)
Lemma do_sparse_mono src o res :
  do_sparse fuel src o = Some res -> do_sparse fuel' src o = Some res.
Proof using Hfuel.
  unfold do_sparse. destruct (negb (src_seekable src)); [trivial|].
  intros H.
  destruct (do_sparse_loop fuel src o 0 0) as [l|] eqn:Hl; [|discriminate].
  now rewrite (do_sparse_loop_mono _ _ _ _ _ Hl).
Qed.

End FuelMonotone.

(** * Further properties of the decoder *)

(** ** What [do_meat] leaves in the file *)

Lemma store_bytes_app pos a b m :
  store_bytes pos (a ++ b) m = store_bytes (pos + Z.of_nat (length a)) b (store_bytes pos a m).
Proof.
  revert pos m. induction a as [|x a IH]; intros pos m; simpl.
  - now rewrite Z.add_0_r.
  - rewrite IH. f_equal. lia.
Qed.

Lemma store_bytes_lookup_lt pos data m i :
  i < pos -> store_bytes pos data m !! i = m !! i.
Proof.
  revert pos m. induction data as [|x data IH]; intros pos m Hi; simpl; [reflexivity|].
  rewrite IH by lia. apply lookup_insert_ne. lia.
Qed.

Lemma store_bytes_lookup pos data m i :
  store_bytes pos data m !! i
  = if (pos <=? i) && (i <? pos + Z.of_nat (length data))
    then data !! Z.to_nat (i - pos) else m !! i.
Proof.
  revert pos m. induction data as [|x data IH]; intros pos m.
  - simpl. rewrite Z.add_0_r.
    destruct (pos <=? i) eqn:H1, (i <? pos) eqn:H2; simpl; try reflexivity.
    apply Z.leb_le in H1. apply Z.ltb_lt in H2. lia.
  - cbn [store_bytes]. rewrite IH. cbn [length].
    destruct (Z.eq_dec i pos) as [-> | Hne].
    + cmp_false (pos + 1 <=? pos). cmp_true (pos <=? pos).
      cmp_true (pos <? pos + Z.of_nat (S (length data))). simpl.
      rewrite Z.sub_diag. simpl. apply lookup_insert_eq.
    + destruct (pos <=? i) eqn:H1.
      * apply Z.leb_le in H1. cmp_true (pos + 1 <=? i).
        replace (i <? pos + 1 + Z.of_nat (length data))
          with (i <? pos + Z.of_nat (S (length data))) by (f_equal; lia).
        simpl. destruct (i <? pos + Z.of_nat (S (length data))).
        -- replace (Z.to_nat (i - pos)) with (S (Z.to_nat (i - (pos + 1)))) by lia.
           reflexivity.
        -- apply lookup_insert_ne. lia.
      * apply Z.leb_gt in H1. cmp_false (pos + 1 <=? i). simpl.
        apply lookup_insert_ne. lia.
Qed.

(** Whatever the outcome of the loop, the bytes that reached the file are a
    prefix of the buffer, stored at consecutive offsets from the position of
    the descriptor, and the count reported is their number. *)
Lemma do_meat_loop_inv fuel s buff written_bytes r w s' :
  do_meat_loop fuel s buff written_bytes = Some (r, w, s') ->
  exists k : nat,
    (k <= length buff)%nat
    /\ w = written_bytes + Z.of_nat k
    /\ out_data s' = store_bytes (out_pos s) (take k buff) (out_data s)
    /\ out_pos s' = out_pos s + Z.of_nat k
    /\ out_seekable s' = out_seekable s
    /\ (r = -4 /\ In WriteError (out_faults s) \/ k = length buff /\ r = to_int w).
Proof.
  revert s buff written_bytes.
  induction fuel as [|fuel IH]; intros s buff wb H.
  - destruct buff; [|discriminate]. inversion H; subst.
    exists 0%nat. simpl. rewrite !Z.add_0_r. repeat split; auto.
  - destruct buff as [|c buff].
    { inversion H; subst. exists 0%nat. simpl. rewrite !Z.add_0_r. repeat split; auto. }
    cbn [do_meat_loop] in H. unfold sys_write in H.
    destruct (out_faults s) as [|[|n] faults].
    + assert (E : (Z.of_nat (length (c :: buff)) =? -1) = false)
        by (apply Z.eqb_neq; lia).
      rewrite E, Nat2Z.id, drop_all, do_meat_loop_end in H. inversion H; subst.
      exists (length (c :: buff)). rewrite firstn_all. repeat split; auto.
    + cbn [Z.eqb] in H. inversion H; subst.
      exists 0%nat. simpl. rewrite !Z.add_0_r. repeat split; auto. lia.
    + set (j := length (take n (c :: buff))) in *.
      assert (E : (Z.of_nat j =? -1) = false) by (apply Z.eqb_neq; lia).
      rewrite E, Nat2Z.id in H.
      apply IH in H as (k & Hk & Hw & Hdata & Hpos & Hseek & Hr).
      assert (Hj : take n (c :: buff) = take j (c :: buff)).
      { unfold j. rewrite length_take.
        destruct (Nat.le_ge_cases n (length (c :: buff))) as [Hle | Hge].
        - now rewrite Nat.min_l.
        - rewrite Nat.min_r by assumption. now rewrite !take_ge by lia. }
      assert (Hjle : (j <= length (c :: buff))%nat).
      { unfold j. rewrite length_take. lia. }
      rewrite length_drop in Hk.
      exists (j + k)%nat. cbn [sink_put out_data out_pos out_seekable] in *.
      fold j in Hpos, Hdata. clearbody j.
      split; [lia|]. split; [lia|]. split; [|split; [|split; [assumption|]]].
      3: { destruct Hr as [[Hr Hin] | [Hk' Hr]]; [left; split; [assumption | now right]|].
           right. rewrite length_drop in Hk'. split; [lia | assumption]. }
      2: { rewrite Hpos. lia. }
      rewrite Hdata, <- take_take_drop, store_bytes_app, Hj.
      rewrite length_take, Nat.min_l by assumption. reflexivity.
Qed.

(** What a call of [do_meat] that returns has written. *)
Lemma do_meat_prefix fuel s buff out_sz r w s' :
  buff <> [] ->
  do_meat fuel s buff out_sz = Some (r, w, s') ->
  0 <= w <= Z.of_nat (length buff)
  /\ out_data s' = store_bytes (out_pos s) (take (Z.to_nat w) buff) (out_data s)
  /\ out_pos s' = out_pos s + w
  /\ (r = -4 \/ w = Z.of_nat (length buff) /\ r = to_int w).
Proof.
  intros Hne H. unfold do_meat in H. destruct buff as [|c buff]; [contradiction|].
  apply do_meat_loop_inv in H as (k & Hk & -> & Hdata & Hpos & _ & Hr).
  rewrite Z.add_0_l, Nat2Z.id. repeat split; try lia; try assumption.
  destruct Hr as [[Hr _] | [-> Hr]]; [now left | right]. split; [reflexivity | exact Hr].
Qed.

(** The outcome of the loop against the script of the file: the [write]
    calls made are those of [pre], none of which failed, and then either a
    failing one, which ends the loop with -4 before the buffer is out, or
    none, the buffer being out. *)
Lemma do_meat_loop_script fuel s buff written_bytes r w s' :
  do_meat_loop fuel s buff written_bytes = Some (r, w, s') ->
  exists (k : nat) (pre : list write_fault),
    (k <= length buff)%nat
    /\ w = written_bytes + Z.of_nat k
    /\ out_data s' = store_bytes (out_pos s) (take k buff) (out_data s)
    /\ out_pos s' = out_pos s + Z.of_nat k
    /\ no_write_error pre
    /\ (r = -4 /\ (k < length buff)%nat
        /\ out_faults s = pre ++ WriteError :: out_faults s'
        \/ r = to_int w /\ k = length buff
           /\ out_faults s = pre ++ out_faults s').
Proof.
  revert s buff written_bytes.
  induction fuel as [|fuel IH]; intros s buff wb H.
  - destruct buff; [|discriminate]. inversion H; subst.
    exists 0%nat, []. simpl. rewrite !Z.add_0_r.
    repeat split; auto. constructor.
  - destruct buff as [|c buff].
    { inversion H; subst. exists 0%nat, []. simpl. rewrite !Z.add_0_r.
      repeat split; auto. constructor. }
    cbn [do_meat_loop] in H. unfold sys_write in H.
    destruct (out_faults s) as [|[|n] faults] eqn:Hfaults.
    + assert (E : (Z.of_nat (length (c :: buff)) =? -1) = false)
        by (apply Z.eqb_neq; lia).
      rewrite E, Nat2Z.id, drop_all, do_meat_loop_end in H. inversion H; subst.
      exists (length (c :: buff)), []. rewrite firstn_all.
      repeat split; auto. constructor.
    + cbn [Z.eqb] in H. inversion H; subst.
      exists 0%nat, []. simpl. rewrite !Z.add_0_r.
      repeat split; auto; [lia | constructor | left; repeat split; auto; lia].
    + set (j := length (take n (c :: buff))) in *.
      assert (E : (Z.of_nat j =? -1) = false) by (apply Z.eqb_neq; lia).
      rewrite E, Nat2Z.id in H.
      apply IH in H as (k & pre & Hk & Hw & Hdata & Hpos & Hpre & Hr).
      assert (Hj : take n (c :: buff) = take j (c :: buff)).
      { unfold j. rewrite length_take.
        destruct (Nat.le_ge_cases n (length (c :: buff))) as [Hle | Hge].
        - now rewrite Nat.min_l.
        - rewrite Nat.min_r by assumption. now rewrite !take_ge by lia. }
      assert (Hjle : (j <= length (c :: buff))%nat).
      { unfold j. rewrite length_take. lia. }
      rewrite length_drop in Hk.
      exists (j + k)%nat, (WriteShort n :: pre).
      cbn [sink_put out_data out_pos out_faults] in *.
      fold j in Hpos, Hdata. clearbody j.
      split; [lia|]. split; [lia|]. split; [|split; [|split]].
      * rewrite Hdata, <- take_take_drop, store_bytes_app, Hj.
        rewrite length_take, Nat.min_l by assumption. reflexivity.
      * rewrite Hpos. lia.
      * constructor; [discriminate | assumption].
      * rewrite length_drop in Hr.
        destruct Hr as [(Hr & Hlt & Hscr) | (Hr & Hk' & Hscr)].
        -- left. split; [assumption|]. split; [lia|]. now rewrite Hscr.
        -- right. split; [assumption|]. split; [lia|]. now rewrite Hscr.
Qed.

(** What a call of [do_meat] that returns has done, against the script of the
    file. *)
Lemma do_meat_outcome fuel s buff out_sz r w s' :
  buff <> [] ->
  do_meat fuel s buff out_sz = Some (r, w, s') ->
  0 <= w <= Z.of_nat (length buff)
  /\ out_data s' = store_bytes (out_pos s) (take (Z.to_nat w) buff) (out_data s)
  /\ out_pos s' = out_pos s + w
  /\ exists pre,
       no_write_error pre
       /\ (r = -4 /\ w < Z.of_nat (length buff)
           /\ out_faults s = pre ++ WriteError :: out_faults s'
           \/ r = to_int w /\ w = Z.of_nat (length buff)
              /\ out_faults s = pre ++ out_faults s').
Proof.
  intros Hne H. unfold do_meat in H. destruct buff as [|c buff]; [contradiction|].
  apply do_meat_loop_script in H as (k & pre & Hk & -> & Hdata & Hpos & Hpre & Hr).
  rewrite Z.add_0_l, Nat2Z.id. repeat split; try lia; try assumption.
  exists pre. split; [assumption|].
  rewrite Z.add_0_l in Hr.
  destruct Hr as [(Hr & Hlt & Hscr) | (Hr & -> & Hscr)].
  - left. repeat split; [assumption | lia | assumption].
  - right. repeat split; assumption.
Qed.

(** X1: [do_meat] reports what it wrote, and fails exactly on a failed
    write.  For a non-empty buffer, whatever the file does, a call that
    returns has stored a prefix of the buffer at consecutive offsets from the
    position of the descriptor, has advanced the descriptor by the length of
    that prefix and reports that length in [*out_sz].  The [write] calls it
    made are the next ones of the file, [pre], none of which failed, followed
    by: either one that failed, and then the result is -4 and the prefix is
    not the whole buffer; or no further call, and then the prefix is the
    whole buffer and the result is its length (as an [int]).  So a call on a
    file that accepts its writes never returns -4. *)
Theorem do_meat_writes_prefix fuel s buff out_sz r w s' :
  buff <> [] ->
  do_meat fuel s buff out_sz = Some (r, w, s') ->
  0 <= w <= Z.of_nat (length buff)
  /\ out_data s' = store_bytes (out_pos s) (take (Z.to_nat w) buff) (out_data s)
  /\ out_pos s' = out_pos s + w
  /\ exists pre,
       no_write_error pre
       /\ (r = -4 /\ w < Z.of_nat (length buff)
           /\ out_faults s = pre ++ WriteError :: out_faults s'
           \/ r = to_int w /\ w = Z.of_nat (length buff)
              /\ out_faults s = pre ++ out_faults s').
Proof. apply do_meat_outcome. Qed.

Lemma do_meat_writes_prefix_witness :
  exists r w s',
    do_meat 5 flaky_file (bytes "ABCDE") 0 = Some (r, w, s')
    /\ 0 <= w <= 5
    /\ out_data s' = store_bytes 10 (take (Z.to_nat w) (bytes "ABCDE")) ∅
    /\ out_pos s' = 10 + w
    /\ exists pre,
         no_write_error pre
         /\ (r = -4 /\ w < 5
             /\ [WriteShort 2; WriteError] = pre ++ WriteError :: out_faults s'
             \/ r = to_int w /\ w = 5
                /\ [WriteShort 2; WriteError] = pre ++ out_faults s').
Proof.
  eexists _, _, _. split; [reflexivity|].
  apply (do_meat_writes_prefix 5 flaky_file (bytes "ABCDE") 0); [discriminate | reflexivity].
Defined.

(** The loop ends as soon as the script of faults is used up. *)
Lemma do_meat_loop_terminates fuel s buff written_bytes :
  (length (out_faults s) < fuel)%nat ->
  exists res, do_meat_loop fuel s buff written_bytes = Some res.
Proof.
  revert s buff written_bytes.
  induction fuel as [|fuel IH]; intros s buff wb Hfuel; [lia|].
  destruct buff as [|c buff]; [eexists; reflexivity|].
  cbn [do_meat_loop]. unfold sys_write.
  destruct (out_faults s) as [|[|n] faults] eqn:Hf.
  - cmp_false (Z.of_nat (length (c :: buff)) =? -1).
    rewrite Nat2Z.id, drop_all, do_meat_loop_end. eexists; reflexivity.
  - eexists; reflexivity.
  - cmp_false (Z.of_nat (length (take n (c :: buff))) =? -1).
    apply IH. simpl in *. lia.
Qed.

(** While [write] accepts nothing the loop goes on calling it: [n] such
    calls do not end it. *)
Lemma do_meat_loop_zero_writes n s buff written_bytes rest :
  buff <> [] -> out_faults s = repeat (WriteShort 0) n ++ rest ->
  do_meat_loop n s buff written_bytes = None.
Proof.
  intros Hne. revert s written_bytes.
  induction n as [|n IH]; intros s wb Hscr.
  - destruct buff; [contradiction | reflexivity].
  - destruct buff as [|c buff]; [contradiction|].
    cbn [do_meat_loop]. unfold sys_write. rewrite Hscr. cbn [repeat app take length].
    cbn [Z.of_nat Z.eqb Z.to_nat drop]. apply IH. reflexivity.
Qed.

(** X2: short writes are retried until the buffer is out, without a limit.
    When only finitely many of the coming [write] calls are short (each
    accepts part of what it is offered, or nothing), none fails, and the
    calls after them accept all they are offered, [do_meat] on a non-empty
    buffer returns the length of the buffer, reports it in [*out_sz], and
    leaves the whole buffer in the file at the position the descriptor had,
    the descriptor advanced past it: the same content as after one complete
    write.  The loop has no limit of its own: when the next [n] calls accept
    nothing, [n] iterations do not end it (a [write] that accepted nothing
    for ever would keep it running). *)
Theorem do_meat_retries_short_writes fuel s buff out_sz :
  buff <> [] ->
  no_write_error (out_faults s) ->
  (length (out_faults s) < fuel)%nat ->
  (exists s',
     do_meat fuel s buff out_sz
     = Some (to_int (Z.of_nat (length buff)), Z.of_nat (length buff), s')
     /\ out_data s' = store_bytes (out_pos s) buff (out_data s)
     /\ out_pos s' = out_pos s + Z.of_nat (length buff))
  /\ (forall n rest,
        out_faults s = repeat (WriteShort 0) n ++ rest ->
        do_meat n s buff out_sz = None).
Proof.
  intros Hne Hok Hfuel. split.
  - unfold do_meat.
    destruct buff as [|c buff]; [contradiction|].
    destruct (do_meat_loop_terminates fuel s (c :: buff) 0 Hfuel) as [[[r w] s'] H].
    rewrite H. exists s'.
    apply do_meat_loop_inv in H as (k & Hk & -> & Hdata & Hpos & _ & Hr).
    destruct Hr as [[_ Hin] | [-> ->]].
    + exfalso. unfold no_write_error in Hok. rewrite Forall_forall in Hok.
      apply (Hok WriteError); [apply list_elem_of_In; exact Hin | reflexivity].
    + rewrite firstn_all in Hdata. rewrite Z.add_0_l. auto.
  - intros n rest Hscr. unfold do_meat.
    destruct buff as [|c buff]; [contradiction|].
    now apply (do_meat_loop_zero_writes n s (c :: buff) 0 rest).
Qed.

(** [slow_file]: four short writes, two of which accept nothing; the fifth
    call completes the buffer. *)
Lemma do_meat_retries_short_writes_witness :
  (exists s',
     do_meat 5 slow_file (bytes "ABCDE") 0 = Some (to_int 5, 5, s')
     /\ out_data s' = store_bytes 10 (bytes "ABCDE") ∅
     /\ out_pos s' = 10 + 5)
  /\ (forall n rest,
        [WriteShort 0; WriteShort 2; WriteShort 0; WriteShort 1]
        = repeat (WriteShort 0) n ++ rest ->
        do_meat n slow_file (bytes "ABCDE") 0 = None).
Proof.
  apply (do_meat_retries_short_writes 5 slow_file (bytes "ABCDE") 0).
  - discriminate.
  - repeat constructor; discriminate.
  - simpl. lia.
Defined.

(** ** Every call that does not fail consumes input *)

Lemma uint_loop_eob l i n k n' : uint_loop l i n = ScanEob k n' -> k = i + Z.of_nat (length l).
Proof.
  revert i n. induction l as [|c l IH]; intros i n H; simpl in *.
  - inversion H. lia.
  - destruct (is_digit c); [apply IH in H; lia|]. destruct (is_blank c); discriminate.
Qed.

Lemma uint_scan_eob buff n k n' :
  uint_scan buff n = ScanEob k n' -> k = Z.of_nat (length buff).
Proof.
  unfold uint_scan. destruct (n =? 0).
  - destruct (skip_while is_blank buff 0) as [j rem] eqn:Hskip.
    apply skip_while_inv in Hskip as (ws & -> & _ & _ & ->).
    intros H. apply uint_loop_eob in H. rewrite length_app. lia.
  - intros H. apply uint_loop_eob in H. lia.
Qed.

(** What [parse_uint] reports when it does not fail: a count within the
    buffer, positive when more input is asked for. *)
Lemma parse_uint_count buff out_sz n r o n' :
  parse_uint buff out_sz n = (r, o, n') -> 0 <= r ->
  0 <= o <= Z.of_nat (length buff) /\ (r <> 0 -> 0 < o).
Proof.
  unfold parse_uint. destruct buff as [|c buff]; [intros [= <- <- <-]; lia|].
  destruct (uint_scan (c :: buff) n) as [k m|m|k m] eqn:Hscan; intros [= <- <- <-] Hr.
  - apply (uint_scan_app_done _ []) in Hscan as [_ Hk]. lia.
  - lia.
  - apply uint_scan_eob in Hscan. subst k. simpl length. lia.
Qed.

Lemma parse_newline_count buff out_sz r o :
  parse_newline buff out_sz = (r, o) -> 0 <= r -> 0 < o <= Z.of_nat (length buff).
Proof.
  unfold parse_newline. destruct buff as [|c buff]; [intros [= <- <-]; lia|].
  destruct (skip_while is_space (c :: buff) 0) as [j rem] eqn:Hskip.
  apply skip_while_inv in Hskip as (ws & Hsplit & _ & _ & ->).
  assert (Hlen : length (c :: buff) = (length ws + length rem)%nat).
  { rewrite Hsplit. apply length_app. }
  destruct rem as [|x rem].
  - intros [= <- <-] _. simpl in Hlen. simpl length. lia.
  - destruct (is_newline x); intros [= <- <-] Hr; [|lia].
    simpl in Hlen. simpl length. lia.
Qed.

Lemma phase_meat_progress fuel buff extra_sz out_sz d s r o d' s' :
  phase_meat fuel buff extra_sz out_sz d s = Some (r, o, d', s') -> 0 <= r ->
  extra_sz < o <= extra_sz + Z.of_nat (length buff).
Proof.
  unfold phase_meat.
  set (n := if _ <? _ then _ else _).
  destruct (take (Z.to_nat n) buff) as [|c t] eqn:Htake.
  { simpl. intros [= <- <- <- <-]. lia. }
  destruct (do_meat fuel s (c :: t) out_sz) as [[[r1 w] s1]|] eqn:Hm; [|discriminate].
  cbn [mbind option_bind].
  apply do_meat_prefix in Hm as (Hw & _ & _ & Hr1); [|discriminate].
  assert (Hlen : (length (c :: t) <= length buff)%nat).
  { rewrite <- Htake, length_take. lia. }
  destruct (r1 <? 0) eqn:Hneg.
  { apply Z.ltb_lt in Hneg. intros [= <- <- <- <-]. lia. }
  apply Z.ltb_ge in Hneg.
  destruct Hr1 as [-> | [-> _]]; [lia|].
  destruct (_ <? Z.of_nat (length (c :: t))); [intros [= <- <- <- <-]; lia|].
  cbn [set_size ursparse_of size].
  destruct (_ =? 0); intros [= <- <- <- <-] _; simpl length in *; lia.
Qed.

Lemma phase_newline_progress fuel buff extra_sz out_sz d s r o d' s' :
  0 <= extra_sz ->
  phase_newline fuel buff extra_sz out_sz d s = Some (r, o, d', s') -> 0 <= r ->
  0 < o <= extra_sz + Z.of_nat (length buff).
Proof.
  intros He. unfold phase_newline.
  destruct (parse_newline buff out_sz) as [r1 o1] eqn:Hp.
  destruct (r1 <? 0) eqn:Hneg.
  { apply Z.ltb_lt in Hneg. intros [= <- <- <- <-]. lia. }
  apply Z.ltb_ge in Hneg. apply parse_newline_count in Hp as Ho; [|assumption].
  destruct (0 <? r1); [intros [= <- <- <- <-]; lia|].
  destruct (do_hole s _) as [r2 s2].
  destruct (r2 <? 0); [intros [= <- <- <- <-]; lia|].
  intros H Hr. apply phase_meat_progress in H; [|assumption].
  rewrite length_drop in H. lia.
Qed.

Lemma phase_size_progress fuel buff extra_sz out_sz d s r o d' s' :
  0 <= extra_sz ->
  phase_size fuel buff extra_sz out_sz d s = Some (r, o, d', s') -> 0 <= r ->
  0 < o <= extra_sz + Z.of_nat (length buff).
Proof.
  intros He. unfold phase_size.
  destruct (parse_uint buff out_sz _) as [[r1 o1] n1] eqn:Hp.
  destruct (r1 <? 0) eqn:Hneg.
  { apply Z.ltb_lt in Hneg. intros [= <- <- <- <-]. lia. }
  apply Z.ltb_ge in Hneg. apply parse_uint_count in Hp as [Ho Hpos]; [|assumption].
  destruct (0 <? r1) eqn:Hmore.
  { apply Z.ltb_lt in Hmore. intros [= <- <- <- <-]. lia. }
  intros H Hr. apply phase_newline_progress in H; [|lia|assumption].
  rewrite length_drop in H. lia.
Qed.

Lemma phase_offset_progress fuel buff extra_sz out_sz d s r o d' s' :
  0 <= extra_sz ->
  phase_offset fuel buff extra_sz out_sz d s = Some (r, o, d', s') -> 0 <= r ->
  0 < o <= extra_sz + Z.of_nat (length buff).
Proof.
  intros He. unfold phase_offset.
  destruct (parse_uint buff out_sz _) as [[r1 o1] n1] eqn:Hp.
  destruct (r1 <? 0) eqn:Hneg.
  { apply Z.ltb_lt in Hneg. intros [= <- <- <- <-]. lia. }
  apply Z.ltb_ge in Hneg. apply parse_uint_count in Hp as [Ho Hpos]; [|assumption].
  destruct (0 <? r1) eqn:Hmore.
  { apply Z.ltb_lt in Hmore. intros [= <- <- <- <-]. lia. }
  intros H Hr. apply phase_size_progress in H; [|lia|assumption].
  rewrite length_drop in H. lia.
Qed.

(** X3: a call of [parse_ursparse] that does not fail (return value 0 or
    positive) reports a bytes-consumed count of at least one byte and at most
    the size of its buffer, whatever the decoder state and the behaviour of
    the output file.  So the cursor of [do_ursparse] always advances and never
    leaves the block. *)
Theorem parse_ursparse_progress fuel buff out_sz d s r o d' s' :
  parse_ursparse fuel buff out_sz d s = Some (r, o, d', s') -> 0 <= r ->
  0 < o <= Z.of_nat (length buff).
Proof.
  unfold parse_ursparse. destruct buff as [|c buff]; [intros [= <- <- <- <-]; lia|].
  destruct (state d); intros H Hr.
  - inversion H; subst. lia.
  - apply phase_offset_progress in H; lia.
  - apply phase_offset_progress in H; lia.
  - apply phase_size_progress in H; lia.
  - apply phase_newline_progress in H; lia.
  - apply phase_meat_progress in H; lia.
Qed.

Lemma parse_ursparse_progress_witness :
  exists r o d' s',
    parse_ursparse 1 (bytes "10 5" ++ NL :: bytes "AB") 0 zeroed empty_file
    = Some (r, o, d', s')
    /\ 0 < o <= 7.
Proof.
  eexists _, _, _, _. split; [reflexivity|].
  apply (parse_ursparse_progress 1 (bytes "10 5" ++ NL :: bytes "AB") 0 zeroed empty_file
           7 _ _ _ eq_refl).
  lia.
Defined.

(** ** What [%ld] prints is what [parse_uint] reads *)

Lemma digit_range c : is_digit c = true -> 0 <= char_code c - 48 <= 9.
Proof.
  unfold is_digit. intros H. apply andb_true_iff in H as [H1 H2].
  apply Z.leb_le in H1, H2. lia.
Qed.

Lemma plain_value_ge ds n :
  all_digit ds -> 0 <= n -> n <= fold_left plain_digit ds n.
Proof.
  unfold all_digit. revert n. induction ds as [|c ds IH]; intros n Hds Hn; simpl in *; [lia|].
  apply andb_true_iff in Hds as [Hc Hds]. apply digit_range in Hc.
  etransitivity; [|apply IH; [assumption | unfold plain_digit; lia]].
  unfold plain_digit. lia.
Qed.

(** Below 2^63 the accumulator of [parse_uint] never wraps. *)
Lemma uint_value_plain ds n :
  all_digit ds -> 0 <= n -> fold_left plain_digit ds n < 2 ^ 63 ->
  uint_value n ds = fold_left plain_digit ds n.
Proof.
  unfold uint_value. revert n.
  induction ds as [|c ds IH]; intros n Hds Hn Hlt; simpl in *; [reflexivity|].
  pose proof Hds as Hds'. unfold all_digit in Hds'. simpl in Hds'.
  apply andb_true_iff in Hds' as [Hc Hds']. pose proof (digit_range c Hc) as Hd.
  assert (Hv : 0 <= plain_digit n c) by (unfold plain_digit; lia).
  pose proof (plain_value_ge ds (plain_digit n c) Hds' Hv) as Hge.
  assert (Hp : push_digit n c = plain_digit n c).
  { unfold push_digit, plain_digit in *.
    rewrite (to_off_small (n * 10)) by lia. apply to_off_small. lia. }
  rewrite Hp. now apply IH.
Qed.

Lemma uint_chars_digits d : all_digit (bytes (NilEmpty.string_of_uint d)).
Proof.
  unfold all_digit. induction d; simpl; trivial.
Qed.

Lemma plain_value_acc d acc :
  fold_left plain_digit (bytes (NilEmpty.string_of_uint d)) (Z.pos acc)
  = Z.pos (Pos.of_uint_acc d acc).
Proof.
  revert acc. induction d; intros acc; simpl; [reflexivity|..];
    rewrite <- IHd; f_equal; unfold plain_digit;
    match goal with
    | |- context [char_code ?c] =>
        let v := eval vm_compute in (char_code c) in change (char_code c) with v
    end; lia.
Qed.

Lemma plain_value_zero d :
  fold_left plain_digit (bytes (NilEmpty.string_of_uint d)) 0 = Z.of_N (Pos.of_uint d).
Proof.
  induction d; simpl; [reflexivity | exact IHd | ..];
    match goal with
    | |- fold_left _ _ ?v = _ => change v with (Z.pos (Z.to_pos v)); cbn [Z.to_pos]
    end; now rewrite plain_value_acc.
Qed.

(** The decimal text of a non-negative [off_t] consists of digits, and the
    digit loop of [parse_uint] started on 0 accumulates the number itself. *)
Lemma print_ld_parsed z :
  0 <= z < 2 ^ 63 ->
  all_digit (print_ld z) /\ print_ld z <> [] /\ uint_value 0 (print_ld z) = z.
Proof.
  intros Hz. split; [|split; [apply print_ld_nonempty|]].
  - destruct z as [|p|p]; [reflexivity| |lia].
    unfold print_ld, NilZero.string_of_int, Z.to_int, NilZero.string_of_uint.
    destruct (Pos.to_uint p); try apply uint_chars_digits. reflexivity.
  - destruct z as [|p|p]; [reflexivity| |lia].
    assert (Hprint : print_ld (Z.pos p) = bytes (NilEmpty.string_of_uint (Pos.to_uint p))).
    { unfold print_ld, NilZero.string_of_int, Z.to_int, NilZero.string_of_uint.
      pose proof (Unsigned.to_uint_nonnil p). now destruct (Pos.to_uint p). }
    rewrite Hprint.
    assert (Hplain : fold_left plain_digit (bytes (NilEmpty.string_of_uint (Pos.to_uint p))) 0
                     = Z.pos p).
    { now rewrite plain_value_zero, Unsigned.of_to. }
    rewrite uint_value_plain; [exact Hplain | apply uint_chars_digits | lia | lia].
Qed.

(** ** Whole records *)

(** The payload phase on a buffer that holds all that is left of the segment,
    and maybe more: the rest of the payload is written and the decoder is
    reset. *)
Lemma phase_meat_complete fuel payload rest extra_sz out_sz d s :
  out_faults s = [] -> payload <> [] ->
  size (ursparse_of d) = Z.of_nat (length payload) ->
  Z.of_nat (length payload) <= INT_MAX ->
  phase_meat (S fuel) (payload ++ rest) extra_sz out_sz d s
  = Some (0, Z.of_nat (length payload) + extra_sz, zeroed, sink_put payload [] s).
Proof.
  intros Hf Hne Hsz Hint. unfold INT_MAX in Hint. unfold phase_meat.
  rewrite Hsz, to_size_small by lia.
  set (n := if _ <? _ then _ else _).
  assert (Htake : take (Z.to_nat n) (payload ++ rest) = payload).
  { subst n. rewrite length_app.
    destruct (_ <? _) eqn:Hlt.
    - rewrite Nat2Z.id. apply take_app_length.
    - apply Z.ltb_ge in Hlt. destruct rest; [|simpl in Hlt; lia].
      rewrite app_nil_r. apply take_ge. simpl. lia. }
  clearbody n. rewrite Htake, do_meat_all by assumption. cbn [mbind option_bind].
  rewrite to_int_small by lia.
  cmp_false (Z.of_nat (length payload) <? 0).
  rewrite Z.ltb_irrefl, Z.sub_diag. reflexivity.
Qed.

(** One call on a buffer that holds a whole record. *)
Lemma parse_ursparse_whole_record fuel n st ws1 ds1 b ws2 ds2 sp payload rest out_sz s :
  header_fields ws1 ds1 b ws2 ds2 sp -> starts_field n ws1 ds1 ->
  st = PARSE_START \/ st = PARSE_OFFSET ->
  out_seekable s = true -> out_faults s = [] -> 0 <= uint_value n ds1 ->
  payload <> [] -> uint_value 0 ds2 = Z.of_nat (length payload) ->
  Z.of_nat (length payload) <= INT_MAX ->
  parse_ursparse (S fuel) (header ws1 ds1 b ws2 ds2 sp ++ payload ++ rest) out_sz
    (in_segment n 0 st) s
  = Some (0,
          Z.of_nat (length (header ws1 ds1 b ws2 ds2 sp) + length payload),
          zeroed,
          sink_put payload [] (snd (sys_lseek_set s (uint_value n ds1)))).
Proof.
  intros Hfields Hstart Hst Hseek Hf Hoff Hne Hlen Hint. unfold parse_ursparse.
  destruct (header ws1 ds1 b ws2 ds2 sp ++ payload ++ rest) eqn:Hbuf.
  { unfold header in Hbuf. destruct ws1, ds1; discriminate. }
  rewrite <- Hbuf. clear Hbuf.
  assert (Hphase :
    phase_offset (S fuel) (header ws1 ds1 b ws2 ds2 sp ++ payload ++ rest) 0 out_sz
      (in_segment n 0 PARSE_OFFSET) s
    = Some (0, Z.of_nat (length (header ws1 ds1 b ws2 ds2 sp) + length payload), zeroed,
            sink_put payload [] (snd (sys_lseek_set s (uint_value n ds1))))).
  { rewrite phase_offset_header by assumption. cbn zeta.
    rewrite Hseek. cmp_true (0 <=? uint_value n ds1). cbn [andb].
    rewrite phase_meat_complete; try assumption.
    - rewrite Nat2Z.inj_add. do 2 f_equal. f_equal. f_equal. lia.
    - unfold sys_lseek_set. rewrite Hseek. cmp_true (0 <=? uint_value n ds1). assumption. }
  destruct Hst as [-> | ->]; exact Hphase.
Qed.



(** ** Chunk boundaries that do no harm *)

Lemma parse_ursparse_resume_meat fuel payload rest out_sz off s :
  out_faults s = [] -> payload <> [] -> Z.of_nat (length payload) <= INT_MAX ->
  parse_ursparse (S fuel) (payload ++ rest) out_sz
    (in_segment off (Z.of_nat (length payload)) PARSE_MEAT) s
  = Some (0, Z.of_nat (length payload), zeroed, sink_put payload [] s).
Proof.
  intros Hf Hne Hint. unfold parse_ursparse.
  destruct (payload ++ rest) eqn:Hbuf; [destruct payload; [contradiction | discriminate]|].
  rewrite <- Hbuf. cbn [state in_segment].
  rewrite phase_meat_complete by (assumption || reflexivity).
  now rewrite Z.add_0_r.
Qed.

(** X5: a chunk boundary inside the payload does no harm.  When the first
    buffer holds the header and a first part [p1] of the payload, and the
    second buffer the rest [p2] of it (and anything after), the first call
    asks for more having consumed its whole buffer, the second returns 0
    having consumed [p2] only, the decoder is reset, and the file holds the
    same bytes at the same offsets, with the same size and descriptor
    position, as after decoding the record from one buffer. *)
Theorem payload_split_harmless fuel ws1 ds1 b ws2 ds2 sp p1 p2 rest s :
  well_formed_header ws1 ds1 b ws2 ds2 sp ->
  out_seekable s = true -> out_faults s = [] -> 0 <= uint_value 0 ds1 ->
  p1 <> [] -> p2 <> [] ->
  uint_value 0 ds2 = Z.of_nat (length p1 + length p2) ->
  Z.of_nat (length (header ws1 ds1 b ws2 ds2 sp) + length p1 + length p2) <= INT_MAX ->
  let hd := header ws1 ds1 b ws2 ds2 sp in
  exists s1 s2,
    parse_ursparse (S fuel) (hd ++ (p1 ++ p2) ++ rest) 0 zeroed s
    = Some (0, Z.of_nat (length hd + length (p1 ++ p2)), zeroed, s1)
    /\ parse_calls (S fuel) [(hd ++ p1, 0); (p2 ++ rest, 0)] zeroed s
       = Some ([Z.of_nat (length (hd ++ p1)); 0], zeroed, s2)
    /\ out_data s2 = out_data s1
    /\ out_pos s2 = out_pos s1
    /\ out_size s2 = out_size s1
    /\ out_data s1 = store_bytes (uint_value 0 ds1) (p1 ++ p2) (out_data s).
Proof.
  intros Hwf Hseek Hf Hoff Hp1 Hp2 Hlen Hint hd. unfold INT_MAX in Hint.
  set (s0 := snd (sys_lseek_set s (uint_value 0 ds1))).
  assert (Hs0 : s0 = {| out_seekable := out_seekable s; out_pos := uint_value 0 ds1;
                        out_size := out_size s; out_data := out_data s;
                        out_faults := out_faults s;
                        out_trace := out_trace s ++ [OpSeek (uint_value 0 ds1)] |}).
  { unfold s0, sys_lseek_set. rewrite Hseek. cmp_true (0 <=? uint_value 0 ds1). reflexivity. }
  exists (sink_put (p1 ++ p2) [] s0), (sink_put p2 [] (sink_put p1 [] s0)).
  split; [|split].
  - change zeroed with (in_segment 0 0 PARSE_START) at 1.
    apply parse_ursparse_whole_record; try assumption.
    + apply Hwf.
    + left. split; [reflexivity | apply Hwf].
    + now left.
    + destruct p1; [contradiction | discriminate].
    + now rewrite length_app.
    + rewrite length_app. unfold INT_MAX. lia.
  - cbn [parse_calls]. unfold hd.
    rewrite parse_ursparse_partial; try assumption.
    + cbn [mbind option_bind]. fold s0.
      replace (uint_value 0 ds2 - Z.of_nat (length p1)) with (Z.of_nat (length p2)) by lia.
      rewrite parse_ursparse_resume_meat.
      * reflexivity.
      * reflexivity.
      * assumption.
      * unfold INT_MAX. lia.
    + destruct p1, p2; try contradiction. simpl length in *. lia.
    + rewrite length_app. unfold INT_MAX. lia.
  - rewrite Hs0. cbn [sink_put out_data out_pos out_size].
    rewrite store_bytes_app, !length_app.
    repeat split; try reflexivity; lia.
Qed.

Lemma payload_split_harmless_witness :
  exists s1 s2,
    parse_ursparse 1 (header [] (bytes "10") SP [] (bytes "5") [] ++ (bytes "AB" ++ bytes "CDE") ++ [])
      0 zeroed empty_file
    = Some (0, Z.of_nat (length (header [] (bytes "10") SP [] (bytes "5") [])
                         + length (bytes "AB" ++ bytes "CDE")), zeroed, s1)
    /\ parse_calls 1 [(header [] (bytes "10") SP [] (bytes "5") [] ++ bytes "AB", 0);
                      (bytes "CDE" ++ [], 0)] zeroed empty_file
       = Some ([Z.of_nat (length (header [] (bytes "10") SP [] (bytes "5") [] ++ bytes "AB")); 0],
               zeroed, s2)
    /\ out_data s2 = out_data s1
    /\ out_pos s2 = out_pos s1
    /\ out_size s2 = out_size s1
    /\ out_data s1 = store_bytes (uint_value 0 (bytes "10")) (bytes "AB" ++ bytes "CDE") ∅.
Proof.
  apply (payload_split_harmless 0 [] (bytes "10") SP [] (bytes "5") [] (bytes "AB")
           (bytes "CDE") [] empty_file).
  - unfold well_formed_header, header_fields. repeat split; (reflexivity || discriminate).
  - reflexivity.
  - reflexivity.
  - vm_compute. discriminate.
  - discriminate.
  - discriminate.
  - reflexivity.
  - vm_compute. discriminate.
Defined.

(** A buffer that ends inside the offset field: blanks and digits only. *)
Lemma parse_ursparse_offset_prefix fuel ws ds out_sz st s :
  all_blank ws -> all_digit ds -> ws ++ ds <> [] ->
  st = PARSE_START \/ st = PARSE_OFFSET ->
  Z.of_nat (length (ws ++ ds)) <= INT_MAX ->
  parse_ursparse fuel (ws ++ ds) out_sz (in_segment 0 0 st) s
  = Some (Z.of_nat (length (ws ++ ds)), Z.of_nat (length (ws ++ ds)),
          in_segment (uint_value 0 ds) 0 PARSE_OFFSET, s).
Proof.
  intros Hws Hds Hne Hst Hint. unfold INT_MAX in Hint. unfold parse_ursparse.
  destruct (ws ++ ds) eqn:Hbuf; [contradiction|]. rewrite <- Hbuf in *. clear Hbuf.
  assert (Hscan : uint_scan (ws ++ ds) 0
                  = ScanEob (Z.of_nat (length (ws ++ ds))) (uint_value 0 ds)).
  { rewrite <- (app_nil_r ds) at 1. rewrite uint_scan_field; try assumption.
    - simpl. now rewrite length_app.
    - left. split; [reflexivity|]. rewrite app_nil_r.
      destruct ds as [|c ds]; [exact I|]. simpl.
      unfold all_digit in Hds. simpl in Hds. apply andb_true_iff in Hds as [Hc _].
      now apply digit_not_blank. }
  assert (Hphase : phase_offset fuel (ws ++ ds) 0 out_sz (in_segment 0 0 PARSE_OFFSET) s
                   = Some (Z.of_nat (length (ws ++ ds)), Z.of_nat (length (ws ++ ds)),
                           in_segment (uint_value 0 ds) 0 PARSE_OFFSET, s)).
  { unfold phase_offset, parse_uint. cbn [in_segment ursparse_of offset].
    rewrite Hscan. destruct (ws ++ ds) eqn:Hbuf; [contradiction|]. rewrite <- Hbuf in *.
    rewrite to_int_small by lia.
    cmp_false (Z.of_nat (length (ws ++ ds)) <? 0).
    assert (Hpos : 0 < Z.of_nat (length (ws ++ ds))) by (rewrite Hbuf; simpl; lia).
    cmp_true (0 <? Z.of_nat (length (ws ++ ds))). reflexivity. }
  destruct Hst as [-> | ->]; exact Hphase.
Qed.

(** X6: a chunk boundary inside the digits of the offset does no harm, as
    long as the digits read so far do not accumulate to 0.  The first call
    consumes its buffer and asks for more without touching the output; the
    second, on the rest of the record, returns 0 and leaves the decoder reset
    and the output exactly as the single call on the whole record does. *)
Theorem offset_split_harmless fuel ws1 da db b ws2 ds2 sp payload rest s :
  header_fields ws1 (da ++ db) b ws2 ds2 sp ->
  uint_value 0 da <> 0 ->
  Z.of_nat (length (ws1 ++ da)) <= INT_MAX ->
  out_seekable s = true -> out_faults s = [] -> 0 <= uint_value 0 (da ++ db) ->
  payload <> [] -> uint_value 0 ds2 = Z.of_nat (length payload) ->
  Z.of_nat (length payload) <= INT_MAX ->
  exists o s',
    parse_ursparse (S fuel) (header ws1 (da ++ db) b ws2 ds2 sp ++ payload ++ rest) 0 zeroed s
    = Some (0, o, zeroed, s')
    /\ parse_calls (S fuel)
         [(ws1 ++ da, 0); (header [] db b ws2 ds2 sp ++ payload ++ rest, 0)] zeroed s
       = Some ([Z.of_nat (length (ws1 ++ da)); 0], zeroed, s').
Proof.
  intros Hfields Hda Hint Hseek Hf Hoff Hne Hlen Hpl.
  pose proof Hfields as (Hws1 & Hds1 & Hb & Hws2 & Hds2 & Hne2 & Hsp).
  assert (Hdab : all_digit da /\ all_digit db).
  { unfold all_digit in *. rewrite forallb_app in Hds1. now apply andb_true_iff in Hds1. }
  destruct Hdab as [Hdig_a Hdig_b].
  assert (Hda_ne : da <> []) by (intros ->; now apply Hda).
  assert (Hval : uint_value (uint_value 0 da) db = uint_value 0 (da ++ db)).
  { unfold uint_value. now rewrite fold_left_app. }
  eexists _, _. split.
  - change zeroed with (in_segment 0 0 PARSE_START) at 1.
    apply parse_ursparse_whole_record; try assumption.
    + left. split; [reflexivity|]. destruct da; [contradiction | discriminate].
    + now left.
  - cbn [parse_calls]. change zeroed with (in_segment 0 0 PARSE_START) at 1.
    rewrite parse_ursparse_offset_prefix; try assumption.
    + cbn [mbind option_bind].
      rewrite parse_ursparse_whole_record; try assumption.
      * cbn [mbind option_bind]. now rewrite Hval.
      * unfold header_fields. repeat split; assumption.
      * right. now split.
      * now right.
      * now rewrite Hval.
    + destruct ws1, da; try discriminate. contradiction.
    + now left.
Qed.

Lemma offset_split_harmless_witness :
  exists o s',
    parse_ursparse 1 (header [] (bytes "1" ++ bytes "0") SP [] (bytes "5") []
                      ++ bytes "ABCDE" ++ []) 0 zeroed empty_file
    = Some (0, o, zeroed, s')
    /\ parse_calls 1 [([] ++ bytes "1", 0);
                      (header [] (bytes "0") SP [] (bytes "5") [] ++ bytes "ABCDE" ++ [], 0)]
         zeroed empty_file
       = Some ([Z.of_nat (length ([] ++ bytes "1")); 0], zeroed, s').
Proof.
  apply (offset_split_harmless 0 [] (bytes "1") (bytes "0") SP [] (bytes "5") []
           (bytes "ABCDE") [] empty_file).
  - unfold header_fields. repeat split; (reflexivity || discriminate).
  - vm_compute. discriminate.
  - vm_compute. discriminate.
  - reflexivity.
  - reflexivity.
  - vm_compute. discriminate.
  - discriminate.
  - reflexivity.
  - vm_compute. discriminate.
Defined.

(** ** Streams of records *)

Lemma encode_record_header r :
  Z.of_nat (length (snd r)) <= INT_MAX ->
  encode_record r
  = header [] (print_ld (fst r)) SP [] (print_ld (Z.of_nat (length (snd r)))) [] ++ snd r.
Proof.
  intros Hint. unfold INT_MAX in Hint. unfold encode_record, header_line, header.
  rewrite to_off_small by lia. reflexivity.
Qed.

Lemma write_record_ready s r :
  out_seekable s = true -> out_faults s = [] ->
  out_seekable (write_record s r) = true /\ out_faults (write_record s r) = [].
Proof.
  intros Hseek Hf. unfold write_record, sys_lseek_set.
  destruct (out_seekable s && (0 <=? fst r)); simpl; auto.
Qed.

(** One call decodes the record at the head of the buffer. *)
Lemma decode_encoded_record fuel r rest out_sz s :
  decodable r -> out_seekable s = true -> out_faults s = [] ->
  parse_ursparse (S fuel) (encode_record r ++ rest) out_sz zeroed s
  = Some (0, Z.of_nat (length (encode_record r)), zeroed, write_record s r).
Proof.
  intros (Hoff & Hne & Hint) Hseek Hf.
  assert (Hlen : 0 <= Z.of_nat (length (snd r)) < 2 ^ 63) by (unfold INT_MAX in Hint; lia).
  destruct (print_ld_parsed (fst r) Hoff) as (Hd1 & Hn1 & Hv1).
  destruct (print_ld_parsed _ Hlen) as (Hd2 & Hn2 & Hv2).
  rewrite encode_record_header by assumption. rewrite <- app_assoc.
  change zeroed with (in_segment 0 0 PARSE_START) at 1.
  rewrite parse_ursparse_whole_record; try assumption.
  - rewrite Hv1, length_app. reflexivity.
  - unfold header_fields. repeat split; (assumption || reflexivity).
  - left. now split.
  - now left.
  - rewrite Hv1. lia.
Qed.

Lemma encode_record_nonempty r : encode_record r <> [].
Proof.
  unfold encode_record, header_line. pose proof (print_ld_nonempty (fst r)).
  destruct (print_ld (fst r)); [contradiction | discriminate].
Qed.

(** The loop over a block that holds records from the cursor on. *)
Lemma feed_block_records fuel n rs pre s :
  Forall decodable rs -> out_seekable s = true -> out_faults s = [] ->
  (length rs <= n)%nat ->
  feed_block (S fuel) n (pre ++ encode_records rs) (Z.of_nat (length pre)) zeroed s
  = Some (Next, zeroed, fold_left write_record rs s).
Proof.
  intros Hrs. revert n pre s.
  induction Hrs as [|r rs Hr Hrs IH]; intros n pre s Hseek Hf Hn.
  - apply feed_block_done. unfold encode_records. simpl. rewrite app_nil_r. lia.
  - destruct n as [|n]; [simpl in Hn; lia|].
    assert (Hrec : encode_records (r :: rs) = encode_record r ++ encode_records rs)
      by reflexivity.
    pose proof (encode_record_nonempty r) as Hne.
    rewrite feed_block_step.
    2:{ rewrite Hrec, !length_app. destruct (encode_record r); [contradiction|]. simpl. lia. }
    rewrite Nat2Z.id, drop_app_length, Hrec.
    rewrite decode_encoded_record by assumption. cbn [mbind option_bind Z.ltb Z.compare].
    destruct (write_record_ready s r Hseek Hf) as [Hseek' Hf'].
    specialize (IH n (pre ++ encode_record r) (write_record s r) Hseek' Hf').
    rewrite length_app, Nat2Z.inj_add, <- app_assoc in IH.
    rewrite IH by (simpl in Hn; lia). reflexivity.
Qed.

(** The decoder on a stream of records that fits one block. *)
Lemma do_ursparse_records fuel rs s blk_sz :
  Forall decodable rs -> out_seekable s = true -> out_faults s = [] ->
  Z.of_nat (length (encode_records rs)) <= blk_sz ->
  (length rs + 2 <= fuel)%nat ->
  do_ursparse fuel true (file_of (encode_records rs)) s blk_sz
  = Some (0, file_at_end (encode_records rs), fold_left write_record rs s).
Proof.
  intros Hrs Hseek Hf Hblk Hfuel.
  destruct fuel as [|[|fuel]]; [lia | lia |].
  unfold do_ursparse. cbn [in_rewind file_of in_seekable in_bytes in_faults Z.eqb negb].
  change {| in_seekable := true; in_bytes := encode_records rs; in_pos := 0;
            in_faults := [] |} with (file_of (encode_records rs)).
  rewrite read_loop_step, sys_read_whole by assumption.
  cmp_false (Z.of_nat (length (encode_records rs)) =? -1).
  destruct (Z.of_nat (length (encode_records rs)) =? 0) eqn:Hempty.
  - destruct rs as [|r rs]; [reflexivity|].
    apply Z.eqb_eq in Hempty. exfalso.
    pose proof (encode_record_nonempty r) as Hne.
    change (encode_records (r :: rs)) with (encode_record r ++ encode_records rs) in Hempty.
    rewrite length_app in Hempty. destruct (encode_record r); [contradiction|].
    simpl in Hempty. lia.
  - pose proof (feed_block_records (S fuel) (S (S fuel)) rs [] s Hrs Hseek Hf) as Hfeed.
    change (Z.of_nat (length (@nil ascii))) with 0 in Hfeed. cbn [app] in Hfeed.
    rewrite Hfeed by (simpl in Hfuel; lia).
    cbn [mbind option_bind]. rewrite read_loop_step, sys_read_at_end. reflexivity.
Qed.

(** X7: a stream of records read in one block is decoded record by record.
    For records with offsets an [off_t] holds and payloads that are not empty
    (and no longer than [INT_MAX]), written one after the other as
    [do_sparse_data] writes them, [do_ursparse] on a seekable output that
    accepts every write returns 0 after, for each record in turn, a seek to
    its offset and one write of its payload.  The stream may be empty. *)
Theorem decode_encoded_stream fuel rs s blk_sz :
  Forall decodable rs -> out_seekable s = true -> out_faults s = [] ->
  Z.of_nat (length (encode_records rs)) <= blk_sz ->
  (length rs + 2 <= fuel)%nat ->
  do_ursparse fuel true (file_of (encode_records rs)) s blk_sz
  = Some (0, file_at_end (encode_records rs), fold_left write_record rs s).
Proof. apply do_ursparse_records. Qed.

Lemma decode_encoded_stream_witness :
  do_ursparse 4 true (file_of (encode_records [(10, bytes "ABCDE"); (2, bytes "xy")]))
    empty_file 4096
  = Some (0, file_at_end (encode_records [(10, bytes "ABCDE"); (2, bytes "xy")]),
          fold_left write_record [(10, bytes "ABCDE"); (2, bytes "xy")] empty_file).
Proof.
  apply (decode_encoded_stream 4 [(10, bytes "ABCDE"); (2, bytes "xy")] empty_file 4096).
  - repeat constructor; simpl; try lia; try discriminate; vm_compute; discriminate.
  - reflexivity.
  - reflexivity.
  - vm_compute. discriminate.
  - simpl. lia.
Defined.

(** ** C10: the rewind of the input *)

(** From a regular file without read faults whose content fits one block,
    the parser is given the content from its first byte, wherever the
    descriptor stood. *)
Lemma do_ursparse_from_start fuel f s blk_sz :
  in_seekable f = true -> in_faults f = [] ->
  Z.of_nat (length (in_bytes f)) <= blk_sz ->
  do_ursparse (S (S fuel)) true f s blk_sz
  = match in_bytes f with
    | [] => Some (0, file_at_end [], s)
    | _ =>
        '(c, _, s') ← feed_block (S (S fuel)) (S (S fuel)) (in_bytes f) 0 zeroed s;
        Some (match c with Return code => code | Next => 0 end,
              file_at_end (in_bytes f), s')
    end.
Proof.
  intros Hseek Hfaults Hblk. unfold do_ursparse, in_rewind. rewrite Hseek, Hfaults.
  cbn [Z.eqb negb].
  change {| in_seekable := true; in_bytes := in_bytes f; in_pos := 0; in_faults := [] |}
    with (file_of (in_bytes f)).
  rewrite read_loop_step, sys_read_whole by assumption.
  cmp_false (Z.of_nat (length (in_bytes f)) =? -1).
  destruct (in_bytes f) as [|c content] eqn:Hbytes; [reflexivity|].
  replace (Z.of_nat (length (c :: content)) =? 0) with false
    by (symmetry; apply Z.eqb_neq; simpl length; lia).
  destruct (feed_block (S (S fuel)) (S (S fuel)) (c :: content) 0 zeroed s)
    as [[[[|code] d] s']|]; cbn [mbind option_bind]; try reflexivity.
  rewrite read_loop_step, sys_read_at_end. reflexivity.
Qed.

(** C10: [do_ursparse] begins by seeking its input to offset 0.  On an input
    that cannot seek the run returns 1 with the input and the output
    untouched: no byte was read.  On one that can, the run does not depend
    on where the descriptor stood; and what is read is read from offset 0:
    for a file without read faults whose content fits one block, the parser
    is given the whole content from its first byte, and the run ends with
    the descriptor at the end of the file. *)
Theorem do_ursparse_rewinds_first fuel malloc_ok f s blk_sz :
  (in_seekable f = false -> do_ursparse fuel malloc_ok f s blk_sz = Some (1, f, s))
  /\ (in_seekable f = true ->
      in_pos (snd (in_rewind f)) = 0%nat
      /\ do_ursparse fuel malloc_ok f s blk_sz
         = do_ursparse fuel malloc_ok (snd (in_rewind f)) s blk_sz)
  /\ (in_seekable f = true -> in_faults f = [] ->
      Z.of_nat (length (in_bytes f)) <= blk_sz ->
      do_ursparse (S (S fuel)) true f s blk_sz
      = match in_bytes f with
        | [] => Some (0, file_at_end [], s)
        | _ =>
            '(c, _, s') ← feed_block (S (S fuel)) (S (S fuel)) (in_bytes f) 0 zeroed s;
            Some (match c with Return code => code | Next => 0 end,
                  file_at_end (in_bytes f), s')
        end).
Proof.
  split; [|split].
  - unfold do_ursparse, in_rewind. intros ->. reflexivity.
  - unfold do_ursparse, in_rewind. intros ->. simpl. auto.
  - apply do_ursparse_from_start.
Qed.

(** A pipe is refused; a file whose descriptor stands at offset 7, inside the
    payload of its one record, is decoded from its first byte. *)
Lemma do_ursparse_rewinds_first_witness :
  do_ursparse 5 true (pipe_of record_10_5) empty_file 4096
  = Some (1, pipe_of record_10_5, empty_file)
  /\ do_ursparse 2 true (file_from 7 record_10_5) empty_file 4096
     = Some (0, file_at_end record_10_5, file_10_5).
Proof.
  split.
  - exact (proj1 (do_ursparse_rewinds_first 5 true (pipe_of record_10_5) empty_file 4096)
             eq_refl).
  - refine (eq_trans
              (proj2 (proj2 (do_ursparse_rewinds_first 0 true (file_from 7 record_10_5)
                               empty_file 4096)) eq_refl eq_refl _) _).
    + vm_compute. discriminate.
    + vm_compute. reflexivity.
Defined.

(** ** Outputs that cannot seek, inputs that stop early *)

(** X8: an output that cannot seek is refused at the first record.  When
    the first block read holds a whole header and the seek to its offset
    fails (the output is a pipe or a terminal, or the offset field has
    wrapped to a negative [off_t]), [do_ursparse] returns 4 and nothing has
    been done to the output. *)
Theorem unseekable_output_rejected fuel ws1 ds1 b ws2 ds2 sp rest s blk_sz :
  well_formed_header ws1 ds1 b ws2 ds2 sp ->
  out_seekable s && (0 <=? uint_value 0 ds1) = false ->
  Z.of_nat (length (header ws1 ds1 b ws2 ds2 sp)) <= blk_sz ->
  exit_code (do_ursparse (S fuel) true
               (file_of (header ws1 ds1 b ws2 ds2 sp ++ rest)) s blk_sz) = Some 4
  /\ output_of (do_ursparse (S fuel) true
                  (file_of (header ws1 ds1 b ws2 ds2 sp ++ rest)) s blk_sz) = Some s.
Proof.
  intros [Hfields Hne] Hseek Hblk.
  set (hdr := header ws1 ds1 b ws2 ds2 sp) in *.
  assert (Hhdr : hdr <> []).
  { unfold hdr, header. destruct ws1, ds1; discriminate. }
  assert (Hrun : do_ursparse (S fuel) true (file_of (hdr ++ rest)) s blk_sz
                 = Some (4, snd (sys_read (file_of (hdr ++ rest)) blk_sz), s)).
  { unfold do_ursparse.
    cbn [in_rewind file_of in_seekable in_bytes in_faults Z.eqb negb].
    change {| in_seekable := true; in_bytes := hdr ++ rest; in_pos := 0;
              in_faults := [] |} with (file_of (hdr ++ rest)).
    rewrite read_loop_step.
    unfold sys_read, in_take. cbn [file_of in_faults in_pos in_bytes in_seekable snd].
    rewrite drop_0, take_app_ge by lia.
    set (rest' := take (Z.to_nat blk_sz - length hdr) rest).
    assert (Hlen : 0 < Z.of_nat (length (hdr ++ rest'))).
    { rewrite length_app. destruct hdr; [contradiction | simpl; lia]. }
    cmp_false (Z.of_nat (length (hdr ++ rest')) =? -1).
    cmp_false (Z.of_nat (length (hdr ++ rest')) =? 0).
    rewrite feed_block_step by assumption.
    change (Z.to_nat 0) with 0%nat. rewrite drop_0.
    unfold parse_ursparse. destruct (hdr ++ rest') eqn:Hbuf.
    { destruct hdr; [contradiction | discriminate]. }
    rewrite <- Hbuf. cbn [state zeroed].
    change (set_state PARSE_OFFSET zeroed) with (in_segment 0 0 PARSE_OFFSET).
    unfold hdr. rewrite phase_offset_header;
      [|assumption | left; split; [reflexivity | assumption]].
    cbn zeta. rewrite Hseek. reflexivity. }
  rewrite Hrun. split; reflexivity.
Qed.

Lemma unseekable_output_rejected_witness :
  exit_code (do_ursparse 1 true
               (file_of (header [] (bytes "10") SP [] (bytes "5") [] ++ bytes "ABCDE"))
               pipe_output 4096) = Some 4
  /\ output_of (do_ursparse 1 true
                  (file_of (header [] (bytes "10") SP [] (bytes "5") [] ++ bytes "ABCDE"))
                  pipe_output 4096) = Some pipe_output.
Proof.
  apply (unseekable_output_rejected 0 [] (bytes "10") SP [] (bytes "5") [] (bytes "ABCDE")).
  - unfold well_formed_header, header_fields. repeat split; (reflexivity || discriminate).
  - reflexivity.
  - vm_compute. discriminate.
Defined.

(** X9: an input that stops before its first record is complete raises no
    error.  An input that is empty, holds blanks only, or ends inside the
    digits of the first offset field, read in one block, makes [do_ursparse]
    return 0 with the output untouched. *)
Theorem input_ending_in_offset_accepted fuel ws ds s blk_sz :
  all_blank ws -> all_digit ds ->
  Z.of_nat (length (ws ++ ds)) <= blk_sz -> Z.of_nat (length (ws ++ ds)) <= INT_MAX ->
  do_ursparse (S (S fuel)) true (file_of (ws ++ ds)) s blk_sz
  = Some (0, file_at_end (ws ++ ds), s).
Proof.
  intros Hws Hds Hblk Hint. unfold do_ursparse.
  cbn [in_rewind file_of in_seekable in_bytes in_faults Z.eqb negb].
  change {| in_seekable := true; in_bytes := ws ++ ds; in_pos := 0;
            in_faults := [] |} with (file_of (ws ++ ds)).
  rewrite read_loop_step, sys_read_whole by assumption.
  cmp_false (Z.of_nat (length (ws ++ ds)) =? -1).
  destruct (Z.of_nat (length (ws ++ ds)) =? 0) eqn:Hempty; [reflexivity|].
  apply Z.eqb_neq in Hempty.
  assert (Hne : ws ++ ds <> []).
  { intros Hnil. rewrite Hnil in Hempty. now apply Hempty. }
  rewrite feed_block_step by lia.
  change (Z.to_nat 0) with 0%nat. rewrite drop_0.
  change zeroed with (in_segment 0 0 PARSE_START) at 1.
  rewrite parse_ursparse_offset_prefix; [|assumption | assumption | assumption | now left | assumption].
  cbn [mbind option_bind].
  cmp_false (Z.of_nat (length (ws ++ ds)) <? 0).
  rewrite feed_block_done by lia. cbn [mbind option_bind].
  rewrite read_loop_step, sys_read_at_end. reflexivity.
Qed.

Lemma input_ending_in_offset_accepted_witness :
  do_ursparse 2 true (file_of ([SP; NL] ++ bytes "10")) empty_file 4096
  = Some (0, file_at_end ([SP; NL] ++ bytes "10"), empty_file).
Proof.
  apply (input_ending_in_offset_accepted 0 [SP; NL] (bytes "10") empty_file 4096).
  - reflexivity.
  - reflexivity.
  - vm_compute. discriminate.
  - vm_compute. discriminate.
Defined.

(** * Further properties of the encoder *)

(** ** The walk over the extents of a Linux file *)

Lemma extents_from_weaken lo lo' fsize extents :
  lo' <= lo -> extents_from lo fsize extents -> extents_from lo' fsize extents.
Proof. destruct extents as [|[a b] rest]; simpl; [trivial|]. intuition lia. Qed.

(** Extents that end at or before [off] do not count for the lookups. *)
Lemma next_data_skip done todo off :
  Forall (fun '(a, b) => b <= off) done ->
  next_data (done ++ todo) off = next_data todo off.
Proof.
  induction 1 as [|[a b] done Hb _ IH]; simpl; [reflexivity|].
  cmp_false (off <? b). exact IH.
Qed.

Lemma next_hole_skip done todo off :
  Forall (fun '(a, b) => a <= off /\ b <= off) done ->
  next_hole (done ++ todo) off = next_hole todo off.
Proof.
  induction 1 as [|[a b] done [Ha Hb] _ IH]; simpl; [reflexivity|].
  cmp_false (off <? a). cmp_false (off <? b). exact IH.
Qed.

Lemma next_data_none done off :
  Forall (fun '(a, b) => b <= off) done -> next_data done off = None.
Proof. intros H. rewrite <- (app_nil_r done). now rewrite next_data_skip. Qed.

Lemma walking_done_ends fsize start done todo :
  walking fsize start done todo -> Forall (fun '(a, b) => b <= start) done.
Proof.
  intros (_ & H & _). eapply Forall_impl; [exact H|]. intros [a b]. tauto.
Qed.

(** At the end of the extents the lookup of data answers [ENXIO]. *)
Lemma linux_seek_data_end content done start :
  walking (Z.of_nat (length content)) start done [] ->
  src_seek_data (linux_file content done) start = (-1, ENXIO).
Proof.
  intros Hw. cbn [linux_file src_seek_data].
  destruct ((start <? 0) || (Z.of_nat (length content) <=? start)); [reflexivity|].
  now rewrite (next_data_none done start (walking_done_ends _ _ _ _ Hw)).
Qed.

(** Before an extent the two lookups answer its start and its end. *)
Lemma linux_seek_extent content done a b todo start :
  walking (Z.of_nat (length content)) start done ((a, b) :: todo) ->
  src_seek_data (linux_file content (done ++ (a, b) :: todo)) start = (a, ENXIO)
  /\ src_seek_hole (linux_file content (done ++ (a, b) :: todo)) a = (b, ENXIO)
  /\ 0 <= a /\ a < b
  /\ walking (Z.of_nat (length content)) b (done ++ [(a, b)]) todo.
Proof.
  intros Hw. pose proof (walking_done_ends _ _ _ _ Hw) as Hends.
  destruct Hw as (Hstart & Hdone & Hlo & Hab & Hb & Htodo).
  cbn [linux_file src_seek_data src_seek_hole].
  cmp_false (start <? 0). cmp_false (Z.of_nat (length content) <=? start).
  cmp_false (a <? 0). cmp_false (Z.of_nat (length content) <=? a). cbn [orb].
  rewrite next_data_skip by assumption. cbn [next_data]. cmp_true (start <? b).
  rewrite Z.max_r by lia.
  rewrite next_hole_skip.
  2:{ eapply Forall_impl; [exact Hdone|]. intros [x y]. lia. }
  cbn [next_hole]. rewrite Z.ltb_irrefl. cmp_true (a <? b).
  repeat split; try lia.
  - apply Forall_app. split.
    + eapply Forall_impl; [exact Hdone|]. intros [x y]. lia.
    + repeat constructor; lia.
  - eapply extents_from_weaken; [|exact Htodo]. lia.
Qed.

Lemma do_sparse_loop_linux fuel content done todo start end_ o :
  walking (Z.of_nat (length content)) start done todo ->
  short_extents todo ->
  os_writable o = true -> os_faults o = [] ->
  (length todo < fuel)%nat ->
  exists e,
    do_sparse_loop fuel (linux_file content (done ++ todo)) o start end_
    = Some (Break (-1) e, os_append (encode_records (records_of content todo)) [] o).
Proof.
  revert done start end_ o fuel.
  induction todo as [|[a b] todo IH]; intros done start end_ o fuel Hw Hshort Hwr Hf Hfuel.
  - destruct fuel as [|fuel]; [simpl in Hfuel; lia|].
    rewrite app_nil_r. cbn [do_sparse_loop].
    rewrite linux_seek_data_end by assumption. cbn [Z.eqb].
    exists end_. unfold os_append. cbn [records_of encode_records map concat].
    rewrite app_nil_r, <- Hf. now destruct o.
  - destruct fuel as [|fuel]; [simpl in Hfuel; lia|].
    destruct (linux_seek_extent _ _ _ _ _ _ Hw) as (Hdata & Hhole & Ha & Hab & Hw').
    inversion Hshort as [|x l Hlen Hshort']; subst.
    pose proof Hw as (_ & _ & _ & _ & Hb & _).
    cbn [do_sparse_loop]. rewrite Hdata. cmp_false (a =? -1).
    rewrite Hhole. cmp_false (b =? -1).
    unfold INT_MAX in Hlen.
    rewrite to_size_small by lia.
    rewrite do_sparse_data_full by (try assumption; unfold INT_MAX; lia).
    cbn [Z.eqb negb].
    cbn [linux_file src_bytes].
    set (payload := take (Z.to_nat (b - a)) (drop (Z.to_nat a) content)).
    assert (Hpl : Z.of_nat (length payload) = b - a).
    { unfold payload. rewrite length_take, length_drop. lia. }
    set (o1 := os_append (header_line a (b - a) ++ payload) [] o).
    replace (done ++ (a, b) :: todo) with ((done ++ [(a, b)]) ++ todo)
      by now rewrite <- app_assoc.
    destruct (IH (done ++ [(a, b)]) b b o1 fuel Hw' Hshort' Hwr eq_refl) as [e He].
    { simpl in Hfuel. lia. }
    exists e. rewrite He. f_equal. f_equal.
    unfold o1, os_append. cbn [os_bytes os_writable]. f_equal.
    rewrite <- app_assoc. f_equal.
    change (records_of content ((a, b) :: todo))
      with ((a, payload) :: records_of content todo).
    change (encode_records ((a, payload) :: records_of content todo))
      with (encode_record (a, payload) ++ encode_records (records_of content todo)).
    f_equal. unfold encode_record. cbn [fst snd]. now rewrite Hpl.
Qed.

(** The encoder on a file with a well-formed extent map. *)
Lemma do_sparse_linux_file fuel content extents o :
  extents_from 0 (Z.of_nat (length content)) extents ->
  short_extents extents ->
  os_writable o = true -> os_faults o = [] ->
  (length extents < fuel)%nat ->
  do_sparse fuel (linux_file content extents) o
  = Some (0, os_append (encode_records (records_of content extents)) [] o).
Proof.
  intros Hext Hshort Hw Hf Hfuel. unfold do_sparse. cbn [linux_file src_seekable negb].
  destruct (do_sparse_loop_linux fuel content [] extents 0 0 o) as [e He];
    try assumption.
  { unfold walking. repeat split; [lia | constructor | assumption]. }
  cbn [app] in He. change (src_seekable _) with true. cbn [negb].
  fold (linux_file content extents). rewrite He. reflexivity.
Qed.

(** X10: the encoder writes one record per data extent.  For a file whose
    extent map (as Linux reports it) is a list of non-empty data extents in
    increasing order with holes between them, none longer than [INT_MAX],
    [do_sparse] on a writable output without short copies returns 0 and has
    appended, for each extent in order, the header line of its start and
    length and then its bytes; nothing else.  A file without data extents
    (empty, or one hole) gives no output at all. *)
Theorem do_sparse_writes_extents fuel content extents o :
  extents_from 0 (Z.of_nat (length content)) extents ->
  short_extents extents ->
  os_writable o = true -> os_faults o = [] ->
  (length extents < fuel)%nat ->
  do_sparse fuel (linux_file content extents) o
  = Some (0, os_append (encode_records (records_of content extents)) [] o).
Proof. apply do_sparse_linux_file. Qed.

Lemma do_sparse_writes_extents_witness :
  do_sparse 3 (linux_file holey_content holey_extents) empty_stream
  = Some (0, os_append (encode_records (records_of holey_content holey_extents)) []
               empty_stream).
Proof.
  apply (do_sparse_writes_extents 3 holey_content holey_extents empty_stream).
  - vm_compute. repeat split; discriminate.
  - repeat constructor; vm_compute; discriminate.
  - reflexivity.
  - reflexivity.
  - simpl. lia.
Defined.

(** ** C3: the extent that runs to the end of the file *)





(** A copy that fails: the header of the record is already in the output. *)
Lemma do_sparse_data_copy_error src o start sz faults :
  os_writable o = true -> os_faults o = CopyError :: faults ->
  do_sparse_data src o start sz
  = (-1, os_append [] faults (os_append (header_line start sz) (CopyError :: faults) o)).
Proof.
  intros Hw Hf. unfold do_sparse_data, sys_dprintf. rewrite Hw.
  pose proof (header_line_length start sz) as Hlen.
  cmp_false (Z.of_nat (length (header_line start sz)) <? 4).
  unfold do_sparse_copy_data, sys_copy_file_range. cbn [os_append os_faults].
  rewrite Hf. reflexivity.
Qed.

(** X11: a failed copy leaves a header without its payload.  When the
    [copy_file_range] of the first data extent fails, [do_sparse] returns 2,
    and the output has grown by the header line of that extent and nothing
    else: the stream now ends in a record whose payload is missing. *)
Theorem copy_error_leaves_header fuel content a b extents o faults :
  extents_from 0 (Z.of_nat (length content)) ((a, b) :: extents) ->
  os_writable o = true -> os_faults o = CopyError :: faults ->
  exists o',
    do_sparse (S fuel) (linux_file content ((a, b) :: extents)) o = Some (2, o')
    /\ os_bytes o' = os_bytes o ++ header_line a (to_size (b - a)).
Proof.
  intros Hext Hw Hf.
  assert (Hwalk : walking (Z.of_nat (length content)) 0 [] ((a, b) :: extents)).
  { unfold walking. repeat split; [lia | constructor | apply Hext..]. }
  destruct (linux_seek_extent _ _ _ _ _ _ Hwalk) as (Hdata & Hhole & Ha & Hab & _).
  cbn [app] in Hdata, Hhole.
  eexists. unfold do_sparse.
  change (src_seekable (linux_file content ((a, b) :: extents))) with true.
  cbn [negb do_sparse_loop]. rewrite Hdata. cmp_false (a =? -1).
  rewrite Hhole. cmp_false (b =? -1).
  rewrite (do_sparse_data_copy_error _ o a _ faults Hw Hf).
  cbn [Z.eqb negb mbind option_bind]. split; [reflexivity|].
  cbn [os_append os_bytes]. now rewrite app_nil_r.
Qed.

Lemma copy_error_leaves_header_witness :
  exists o',
    do_sparse 1 (linux_file holey_content [(0, 2); (6, 8)]) failing_copy_stream
    = Some (2, o')
    /\ os_bytes o' = os_bytes failing_copy_stream ++ header_line 0 (to_size (2 - 0)).
Proof.
  apply (copy_error_leaves_header 0 holey_content 0 2 [(6, 8)] failing_copy_stream []).
  - vm_compute. repeat split; discriminate.
  - reflexivity.
  - reflexivity.
Defined.

(** ** do_map *)

Lemma map_lines_cons a b extents :
  map_lines ((a, b) :: extents) = header_line a (b - a) ++ map_lines extents.
Proof. reflexivity. Qed.

Lemma do_map_loop_linux fuel content done todo start end_ out :
  walking (Z.of_nat (length content)) start done todo ->
  (length todo < fuel)%nat ->
  exists e,
    do_map_loop fuel (linux_file content (done ++ todo)) out start end_
    = Some (Break (-1) e, out ++ map_lines todo).
Proof.
  revert done start end_ out fuel.
  induction todo as [|[a b] todo IH]; intros done start end_ out fuel Hw Hfuel.
  - destruct fuel as [|fuel]; [simpl in Hfuel; lia|].
    rewrite app_nil_r. cbn [do_map_loop].
    rewrite linux_seek_data_end by assumption. cbn [Z.eqb].
    exists end_. unfold map_lines. cbn [map concat]. now rewrite app_nil_r.
  - destruct fuel as [|fuel]; [simpl in Hfuel; lia|].
    destruct (linux_seek_extent _ _ _ _ _ _ Hw) as (Hdata & Hhole & Ha & Hab & Hw').
    cbn [do_map_loop]. rewrite Hdata. cmp_false (a =? -1).
    rewrite Hhole. cmp_false (b =? -1).
    replace (done ++ (a, b) :: todo) with ((done ++ [(a, b)]) ++ todo)
      by now rewrite <- app_assoc.
    destruct (IH (done ++ [(a, b)]) b b (out ++ header_line a (b - a)) fuel Hw')
      as [e He].
    { simpl in Hfuel. lia. }
    exists e. rewrite He, map_lines_cons, app_assoc. reflexivity.
Qed.

(** X12: [do_map] prints one line per data extent.  For a file whose extent
    map is a list of non-empty data extents in increasing order with holes
    between them, [do_map] returns 0 and has printed, for each extent in
    order, its start and its length in decimal, separated by one space and
    ended by a newline; for a file without data it prints nothing. *)
Theorem do_map_prints_extents fuel content extents out :
  extents_from 0 (Z.of_nat (length content)) extents ->
  (length extents < fuel)%nat ->
  do_map fuel (linux_file content extents) out = Some (0, out ++ map_lines extents).
Proof.
  intros Hext Hfuel. unfold do_map.
  change (src_seekable (linux_file content extents)) with true. cbn [negb].
  destruct (do_map_loop_linux fuel content [] extents 0 0 out) as [e He];
    try assumption.
  { unfold walking. repeat split; [lia | constructor | assumption]. }
  cbn [app] in He. rewrite He. reflexivity.
Qed.

Lemma do_map_prints_extents_witness :
  do_map 3 (linux_file holey_content holey_extents) []
  = Some (0, [] ++ bytes "0 2" ++ NL :: bytes "6 2" ++ [NL]).
Proof.
  apply (do_map_prints_extents 3 holey_content holey_extents []).
  - vm_compute. repeat split; discriminate.
  - simpl. lia.
Defined.

(** ** Encoding and decoding again *)

Lemma extent_payload_length (content : list ascii) a b :
  0 <= a -> a < b -> b <= Z.of_nat (length content) ->
  Z.of_nat (length (take (Z.to_nat (b - a)) (drop (Z.to_nat a) content))) = b - a.
Proof. intros. rewrite length_take, length_drop. lia. Qed.

Lemma records_decodable content lo extents :
  extents_from lo (Z.of_nat (length content)) extents -> 0 <= lo ->
  short_extents extents -> Z.of_nat (length content) <= OFF_MAX ->
  Forall decodable (records_of content extents).
Proof.
  unfold OFF_MAX. revert lo.
  induction extents as [|[a b] rest IH]; intros lo Hext Hlo Hshort Hsize; [constructor|].
  destruct Hext as (Ha & Hab & Hb & Hrest). inversion Hshort as [|x l Hlen Hshort']; subst.
  cbn [records_of map]. constructor.
  - pose proof (extent_payload_length content a b ltac:(lia) Hab Hb) as Hpl.
    unfold decodable. cbn [fst snd]. repeat split; try lia.
    intros Hnil. rewrite Hnil in Hpl. simpl in Hpl. lia.
  - apply (IH (b + 1)); try assumption. lia.
Qed.

Lemma write_record_extent content a b s :
  0 <= a -> a < b -> b <= Z.of_nat (length content) -> out_seekable s = true ->
  let s' := write_record s (a, take (Z.to_nat (b - a)) (drop (Z.to_nat a) content)) in
  out_seekable s' = true
  /\ out_size s' = Z.max (out_size s) b
  /\ forall i, out_data s' !! i
               = if (a <=? i) && (i <? b) then content !! Z.to_nat i else out_data s !! i.
Proof.
  intros Ha Hab Hb Hseek.
  pose proof (extent_payload_length content a b Ha Hab Hb) as Hpl.
  unfold write_record, sys_lseek_set. cbn [fst snd]. rewrite Hseek.
  cmp_true (0 <=? a). cbn [andb snd sink_put out_seekable out_size out_pos out_data].
  rewrite Hpl. split; [reflexivity|]. split; [f_equal; lia|].
  intros i. rewrite store_bytes_lookup, Hpl. replace (a + (b - a)) with b by lia.
  destruct ((a <=? i) && (i <? b)) eqn:Hin; [|reflexivity].
  apply andb_true_iff in Hin as [H1 H2]. apply Z.leb_le in H1. apply Z.ltb_lt in H2.
  rewrite lookup_take_lt by lia. rewrite lookup_drop. f_equal. lia.
Qed.

Lemma decoded_extents content extents lo s :
  extents_from lo (Z.of_nat (length content)) extents -> 0 <= lo ->
  out_seekable s = true -> out_size s <= lo ->
  let s' := fold_left write_record (records_of content extents) s in
  out_size s' = data_end extents (out_size s)
  /\ forall i, out_data s' !! i
               = if covered extents i then content !! Z.to_nat i else out_data s !! i.
Proof.
  revert lo s.
  induction extents as [|[a b] rest IH]; intros lo s Hext Hlo Hseek Hsize.
  - split; reflexivity.
  - destruct Hext as (Ha & Hab & Hb & Hrest).
    destruct (write_record_extent content a b s ltac:(lia) Hab Hb Hseek)
      as (Hseek' & Hsize' & Hdata').
    cbn [records_of map fold_left].
    set (s1 := write_record s _) in *.
    destruct (IH (b + 1) s1 Hrest ltac:(lia) Hseek' ltac:(lia)) as [IHsize IHdata].
    cbn zeta. fold (records_of content rest). split.
    + rewrite IHsize, Hsize'. cbn [data_end]. f_equal. lia.
    + intros i. rewrite IHdata, Hdata'. unfold covered. cbn [existsb].
      fold (covered rest i).
      destruct ((a <=? i) && (i <? b)), (covered rest i); reflexivity.
Qed.

(** X13: what is encoded is decoded again.  A sparse file (extent map as
    above, no extent longer than [INT_MAX], size within [off_t]) is encoded
    by [do_sparse] into an empty stream; when the decoder reads that stream
    in one block, [do_ursparse] returns 0 on an empty seekable output and
    leaves there, at every offset inside a data extent, the byte the file has
    at that offset, and no byte anywhere else.  The size of the result is the
    end of the last data extent: a hole at the end of the file is not
    restored. *)
Theorem sparse_round_trip fuel content extents blk_sz :
  extents_from 0 (Z.of_nat (length content)) extents ->
  short_extents extents ->
  Z.of_nat (length content) <= OFF_MAX ->
  Z.of_nat (length (encode_records (records_of content extents))) <= blk_sz ->
  (length extents + 2 <= fuel)%nat ->
  exists o fd s,
    do_sparse fuel (linux_file content extents) empty_stream = Some (0, o)
    /\ do_ursparse fuel true (file_of (os_bytes o)) empty_file blk_sz = Some (0, fd, s)
    /\ (forall i, out_data s !! i
                  = if covered extents i then content !! Z.to_nat i else None)
    /\ out_size s = data_end extents 0.
Proof.
  intros Hext Hshort Hsize Hblk Hfuel.
  pose proof (records_decodable content 0 extents Hext ltac:(lia) Hshort Hsize) as Hdec.
  destruct (decoded_extents content extents 0 empty_file Hext ltac:(lia) eq_refl
              ltac:(reflexivity)) as [Hsz Hdata].
  eexists _, _, _. split; [|split; [|split]].
  - apply do_sparse_linux_file; try assumption; try reflexivity. lia.
  - cbn [os_append os_bytes empty_stream app].
    apply do_ursparse_records; try assumption; try reflexivity.
    unfold records_of. rewrite length_map. exact Hfuel.
  - intros i. rewrite Hdata. destruct (covered extents i); [reflexivity|].
    apply lookup_empty.
  - exact Hsz.
Qed.

Lemma sparse_round_trip_witness :
  exists o fd s,
    do_sparse 4 (linux_file holey_content holey_extents) empty_stream = Some (0, o)
    /\ do_ursparse 4 true (file_of (os_bytes o)) empty_file 4096 = Some (0, fd, s)
    /\ (forall i, out_data s !! i
                  = if covered holey_extents i then holey_content !! Z.to_nat i else None)
    /\ out_size s = data_end holey_extents 0.
Proof.
  apply (sparse_round_trip 4 holey_content holey_extents 4096).
  - vm_compute. repeat split; discriminate.
  - repeat constructor; vm_compute; discriminate.
  - vm_compute. discriminate.
  - vm_compute. discriminate.
  - simpl. lia.
Defined.

(** * Further properties of the number fields *)

(** X14: what [%ld] prints, [parse_uint] reads back.  The decimal text that
    the encoder prints for an offset or a length between 0 and the largest
    [off_t], followed by a blank or a newline, is parsed from a cleared
    accumulator as a complete field with that same value; the call reports
    as consumed exactly the digits. *)
Theorem parse_uint_reads_print_ld z t rest out_sz :
  0 <= z <= OFF_MAX -> is_blank t = true ->
  parse_uint (print_ld z ++ t :: rest) out_sz 0
  = (0, Z.of_nat (length (print_ld z)), z).
Proof.
  unfold OFF_MAX. intros Hz Ht.
  destruct (print_ld_parsed z ltac:(lia)) as (Hd & Hne & Hv).
  pose proof (parse_uint_field [] (print_ld z) t rest out_sz 0 eq_refl Hd Ht) as H.
  rewrite Hv in H. apply H. left. now split.
Qed.

Lemma parse_uint_reads_print_ld_witness :
  parse_uint (print_ld 1048576 ++ SP :: bytes "4096") 0 0
  = (0, Z.of_nat (length (print_ld 1048576)), 1048576).
Proof.
  apply (parse_uint_reads_print_ld 1048576 SP (bytes "4096") 0).
  - vm_compute. split; discriminate.
  - reflexivity.
Defined.

(** * Further properties of the command line *)

(** ** byte_from_hex *)

Lemma byte_from_char_digit a :
  is_digit a = true -> byte_from_char a = char_code a - 48.
Proof. unfold is_digit, byte_from_char. now intros ->. Qed.

Lemma nibble_pair x y :
  0 <= x <= 14 -> 0 <= y <= 14 ->
  Z.lor (Z.shiftl x 4) y mod 256 = 16 * x + y.
Proof.
  intros Hx Hy.
  assert (Ex : x = 0 \/ x = 1 \/ x = 2 \/ x = 3 \/ x = 4 \/ x = 5 \/ x = 6 \/ x = 7
               \/ x = 8 \/ x = 9 \/ x = 10 \/ x = 11 \/ x = 12 \/ x = 13 \/ x = 14) by lia.
  assert (Ey : y = 0 \/ y = 1 \/ y = 2 \/ y = 3 \/ y = 4 \/ y = 5 \/ y = 6 \/ y = 7
               \/ y = 8 \/ y = 9 \/ y = 10 \/ y = 11 \/ y = 12 \/ y = 13 \/ y = 14) by lia.
  clear Hx Hy.
  repeat (destruct Ex as [-> | Ex]); try subst x;
    repeat (destruct Ey as [-> | Ey]); try subst y; reflexivity.
Qed.

(** The low four bits of what [byte_from_char] returns for a character it
    accepts. *)
Lemma byte_from_char_nibble a :
  byte_from_char a = -1
  \/ (0 <= Z.land (byte_from_char a) 15 <= 14 /\ Z.land (byte_from_char a) 15 <> 10).
Proof.
  destruct a as [[] [] [] [] [] [] [] []]; vm_compute;
    first [left; reflexivity | right; repeat split; discriminate].
Qed.

Lemma byte_from_char_accepted a :
  (byte_from_char a =? -1) = negb (hex_accepted a).
Proof. destruct a as [[] [] [] [] [] [] [] []]; reflexivity. Qed.

(** X15: two decimal digits give the byte they denote.  For characters
    [0]-[9], [byte_from_hex] returns 0 and stores sixteen times the first
    digit plus the second. *)
Theorem byte_from_hex_decimal a b byte :
  is_digit a = true -> is_digit b = true ->
  byte_from_hex a b byte = (0, 16 * (char_code a - 48) + (char_code b - 48)).
Proof.
  intros Ha Hb. unfold byte_from_hex. cbn zeta.
  rewrite !byte_from_char_digit by assumption.
  unfold is_digit in Ha, Hb.
  apply andb_true_iff in Ha as [Ha1 Ha2]. apply andb_true_iff in Hb as [Hb1 Hb2].
  apply Z.leb_le in Ha1, Ha2, Hb1, Hb2.
  cmp_false (char_code a - 48 =? -1). cmp_false (char_code b - 48 =? -1). cbn [orb].
  assert (Hland : forall x, 0 <= x <= 9 -> Z.land x 15 = x).
  { intros x Hx.
    assert (Ex : x = 0 \/ x = 1 \/ x = 2 \/ x = 3 \/ x = 4 \/ x = 5 \/ x = 6 \/ x = 7
                 \/ x = 8 \/ x = 9) by lia.
    repeat (destruct Ex as [-> | Ex]); try subst x; reflexivity. }
  rewrite !Hland, nibble_pair by lia. reflexivity.
Qed.

Lemma byte_from_hex_decimal_witness :
  byte_from_hex "4" "2" 0 = (0, 16 * (char_code "4" - 48) + (char_code "2" - 48)).
Proof. apply (byte_from_hex_decimal "4" "2" 0); reflexivity. Defined.

(** X16: which characters [byte_from_hex] takes.  The call returns 0 exactly
    when both characters are among [0]-[9], [a]-[f], [A]-[D] and [F];
    otherwise it returns -1 and leaves the byte alone.  The hexadecimal digit
    [E] is refused: for it [a - 'F'] is -1, the error value. *)
Theorem byte_from_hex_accepted a b byte :
  if hex_accepted a && hex_accepted b then fst (byte_from_hex a b byte) = 0
  else byte_from_hex a b byte = (-1, byte).
Proof.
  unfold byte_from_hex. cbn zeta. rewrite !byte_from_char_accepted.
  destruct (hex_accepted a), (hex_accepted b); reflexivity.
Qed.

(** X17: bytes that cannot be entered.  Whatever the two characters, a byte
    stored by [byte_from_hex] has neither [0xA] nor [0xF] as a hexadecimal
    digit: the letters [a]-[f] count as 0 to 5, [F] as 0, and [A]-[D] as 11
    to 14.  So [FF] stores 0 and no argument stores 255. *)
Theorem byte_from_hex_nibbles a b byte v :
  byte_from_hex a b byte = (0, v) ->
  0 <= v < 256
  /\ v / 16 <> 10 /\ v / 16 <> 15 /\ v mod 16 <> 10 /\ v mod 16 <> 15.
Proof.
  unfold byte_from_hex. cbn zeta. intros H.
  destruct (byte_from_char_nibble a) as [Ea | [Ha Ha']];
    [rewrite Ea in H; discriminate|].
  destruct (byte_from_char_nibble b) as [Eb | [Hb Hb']];
    [rewrite Eb, orb_true_r in H; discriminate|].
  destruct ((byte_from_char a =? -1) || (byte_from_char b =? -1)); [discriminate|].
  injection H as <-. rewrite nibble_pair by assumption.
  set (x := Z.land (byte_from_char a) 15) in *.
  set (y := Z.land (byte_from_char b) 15) in *.
  clearbody x y.
  replace ((16 * x + y) / 16) with x by (apply Z.div_unique with y; lia).
  replace ((16 * x + y) mod 16) with y by (apply Z.mod_unique with x; lia).
  lia.
Qed.

Lemma byte_from_hex_nibbles_witness :
  byte_from_hex "F" "F" 7 = (0, 0)
  /\ (0 <= 0 < 256
      /\ 0 / 16 <> 10 /\ 0 / 16 <> 15 /\ 0 mod 16 <> 10 /\ 0 mod 16 <> 15).
Proof.
  split; [reflexivity|].
  apply (byte_from_hex_nibbles "F" "F" 7 0). reflexivity.
Defined.

(** ** main *)

Lemma str_eq_true lit s : str_eq lit s = true -> s = bytes lit.
Proof. unfold str_eq. destruct (List.list_eq_dec ascii_dec (bytes lit) s); congruence. Qed.

Lemma str_eq_longer lit c n : str_eq lit (bytes lit ++ c :: n) = false.
Proof.
  unfold str_eq. destruct (List.list_eq_dec _ _ _) as [H|]; [|reflexivity].
  apply (f_equal (@length ascii)) in H. rewrite length_app in H. simpl in H. lia.
Qed.

Lemma arg_at_char arg k c : arg_at arg k = Some c -> c <> NUL -> arg !! k = Some c.
Proof.
  unfold arg_at. destruct (arg !! k); [congruence|].
  destruct (k =? length arg)%nat; congruence.
Qed.

Lemma drop_at (arg : list ascii) k c :
  arg !! k = Some c -> drop k arg = c :: drop (S k) arg.
Proof.
  revert k. induction arg as [|x arg IH]; intros [|k] H; try discriminate.
  - simpl in H. injection H as ->. now rewrite drop_0.
  - simpl. now apply IH.
Qed.

(** An argument leaves the block size as it was or sets it to 0: [atoi] is
    given text that starts with [b] or is [=]. *)
Lemma scan_arg_block_size arg o o' :
  scan_arg arg o = Some (BreakLoop o') ->
  block_size o' = block_size o \/ block_size o' = 0.
Proof.
  unfold scan_arg, short_option. intros H.
  destruct (arg_at arg 0) as [c0|]; [|discriminate]. cbn [mbind option_bind] in H.
  destruct (c0 =? "-")%char; [|discriminate].
  destruct (arg_at arg 1) as [c1|] eqn:H1; [|discriminate]. cbn [mbind option_bind] in H.
  destruct (c1 =? "-")%char.
  - destruct (str_eq "help" (drop 2 arg)); [injection H as <-; now left|].
    destruct (str_eq "map" (drop 2 arg)); [injection H as <-; now left|].
    destruct (str_eq "ursparse" (drop 2 arg)); [injection H as <-; now left|].
    destruct (str_eq "sparse" (drop 2 arg)); [injection H as <-; now left|].
    destruct (str_eq "blocksize=" (drop 2 arg)) eqn:Hbs; [|discriminate].
    injection H as <-. right. cbn [block_size].
    apply str_eq_true in Hbs.
    replace (drop 11 arg) with (drop 9 (drop 2 arg)) by (rewrite drop_drop; reflexivity).
    rewrite Hbs. reflexivity.
  - repeat match type of H with
           | context [(c1 =? ?c)%char] => destruct (c1 =? c)%char eqn:?
           | context [arg_at arg ?k] => destruct (arg_at arg k); [|discriminate]
           | context [if (?c =? NUL)%char then _ else _] => destruct (c =? NUL)%char
           | context [byte_from_hex ?a ?b ?c] => destruct (byte_from_hex a b c) as [r byte]
           | context [negb ?r] => destruct (negb r)
           | _ => progress cbn [mbind option_bind] in H
           end; try discriminate; try (injection H as <-; now left).
    all: injection H as <-; right; cbn [block_size].
    all: match goal with Hb : (?c =? "b")%char = true |- _ =>
           apply Ascii.eqb_eq in Hb; subst c end.
    all: rewrite (drop_at arg 1 "b"%char) by (apply arg_at_char; [assumption | discriminate]).
    all: reflexivity.
Qed.

Lemma scan_args_block_size args o o' :
  scan_args args o = Some (inl o') ->
  block_size o' = block_size o \/ block_size o' = 0.
Proof.
  induction args as [|arg args IH]; simpl; intros H.
  - injection H as <-. now left.
  - destruct (scan_arg arg o) as [[| o1 | code]|] eqn:Harg; cbn [mbind option_bind] in H;
      try discriminate.
    + now apply IH.
    + injection H as <-. now apply (scan_arg_block_size arg).
Qed.

Lemma scan_arg_plain arg o : plain_arg arg -> scan_arg arg o = Some NextArg.
Proof.
  unfold plain_arg, scan_arg, arg_at. intros H.
  destruct arg as [|c arg]; [reflexivity|].
  cbn [lookup list_lookup mbind option_bind]. simpl.
  destruct (c =? "-")%char eqn:Hc; [|reflexivity].
  apply Ascii.eqb_eq in Hc. subst. now contradiction H.
Qed.

(** Arguments that do not start with [-] are stepped over. *)
Lemma scan_args_plain pre rest o :
  Forall plain_arg pre -> scan_args (pre ++ rest) o = scan_args rest o.
Proof.
  induction 1 as [|arg pre Harg _ IH]; [reflexivity|].
  cbn [app scan_args]. now rewrite scan_arg_plain.
Qed.

(** X18: the block size cannot be chosen.  Whatever the command line,
    when [main] goes on to [do_ursparse] or [do_sparse] it passes the block
    size 4096: an option that sets the block size sets it to 0, which [main]
    answers with exit code 3. *)
Theorem block_size_is_always_4096 argv w blk_sz :
  main argv = Some (Runs w) -> worker_block_size w = Some blk_sz -> blk_sz = 4096.
Proof.
  unfold main. intros H Hw.
  destruct (scan_args (tail argv) _) as [[o|code]|] eqn:Hscan; cbn [mbind option_bind] in H;
    try discriminate.
  apply scan_args_block_size in Hscan. cbn [block_size] in Hscan.
  destruct Hscan as [Hb | Hb]; rewrite Hb in H; cbn in H; [|discriminate].
  destruct (action o); try discriminate; injection H as <-; try discriminate;
    injection Hw as <-; reflexivity.
Qed.

Lemma block_size_is_always_4096_witness :
  exists w blk_sz,
    main [bytes "ursparseness"; bytes "-s"] = Some (Runs w)
    /\ worker_block_size w = Some blk_sz
    /\ blk_sz = 4096.
Proof.
  exists (DoSparse 4096 None), 4096. split; [reflexivity|]. split; [reflexivity|].
  apply (block_size_is_always_4096 [bytes "ursparseness"; bytes "-s"]
           (DoSparse 4096 None) 4096); reflexivity.
Defined.

(** X19: [-bSIZE] ends the program.  When the first argument that starts
    with [-] is [-b] followed by anything, [main] returns 3 (invalid block
    size) without running anything: [atoi] is called on the text from the
    [b] on and gives 0. *)
Theorem short_blocksize_option_exits_3 prog pre n rest :
  Forall plain_arg pre ->
  main (prog :: pre ++ (bytes "-b" ++ n) :: rest) = Some (Exits 3).
Proof.
  intros Hpre. unfold main. cbn [tail]. rewrite scan_args_plain by assumption.
  reflexivity.
Qed.

Lemma short_blocksize_option_exits_3_witness :
  main (bytes "ursparseness" :: [bytes "in.img"] ++ (bytes "-b" ++ bytes "8192") :: [bytes "-s"])
  = Some (Exits 3).
Proof.
  apply (short_blocksize_option_exits_3 (bytes "ursparseness") [bytes "in.img"]
           (bytes "8192") [bytes "-s"]).
  repeat constructor; discriminate.
Defined.

(** X20: [--blocksize=SIZE] is not recognised.  As the first argument that
    starts with [-], [--blocksize=] with a size after it has no effect at
    all, the scan going on as if the argument were not there; without a size
    it makes [main] return 3. *)
Theorem long_blocksize_option_ignored prog pre n rest :
  Forall plain_arg pre ->
  main (prog :: pre ++ (bytes "--blocksize=" ++ n) :: rest)
  = match n with
    | [] => Some (Exits 3)
    | _ => main (prog :: pre ++ rest)
    end.
Proof.
  intros Hpre. unfold main. cbn [tail]. rewrite !scan_args_plain by assumption.
  destruct n as [|c n]; [reflexivity|].
  cbn [scan_args].
  replace (scan_arg (bytes "--blocksize=" ++ c :: n) _) with (Some NextArg); [reflexivity|].
  unfold scan_arg.
  change (bytes "--blocksize=" ++ c :: n)
    with ("-"%char :: "-"%char :: bytes "blocksize=" ++ c :: n).
  cbn [arg_at lookup list_lookup mbind option_bind drop].
  rewrite !drop_0, str_eq_longer. reflexivity.
Qed.

Lemma long_blocksize_option_ignored_witness :
  main (bytes "ursparseness" :: [] ++ (bytes "--blocksize=" ++ bytes "512") :: [bytes "-m"])
  = main (bytes "ursparseness" :: [] ++ [bytes "-m"]).
Proof.
  apply (long_blocksize_option_ignored (bytes "ursparseness") [] (bytes "512") [bytes "-m"]).
  constructor.
Defined.

(** X21: [-s] with one more character is read past its end.  When the first
    argument that starts with [-] is [-s] followed by a single character,
    the test [argv[i][4] == 0] of line 538 reads the byte after the
    terminating NUL of the argument, outside the string. *)
Theorem three_character_sparse_option_overreads prog pre x rest :
  Forall plain_arg pre -> x <> NUL ->
  main (prog :: pre ++ (bytes "-s" ++ [x]) :: rest) = None.
Proof.
  intros Hpre Hx. unfold main. cbn [tail]. rewrite scan_args_plain by assumption.
  cbn [scan_args].
  replace (scan_arg (bytes "-s" ++ [x]) _) with (@None arg_exit); [reflexivity|].
  unfold scan_arg, short_option.
  change (bytes "-s" ++ [x]) with ["-"%char; "s"%char; x].
  cbn [arg_at lookup list_lookup mbind option_bind length Nat.eqb].
  simpl.
  destruct (x =? NUL)%char eqn:E; [apply Ascii.eqb_eq in E; contradiction|].
  reflexivity.
Qed.

Lemma three_character_sparse_option_overreads_witness :
  main (bytes "ursparseness" :: [] ++ (bytes "-s" ++ ["0"%char]) :: []) = None.
Proof.
  apply (three_character_sparse_option_overreads (bytes "ursparseness") [] "0"%char []).
  - constructor.
  - discriminate.
Defined.
